(** * AgroCoop pool cache: event hydration and state reconciliation

    A shallow embedding of [server.js]: the decoding helpers
    ([extractAmount], [extractPoolId]), the reconciler inside
    [hydrateFromEvents], the snapshot functions [saveState] / [loadState],
    the single-flight gate around a hydration pass, and the HTTP handlers
    that list the pools and register them.

    JavaScript values are embedded as a small untyped value type.  Numbers
    are IEEE doubles in the source; the embedding keeps a double by its
    exact value: an integer, a decimal fraction, an infinity or [NaN].
    Conversions read every numeric literal the language reads, round to
    the nearest double (ties to even, with the overflow to an infinity and
    the underflow to zero), and print numbers as [Number::toString] does,
    with the shortest digits that read back as the same double.  Ledger
    numbers, counters and the clock are integers far below 2^53 and are
    kept as integers.  Strings are ASCII strings. *)

From Stdlib Require Import ZArith String Ascii DecimalString DecimalZ.
From stdpp Require Import gmap strings list.

Set Warnings "-register-all".
Local Open Scope string_scope.
Local Open Scope Z_scope.

(** ** JavaScript values *)

Inductive number :=
| NaN
| Num (z : Z)                  (* an integer *)
| Dec (m : Z) (k : positive)   (* [m / 10^k], not an integer *)
| Inf (negative : bool).       (* [Infinity], [-Infinity] *)

Inductive jsval :=
| JUndefined
| JNull
| JBool (b : bool)
| JNumber (n : number)
| JBigInt (z : Z)
| JString (s : string)
| JArray (items : list jsval)
| JObject (props : list (string * jsval)).

(** A plain object: its own enumerable properties, in the order they were
    added.  (The source's engine lists integer-like keys first; nothing
    here depends on the order.) *)
Abbreviation obj := (list (string * jsval)).

Inductive js_error :=
| TypeError
| RangeError
| SyntaxError.

(** The outcome of evaluating an expression that may throw. *)
Inductive completion (A : Type) :=
| Return (a : A)
| Throw (e : js_error).
Arguments Return {A} a.
Arguments Throw {A} e.

#[global] Instance completion_ret : MRet completion := fun _ a => Return a.

#[global] Instance completion_bind : MBind completion := fun _ _ k c =>
  match c with
  | Return a => k a
  | Throw e => Throw e
  end.

Fixpoint mapM {A B} (f : A -> completion B) (l : list A) : completion (list B) :=
  match l with
  | [] => Return []
  | a :: l' => b ← f a; bs ← mapM f l'; Return (b :: bs)
  end.

(** A finite number as a fraction [m / 10^k]. *)
Definition fraction (n : number) : Z * Z :=
  match n with
  | Num z => (z, 0)
  | Dec m k => (m, Z.pos k)
  | _ => (0, 0)
  end.

(** [a > b] on numbers; every comparison with [NaN] is false. *)
Definition number_gtb (a b : number) : bool :=
  match a, b with
  | Num x, Num y => y <? x
  | NaN, _ | _, NaN => false
  | Inf na, Inf nb => negb na && nb
  | Inf na, _ => negb na
  | _, Inf nb => nb
  | _, _ =>
      let '(ma, ka) := fraction a in
      let '(mb, kb) := fraction b in
      mb * 10 ^ ka <? ma * 10 ^ kb
  end.

(** [Number.isFinite]. *)
Definition isFinite (n : number) : bool :=
  match n with
  | NaN | Inf _ => false
  | Num _ | Dec _ _ => true
  end.

Definition typeof (v : jsval) : string :=
  match v with
  | JUndefined => "undefined"
  | JNull => "object"
  | JBool _ => "boolean"
  | JNumber _ => "number"
  | JBigInt _ => "bigint"
  | JString _ => "string"
  | JArray _ => "object"
  | JObject _ => "object"
  end.

(** Truthiness ([ToBoolean]), as used by [if], [!], [&&], [||] and
    [Boolean(..)]. *)
Definition truthy (v : jsval) : bool :=
  match v with
  | JUndefined | JNull => false
  | JBool b => b
  | JNumber NaN => false
  | JNumber (Num z) => negb (z =? 0)
  | JNumber (Dec m _) => negb (m =? 0)
  | JNumber (Inf _) => true
  | JBigInt z => negb (z =? 0)
  | JString s => negb (String.eqb s "")
  | JArray _ | JObject _ => true
  end.

(** [v == null]: [undefined] or [null]. *)
Definition nullish (v : jsval) : bool :=
  match v with
  | JUndefined | JNull => true
  | _ => false
  end.

(** [a ?? b]. *)
Definition coalesce (a b : jsval) : jsval := if nullish a then b else a.

(** [a || b]. *)
Definition js_or (a b : jsval) : jsval := if truthy a then a else b.

(** ** Strings and numerals *)

Definition string_of_Z (z : Z) : string := NilZero.string_of_int (Z.to_int z).

Definition is_digit (c : ascii) : bool :=
  let n := nat_of_ascii c in (48 <=? n)%nat && (n <=? 57)%nat.

(** ASCII white space and line terminators: TAB, LF, VT, FF, CR, SP. *)
Definition is_space (c : ascii) : bool :=
  let n := nat_of_ascii c in
  ((9 <=? n)%nat && (n <=? 13)%nat) || (n =? 32)%nat.

Definition lower (c : ascii) : ascii :=
  let n := nat_of_ascii c in
  if (65 <=? n)%nat && (n <=? 90)%nat then ascii_of_nat (n + 32) else c.

(** [s.toLowerCase()]. *)
Fixpoint toLowerCase (s : string) : string :=
  match s with
  | EmptyString => EmptyString
  | String c r => String (lower c) (toLowerCase r)
  end.

Fixpoint skip_spaces (s : string) : string :=
  match s with
  | String c r => if is_space c then skip_spaces r else s
  | EmptyString => EmptyString
  end.

Definition string_rev (s : string) : string :=
  string_of_list_ascii (rev (list_ascii_of_string s)).

Definition trim (s : string) : string :=
  string_rev (skip_spaces (string_rev (skip_spaces s))).

(** A non-empty run of decimal digits, as a non-negative integer. *)
Definition parse_digits (s : string) : option Z :=
  option_map Z.of_uint (NilZero.uint_of_string s).

(** [DecimalDigits], [+DecimalDigits] or [-DecimalDigits]. *)
Definition parse_signed (s : string) : option Z :=
  match s with
  | String "-" r => option_map Z.opp (parse_digits r)
  | String "+" r => parse_digits r
  | _ => parse_digits s
  end.

(** A non-empty run of decimal digits at the start of [s], and what
    follows it; [(\d+)] in the regular expressions of the source. *)
Fixpoint take_digits (s : string) : string * string :=
  match s with
  | String c s' =>
      if is_digit c then let '(d, r) := take_digits s' in (String c d, r)
      else (EmptyString, s)
  | EmptyString => (EmptyString, EmptyString)
  end.

(** The value of a digit in a radix up to 16. *)
Definition digit_value (c : ascii) : option Z :=
  let n := nat_of_ascii c in
  if (48 <=? n)%nat && (n <=? 57)%nat then Some (Z.of_nat (n - 48))
  else if (97 <=? n)%nat && (n <=? 102)%nat then Some (Z.of_nat (n - 87))
  else if (65 <=? n)%nat && (n <=? 70)%nat then Some (Z.of_nat (n - 55))
  else None.

Fixpoint parse_radix (base acc : Z) (s : string) : option Z :=
  match s with
  | EmptyString => Some acc
  | String c r =>
      match digit_value c with
      | Some d => if d <? base then parse_radix base (acc * base + d) r else None
      | None => None
      end
  end.

(** [NonDecimalIntegerLiteral]: [0x], [0o] or [0b] (either case) and at
    least one digit of that radix; no sign. *)
Definition parse_non_decimal (s : string) : option Z :=
  match s with
  | String "0" (String p (String c r)) =>
      let digits := String c r in
      if Ascii.eqb (lower p) "x" then parse_radix 16 0 digits
      else if Ascii.eqb (lower p) "o" then parse_radix 8 0 digits
      else if Ascii.eqb (lower p) "b" then parse_radix 2 0 digits
      else None
  | _ => None
  end.

(** [ExponentPart], if there is one, up to the end of the string. *)
Definition parse_exponent (s : string) : option Z :=
  match s with
  | EmptyString => Some 0
  | String c r => if Ascii.eqb (lower c) "e" then parse_signed r else None
  end.

Definition digits_value (ds : string) : Z := default 0 (parse_digits ds).

(** [StrUnsignedDecimalLiteral] other than [Infinity]: digits, a point
    and an exponent, with a digit before or after the point.  The result
    [(m, e)] stands for [m * 10^e]. *)
Definition parse_unsigned_decimal (s : string) : option (Z * Z) :=
  let '(ip, r1) := take_digits s in
  match r1 with
  | String "." r2 =>
      let '(fp, r3) := take_digits r2 in
      if String.eqb ip "" && String.eqb fp "" then None
      else e ← parse_exponent r3;
           Some (digits_value (ip +:+ fp), e - Z.of_nat (String.length fp))
  | _ =>
      if String.eqb ip "" then None
      else e ← parse_exponent r1; Some (digits_value ip, e)
  end.

(** ** Doubles

    A finite number is kept by its exact value, which for a double is an
    integer or a fraction with a power of two below: [Num z] or
    [Dec m k] for [m / 10^k].  Conversions from text and from a [bigint]
    round to the nearest double, ties to even. *)

(** The fraction [n / (d * b^p)]. *)
Definition scale (b n d p : Z) : Z * Z :=
  if 0 <=? p then (n, d * b ^ p) else (n * b ^ (- p), d).

(** The double nearest to the positive fraction [n / d], ties to even, as
    [(q, p)] for [q * 2^p]: [2^52 <= q < 2^53] for a normal number, and
    [p = -1074] with a smaller [q] for a subnormal one or zero.  [None]
    from [2^1024 - 2^970] on, which rounds to an infinity. *)
Definition nearest_double (n d : Z) : option (Z * Z) :=
  let e := Z.log2 n - Z.log2 d in
  let '(n1, d1) := scale 2 n d e in
  let lg := if n1 <? d1 then e - 1 else e in
  let p := Z.max (lg - 52) (-1074) in
  let '(n2, d2) := scale 2 n d p in
  let q0 := n2 / d2 in
  let r := n2 mod d2 in
  let q := if 2 * r <? d2 then q0
           else if d2 <? 2 * r then q0 + 1
           else if Z.even q0 then q0 else q0 + 1 in
  let '(q, p) := if q =? 2 ^ 53 then (2 ^ 52, p + 1) else (q, p) in
  if 971 <? p then None else Some (q, p).

(** [m / 10^k] without the trailing zeros of [m], as long as [k] is
    positive. *)
Fixpoint strip_zeros (fuel : nat) (m k : Z) : Z * Z :=
  match fuel with
  | O => (m, k)
  | S fuel' =>
      if (0 <? k) && (m mod 10 =? 0) then strip_zeros fuel' (m / 10) (k - 1)
      else (m, k)
  end.

(** The number [q * 2^p], negated if [negative]. *)
Definition of_double (negative : bool) (q p : Z) : number :=
  let q := if negative then - q else q in
  if q =? 0 then Num 0
  else if 0 <=? p then Num (q * 2 ^ p)
  else
    let '(m, k) := strip_zeros (Z.to_nat (- p)) (q * 5 ^ (- p)) (- p) in
    if k =? 0 then Num m else Dec m (Z.to_pos k).

(** Integers up to [2^53] in absolute value are doubles. *)
Definition safe_integer : Z := Eval vm_compute in (2 ^ 53).

(** The number nearest to [m * 10^e]: an infinity when that is beyond
    the doubles, zero when it is at most half the smallest one. *)
Definition decimal (m e : Z) : number :=
  if m =? 0 then Num 0
  else if (e =? 0) && (Z.abs m <=? safe_integer) then Num m
  else if (309 <=? e) then Inf (m <? 0)
  else if Z.log2 (Z.abs m) + 1076 <=? 3 * (- e) then Num 0
  else
    let '(n, d) := scale 10 (Z.abs m) 1 (- e) in
    match nearest_double n d with
    | Some (q, p) => of_double (m <? 0) q p
    | None => Inf (m <? 0)
    end.

(** [x >= 10^c] for the positive fraction [x = n / d]. *)
Definition ge_pow10 (n d c : Z) : bool :=
  let '(n', d') := scale 10 n d c in d' <=? n'.

(** The [c] with [10^(c-1) <= n / d < 10^c]. *)
Definition position (n d : Z) : Z :=
  (fix find (fuel : nat) (c : Z) : Z :=
     match fuel with
     | O => c
     | S fuel' => if ge_pow10 n d c then find fuel' (c + 1) else c
     end) 6%nat (((Z.log2 n - Z.log2 d - 1) * 30103) / 100000).

(** Step 5 of [Number::toString] for the double nearest to the positive
    fraction [n / d]: the shortest digits [s], with their exponent [e],
    such that [s * 10^e] rounds to that double; of two such, the one
    nearest to it. *)
Definition shortest (n d : Z) : Z * Z :=
  let target := nearest_double n d in
  let '(n, d) := match target with
                 | Some (q, p) => scale 2 q 1 (- p)
                 | None => (n, d)
                 end in
  let c := position n d in
  let rounds_to (s e : Z) : bool :=
    let '(sn, sd) := scale 10 s 1 (- e) in
    match nearest_double sn sd, target with
    | Some (q1, p1), Some (q2, p2) => (q1 =? q2) && (p1 =? p2)
    | _, _ => false
    end in
  (fix search (fuel : nat) (k : Z) : Z * Z :=
     let e := c - k in
     let '(tn, td) := scale 10 n d e in
     let lo := tn / td in
     let r := tn mod td in
     match fuel with
     | O => (lo, e)
     | S fuel' =>
         let ok_lo := (0 <? lo) && rounds_to lo e in
         let ok_hi := rounds_to (lo + 1) e in
         if ok_lo && ok_hi then
           (if 2 * r <? td then lo
            else if td <? 2 * r then lo + 1
            else if Z.even lo then lo else lo + 1, e)
         else if ok_lo then (lo, e)
         else if ok_hi then (lo + 1, e)
         else search fuel' (k + 1)
     end) 17%nat 1.

(** [Number(s)] for a string ([StringToNumber]): white space is trimmed;
    the empty string is 0; then a signed decimal integer, a literal in
    radix 16, 8 or 2, [Infinity] with or without sign, or a signed decimal
    with a point and an exponent; anything else is [NaN]. *)
Definition StringToNumber (s : string) : number :=
  let t := trim s in
  if String.eqb t "" then Num 0
  else
    match parse_signed t with
    | Some z => decimal z 0
    | None =>
        match parse_non_decimal t with
        | Some z => decimal z 0
        | None =>
            let '(negative, u) := match t with
                                  | String "-" r => (true, r)
                                  | String "+" r => (false, r)
                                  | _ => (false, t)
                                  end in
            if String.eqb u "Infinity" then Inf negative
            else match parse_unsigned_decimal u with
                 | Some (m, e) => decimal (if negative then - m else m) e
                 | None => NaN
                 end
        end
    end.

(** [BigInt(s)] for a string ([StringToBigInt]): white space is trimmed;
    the empty string is 0; then a signed decimal integer or a literal in
    radix 16, 8 or 2; anything else throws [SyntaxError]. *)
Definition StringToBigInt (s : string) : completion Z :=
  let t := trim s in
  if String.eqb t "" then Return 0
  else match parse_signed t with
       | Some z => Return z
       | None =>
           match parse_non_decimal t with
           | Some z => Return z
           | None => Throw SyntaxError
           end
       end.

Fixpoint zeros (n : nat) : string :=
  match n with
  | O => ""
  | S n' => String "0" (zeros n')
  end.

(** Steps 9 and 10 of [Number::toString]: the digits [ds] with the point
    after the first one, and the exponent [n - 1]. *)
Definition exponent_form (ds : string) (n : Z) : string :=
  match ds with
  | String d rest =>
      String d (if String.eqb rest "" then "" else "." +:+ rest)
      +:+ "e" +:+ (if 0 <=? n - 1 then "+" else "-") +:+ string_of_Z (Z.abs (n - 1))
  | EmptyString => ""
  end.

(** Steps 6 to 10 of [Number::toString] for the value [0.ds * 10^n],
    where the digits [ds] end in no zero. *)
Definition print_digits (ds : string) (n : Z) : string :=
  let k := Z.of_nat (String.length ds) in
  if (k <=? n) && (n <=? 21) then ds +:+ zeros (Z.to_nat (n - k))
  else if (0 <? n) && (n <=? 21) then
    substring 0 (Z.to_nat n) ds +:+ "."
    +:+ substring (Z.to_nat n) (Z.to_nat (k - n)) ds
  else if (-6 <? n) && (n <=? 0) then "0." +:+ zeros (Z.to_nat (- n)) +:+ ds
  else exponent_form ds n.

(** [Number::toString] for the double nearest to the positive fraction
    [n / d]. *)
Definition print_double (n d : Z) : string :=
  let '(s, e) := shortest n d in
  let '(s', k) := strip_zeros 18 s 18 in
  let ds := string_of_Z s' in
  print_digits ds (Z.of_nat (String.length ds) + e + (18 - k)).

(** [String(n)] for a number ([Number::toString]).  An integer up to
    [2^53] prints as its decimal numeral. *)
Definition number_to_string (n : number) : string :=
  match n with
  | NaN => "NaN"
  | Inf negative => if negative then "-Infinity" else "Infinity"
  | Num z =>
      if Z.abs z <=? safe_integer then string_of_Z z
      else (if z <? 0 then "-" else "") +:+ print_double (Z.abs z) 1
  | Dec m k =>
      if m =? 0 then "0"
      else (if m <? 0 then "-" else "") +:+ print_double (Z.abs m) (10 ^ Z.pos k)
  end.

(** [String(v)].  An array prints its elements joined by commas, with
    [null] and [undefined] elements printed as the empty string. *)
Fixpoint js_String (v : jsval) : string :=
  match v with
  | JUndefined => "undefined"
  | JNull => "null"
  | JBool true => "true"
  | JBool false => "false"
  | JNumber n => number_to_string n
  | JBigInt z => string_of_Z z
  | JString s => s
  | JArray items =>
      (fix join (l : list jsval) : string :=
         match l with
         | [] => ""
         | x :: rest =>
             let sx := if nullish x then "" else js_String x in
             match rest with
             | [] => sx
             | _ => sx +:+ "," +:+ join rest
             end
         end) items
  | JObject _ => "[object Object]"
  end.

(** [Number(v)]. *)
Definition js_Number (v : jsval) : number :=
  match v with
  | JUndefined => NaN
  | JNull => Num 0
  | JBool b => Num (if b then 1 else 0)
  | JNumber n => n
  | JBigInt z => decimal z 0
  | JString s => StringToNumber s
  | JArray _ | JObject _ => StringToNumber (js_String v)
  end.

(** [BigInt(v)]; of a number that is not an integer it throws
    [RangeError]. *)
Definition js_BigInt (v : jsval) : completion Z :=
  match v with
  | JUndefined | JNull => Throw TypeError
  | JBool b => Return (if b then 1 else 0)
  | JNumber (Num z) => Return z
  | JNumber _ => Throw RangeError
  | JBigInt z => Return z
  | JString s => StringToBigInt s
  | JArray _ | JObject _ => StringToBigInt (js_String v)
  end.

(** [Boolean(v)]. *)
Definition js_Boolean (v : jsval) : jsval := JBool (truthy v).

(** ** Objects *)

Fixpoint obj_get (o : obj) (k : string) : jsval :=
  match o with
  | [] => JUndefined
  | (k', v) :: o' => if String.eqb k' k then v else obj_get o' k
  end.

(** [o[k] = v]: an existing property keeps its place, a new one is
    appended. *)
Fixpoint obj_set (k : string) (v : jsval) (o : obj) : obj :=
  match o with
  | [] => [(k, v)]
  | (k', v') :: o' =>
      if String.eqb k' k then (k, v) :: o' else (k', v') :: obj_set k v o'
  end.

(** [v[k]] and [v?.k] for the property names the program reads
    ([id], [goal], [raised], ...): only plain objects carry them. *)
Definition get_prop (v : jsval) (k : string) : jsval :=
  match v with
  | JObject o => obj_get o k
  | _ => JUndefined
  end.

Fixpoint indexed {A} (f : A -> jsval) (i : nat) (l : list A) : obj :=
  match l with
  | [] => []
  | x :: l' => (string_of_Z (Z.of_nat i), f x) :: indexed f (S i) l'
  end.

(** The own enumerable properties copied by [{...v}]. *)
Definition spread (v : jsval) : obj :=
  match v with
  | JObject o => o
  | JArray items => indexed (fun x => x) 0 items
  | JString s => indexed (fun c => JString (String c EmptyString)) 0
                   (list_ascii_of_string s)
  | _ => []
  end.

(** ** JSON *)

(** What [JSON.parse(JSON.stringify(v))] evaluates to.  [JUndefined]
    stands for "no text": such a property is left out of an object and
    such an element of an array is written as [null].  A number that is
    not finite ([NaN] or an infinity) is written as [null], and a [bigint]
    cannot be serialised. *)
Fixpoint toJSON (v : jsval) : completion jsval :=
  match v with
  | JUndefined => Return JUndefined
  | JNull => Return JNull
  | JBool b => Return (JBool b)
  | JNumber (NaN | Inf _) => Return JNull
  | JNumber n => Return (JNumber n)
  | JBigInt _ => Throw TypeError
  | JString s => Return (JString s)
  | JArray items =>
      items' ← (fix each (l : list jsval) : completion (list jsval) :=
                  match l with
                  | [] => Return []
                  | x :: l' =>
                      y ← toJSON x;
                      ys ← each l';
                      Return ((if nullish y then JNull else y) :: ys)
                  end) items;
      Return (JArray items')
  | JObject props =>
      props' ← (fix each (l : obj) : completion obj :=
                  match l with
                  | [] => Return []
                  | (k, x) :: l' =>
                      y ← toJSON x;
                      ys ← each l';
                      Return (match y with
                              | JUndefined => ys
                              | _ => (k, y) :: ys
                              end)
                  end) props;
      Return (JObject props')
  end.

(** ** Pattern matching on strings

    The regular expressions of the source are all searches for literal
    words, so they are written as searches. *)

(** [pat] (lower case) is a prefix of [s], ignoring case; the rest of [s]
    is returned. *)
Fixpoint strip_prefix_ci (pat s : string) : option string :=
  match pat, s with
  | EmptyString, _ => Some s
  | String p pat', String c s' =>
      if Ascii.eqb p (lower c) then strip_prefix_ci pat' s' else None
  | String _ _, EmptyString => None
  end.

(** An unanchored search: [m] is tried at every position of [s]. *)
Fixpoint search {A} (m : string -> option A) (s : string) : option A :=
  match m s with
  | Some a => Some a
  | None =>
      match s with
      | String _ s' => search m s'
      | EmptyString => None
      end
  end.

(** [/pat/i.test(s)] for a literal [pat]. *)
Definition contains_ci (pat s : string) : bool :=
  bool_decide (is_Some (search (strip_prefix_ci pat) s)).

Definition is_line_terminator (c : ascii) : bool :=
  let n := nat_of_ascii c in (n =? 10)%nat || (n =? 13)%nat.

(** [.*pat] at the start of [s]. *)
Fixpoint dotstar_then (pat s : string) : option string :=
  match strip_prefix_ci pat s with
  | Some r => Some r
  | None =>
      match s with
      | String c s' => if is_line_terminator c then None else dotstar_then pat s'
      | EmptyString => None
      end
  end.

(** [/pool.*created|created|create_pool/i.test(s)]. *)
Definition re_created (s : string) : bool :=
  bool_decide (is_Some (search (fun t => r ← strip_prefix_ci "pool" t;
                                           dotstar_then "created" r) s))
  || contains_ci "created" s
  || contains_ci "create_pool" s.

(** [/contribut|contribute/i.test(s)]. *)
Definition re_contribut (s : string) : bool :=
  contains_ci "contribut" s || contains_ci "contribute" s.

(** [/finaliz/i.test(s)]. *)
Definition re_finaliz (s : string) : bool := contains_ci "finaliz" s.

(** [/must be positive/i.test(s)]. *)
Definition re_must_be_positive (s : string) : bool :=
  contains_ci "must be positive" s.

Definition digits1 (s : string) : option (string * string) :=
  let '(d, r) := take_digits s in
  if String.eqb d "" then None else Some (d, r).

(** [/within the ledger range:\s*(\d+)\s*-\s*(\d+)/i.exec(s)]: the two
    captured groups. *)
Definition re_ledger_range (s : string) : option (string * string) :=
  search (fun t =>
    r ← strip_prefix_ci "within the ledger range:" t;
    '(lo, r) ← digits1 (skip_spaces r);
    r ← strip_prefix_ci "-" (skip_spaces r);
    '(hi, _) ← digits1 (skip_spaces r);
    Some (lo, hi)) s.

(** [/^-?\d+$/.test(s)]. *)
Definition re_integer (s : string) : bool :=
  let body := match s with String "-" r => r | _ => s end in
  match digits1 body with
  | Some (_, EmptyString) => true
  | _ => false
  end.

(** ** Event decoder *)

(** An XDR item of an event as it arrives from the RPC server (a base64
    string or an [xdr.ScVal]), identified with what the SDK's
    [scValToNative] makes of it.  The SDK is not part of the repository. *)
Inductive scv :=
| ScvMissing                (* [undefined], [null] or the empty string *)
| ScvInvalid                (* present, but decoding throws *)
| ScvOf (native : jsval).   (* decodes to [native] *)

Definition scv_truthy (x : scv) : bool :=
  match x with
  | ScvMissing => false
  | _ => true
  end.

Definition scvToNativeSafe (scvLike : scv) : jsval :=
  match scvLike with
  | ScvOf native => native
  | _ => JNull
  end.

Definition topicSym (t : scv) : jsval :=
  let v := scvToNativeSafe t in
  if String.eqb (typeof v) "string" then v
  else if truthy v && truthy (get_prop v "sym") then get_prop v "sym"
  else JString (js_String v).

Definition topicNum (t : scv) : jsval :=
  let v := scvToNativeSafe t in
  let n := js_Number v in
  if isFinite n then JNumber n else JNull.

(** [Number.isFinite(v)] on an arbitrary value: no coercion. *)
Definition Number_isFinite (v : jsval) : bool :=
  match v with
  | JNumber n => isFinite n
  | _ => false
  end.

(** [v > 0]. *)
Definition gt0 (v : jsval) : bool := number_gtb (js_Number v) (Num 0).

Definition amount_fields : list string :=
  ["amount"; "delta"; "value"; "raised"; "contribution"].

Definition id_fields : list string := ["id"; "pool"; "pool_id"; "poolId"].

(** The loop over the amount field names: the first field that is not
    [null] or [undefined] decides, also when its conversion throws. *)
Fixpoint amount_of_fields (payload : jsval) (ks : list string) : option (completion Z) :=
  match ks with
  | [] => None
  | k :: ks' =>
      if negb (nullish (get_prop payload k)) then Some (js_BigInt (get_prop payload k))
      else amount_of_fields payload ks'
  end.

(** [try { ... } catch (_) {}  return 0n]. *)
Definition or_zero (c : completion Z) : Z :=
  match c with
  | Return z => z
  | Throw _ => 0
  end.

Fixpoint extractAmount (payload : jsval) : Z :=
  match payload with
  | JBigInt z => z
  | JNumber _ => or_zero (js_BigInt payload)
  | JString s => if re_integer s then or_zero (js_BigInt payload) else 0
  | JObject _ =>
      match amount_of_fields payload amount_fields with
      | Some c => or_zero c
      | None => 0
      end
  | JArray items =>
      match amount_of_fields payload amount_fields with
      | Some c => or_zero c
      | None =>
          (fix each (l : list jsval) : Z :=
             match l with
             | [] => 0
             | it :: l' =>
                 let v := extractAmount it in
                 if negb (v =? 0) then v else each l'
             end) items
      end
  | _ => 0
  end.

(** Step 1 of [extractPoolId]: the loop over the id field names. *)
Fixpoint id_of_fields (native : jsval) (ks : list string) : option jsval :=
  match ks with
  | [] => None
  | k :: ks' =>
      let n := JNumber (js_Number (get_prop native k)) in
      if Number_isFinite n && gt0 n then Some n else id_of_fields native ks'
  end.

(** Step 3 of [extractPoolId]: the loop over all topics. *)
Fixpoint id_of_topics (topics : list scv) : option jsval :=
  match topics with
  | [] => None
  | t :: topics' =>
      let n := topicNum t in
      if Number_isFinite n && gt0 n then Some n else id_of_topics topics'
  end.

Definition id_of_topic1 (topics : list scv) : option jsval :=
  match topics !! 1%nat with
  | Some t =>
      if scv_truthy t then
        let n := topicNum t in
        if Number_isFinite n && gt0 n then Some n else None
      else None
  | None => None
  end.

Definition extractPoolId (native : jsval) (topics : list scv) : jsval :=
  match (if truthy native && String.eqb (typeof native) "object"
         then id_of_fields native id_fields else None) with
  | Some n => n
  | None =>
      match id_of_topic1 topics with
      | Some n => n
      | None =>
          match id_of_topics topics with
          | Some n => n
          | None => JNull
          end
      end
  end.

(** ** Registry, orphan buffer and scan cursor *)

(** One event of a page returned by [getEvents].  The source reads the
    payload from [e.value] or [e.data] and the topics from [e.topics] or
    [e.topic]; the record keeps one field for each. *)
Record event := {
  value : scv;
  topics : list scv;
  ledger : option Z;
  ledgerSequence : option Z
}.

(** The module-level variables [pools], [pendingRaised] and
    [lastScannedLedger].  Both maps are keyed by [String(pid)].  A [Map]
    lists its entries in the order in which their keys were first set:
    [order] holds the keys of [pools] in that order. *)
Record state := {
  pools : gmap string obj;
  order : list string;
  pendingRaised : gmap string Z;
  lastScannedLedger : Z
}.

Definition initial_state : state :=
  {| pools := ∅; order := []; pendingRaised := ∅; lastScannedLedger := 0 |}.

(** [pools.set(key, o)]: a key that is in the map keeps its place, a new
    one goes last. *)
Definition pools_set (key : string) (o : obj) (st : state) : state :=
  {| pools := <[key := o]> (pools st);
     order := if decide (key ∈ order st) then order st
              else (order st ++ [key])%list;
     pendingRaised := pendingRaised st;
     lastScannedLedger := lastScannedLedger st |}.

Definition set_pendingRaised (f : gmap string Z -> gmap string Z) (st : state) : state :=
  {| pools := pools st;
     order := order st;
     pendingRaised := f (pendingRaised st);
     lastScannedLedger := lastScannedLedger st |}.

Definition set_lastScannedLedger (z : Z) (st : state) : state :=
  {| pools := pools st;
     order := order st;
     pendingRaised := pendingRaised st;
     lastScannedLedger := z |}.

(** [{ ...base, k1: v1, k2: v2, ... }]. *)
Definition obj_literal (base : obj) (fields : obj) : obj :=
  fold_left (fun o kv => obj_set (fst kv) (snd kv) o) fields base.

Inductive branch :=
| PoolCreated
| Contributed
| Finalized
| Fallback.

(** The [if] / [else if] chain on the normalised tag. *)
Definition dispatch (tagNorm : string) : branch :=
  if String.eqb tagNorm "pc" || re_created tagNorm then PoolCreated
  else if String.eqb tagNorm "ctr" || re_contribut tagNorm then Contributed
  else if String.eqb tagNorm "fn" || re_finaliz tagNorm then Finalized
  else Fallback.

(** The object built by the creation branch, before orphan contributions
    are merged. *)
Definition created_pool (pid native : jsval) : obj :=
  obj_literal
    (spread (if String.eqb (typeof native) "object" && truthy native
             then native else JObject []))
    [ ("id", pid);
      ("goal", JString (js_String
                 (coalesce (get_prop native "goal")
                    (coalesce (get_prop native "target") (JNumber (Num 0))))));
      ("raised", JString (js_String
                   (coalesce (get_prop native "raised") (JNumber (Num 0)))));
      ("deadline", JNumber (js_Number
                     (coalesce (get_prop native "deadline") (JNumber (Num 0)))));
      ("finalized", js_Boolean (get_prop native "finalized")) ].

Definition default_pool (pid : jsval) : obj :=
  [ ("id", pid); ("goal", JString "0"); ("raised", JString "0");
    ("deadline", JNumber (Num 0)); ("finalized", JBool false) ].

(** [if (native.k != null) p.k = conv(native.k)]. *)
Definition overlay (native : jsval) (k : string) (conv : jsval -> jsval) (p : obj) : obj :=
  if negb (nullish (get_prop native k)) then obj_set k (conv (get_prop native k)) p
  else p.

(** [console.log(`... ${JSON.stringify(obj)}`)] after the creation
    branch has stored [obj]: [JSON.stringify] throws on a [bigint] that
    the payload has left in the pool. *)
Definition log_created (o : obj) : completion unit :=
  _ ← toJSON (JObject o); Return tt.

(** The body of the dispatch for an event whose pool id is [pid]: the
    variables as the branch leaves them, and how it completes.  A branch
    that throws has written what it wrote before the throw. *)
Definition reconcile (st : state) (tagNorm : string) (pid native : jsval)
  : state * completion unit :=
  let key := js_String pid in
  match dispatch tagNorm with
  | PoolCreated =>
      let o := created_pool pid native in
      match pendingRaised st !! key with
      | Some buff =>
          if negb (buff =? 0) then
            match js_BigInt (coalesce (obj_get o "raised") (JString "0")) with
            | Return r =>
                let o' := obj_set "raised" (JString (string_of_Z (r + buff))) o in
                (pools_set key o' (set_pendingRaised (delete key) st), log_created o')
            | Throw err => (st, Throw err)
            end
          else (pools_set key o st, log_created o)
      | None => (pools_set key o st, log_created o)
      end
  | Contributed =>
      let delta := extractAmount native in
      match pools st !! key with
      | Some p =>
          match js_BigInt (coalesce (obj_get p "raised") (JString "0")) with
          | Return prev =>
              let p' := obj_set "raised" (JString (string_of_Z (prev + delta))) p in
              (pools_set key p' st, Return tt)
          | Throw err => (st, Throw err)
          end
      | None =>
          let cur := default 0 (pendingRaised st !! key) in
          (set_pendingRaised (insert key (cur + delta)) st, Return tt)
      end
  | Finalized =>
      match pools st !! key with
      | Some p => (pools_set key (obj_set "finalized" (JBool true) p) st, Return tt)
      | None => (st, Return tt)
      end
  | Fallback =>
      let p := default (default_pool pid) (pools st !! key) in
      let p' :=
        if truthy native && String.eqb (typeof native) "object" then
          overlay native "finalized" js_Boolean
            (overlay native "deadline" (fun v => JNumber (js_Number v))
               (overlay native "raised" (fun v => JString (js_String v))
                  (overlay native "goal" (fun v => JString (js_String v)) p)))
        else p in
      (pools_set key p' st, Return tt)
  end.

(** [(tag || '').toLowerCase()]: a tag that is not a string has no such
    method. *)
Definition normalise_tag (tag : jsval) : completion string :=
  match js_or tag (JString "") with
  | JString s => Return (toLowerCase s)
  | _ => Throw TypeError
  end.

(** [e.ledger ?? e.ledgerSequence ?? 0]. *)
Definition event_ledger (e : event) : Z :=
  match ledger e with
  | Some l => l
  | None => default 0 (ledgerSequence e)
  end.

(** [scvToNativeSafe(raw)] for the payload of [e]. *)
Definition event_native (e : event) : jsval := scvToNativeSafe (value e).

(** [topics[0] ? topicSym(topics[0]) : null]. *)
Definition event_tag (e : event) : jsval :=
  match topics e !! 0%nat with
  | Some t => if scv_truthy t then topicSym t else JNull
  | None => JNull
  end.

Definition event_pid (e : event) : jsval :=
  extractPoolId (event_native e) (topics e).

(** The body of the loop over the events of a page: the variables as
    it leaves them, and how it completes.  [Return false] is the
    [continue] taken when no pool id can be resolved; [Return true] is the
    end of the body, where the cursor has been advanced; on a throw the
    cursor has not been touched. *)
Definition process_event (st : state) (e : event) : state * completion bool :=
  let native := event_native e in
  let tag := event_tag e in
  let pid := event_pid e in
  if negb (truthy pid) then (st, Return false)
  else
    match normalise_tag tag with
    | Throw err => (st, Throw err)
    | Return tagNorm =>
        match reconcile st tagNorm pid native with
        | (st', Return _) =>
            (set_lastScannedLedger (Z.max (lastScannedLedger st') (event_ledger e)) st',
             Return true)
        | (st', Throw err) => (st', Throw err)
        end
    end.

(** The loop over the events of one page, with the running count of
    processed events.  A throw leaves the loop with what has been
    written so far. *)
Fixpoint process_events (st : state) (processed : nat) (es : list event)
  : state * completion nat :=
  match es with
  | [] => (st, Return processed)
  | e :: es' =>
      match process_event st e with
      | (st', Return false) => process_events st' processed es'
      | (st', Return true) => process_events st' (S processed) es'
      | (st', Throw err) => (st', Throw err)
      end
  end.

(** ** Persistence *)

Definition toJSON_obj (o : obj) : completion obj :=
  v ← toJSON (JObject o);
  Return (spread v).

(** The parsed content of [pools_state.json], in the layout [saveState]
    writes. *)
Record snapshot := {
  snap_lastScannedLedger : Z;
  snap_pools : list obj;
  savedAt : string
}.

Inductive file :=
| NoFile                      (* [fs.existsSync(STATE_FILE)] is false *)
| Unparsable                  (* [JSON.parse] throws *)
| Snapshot (data : snapshot).

(** The keys of [pools] as the [Map] lists them: in the order of their
    first insertion.  (In a state the program has built, [order] holds
    every key once; for any other state the keys that [order] misses
    follow the others.) *)
Definition pool_keys (st : state) : list string :=
  (filter (fun k => is_Some (pools st !! k)) (remove_dups (order st))
   ++ filter (fun k => k ∉ order st) (map_to_list (pools st)).*1)%list.

(** [[...pools.entries()]]. *)
Definition pool_entries (st : state) : list (string * obj) :=
  omap (fun k => (fun p => (k, p)) <$> pools st !! k) (pool_keys st).

(** [[...pools.values()]]. *)
Definition pool_values (st : state) : list obj := (pool_entries st).*2.

(** [saveState()]; [now] is [new Date().toISOString()].  A failure of
    [JSON.stringify] is caught and logged, and nothing is written. *)
Definition saveState (now : string) (st : state) (disk : file) : file :=
  match mapM toJSON_obj (pool_values st) with
  | Return ps =>
      Snapshot {| snap_lastScannedLedger := lastScannedLedger st;
                  snap_pools := ps;
                  savedAt := now |}
  | Throw _ => disk
  end.

(** [pools.clear()], then [for (const p of data.pools || [])
    pools.set(String(p.id), p)]. *)
Definition restore (ps : list obj) (st : state) : state :=
  fold_left (fun st p => pools_set (js_String (obj_get p "id")) p st) ps
    {| pools := ∅; order := [];
       pendingRaised := pendingRaised st;
       lastScannedLedger := lastScannedLedger st |}.

Definition restore_pools (ps : list obj) : gmap string obj :=
  fold_left (fun m p => <[js_String (obj_get p "id") := p]> m) ps ∅.

(** [loadState()]. *)
Definition loadState (disk : file) (st : state) : state :=
  match disk with
  | NoFile => st
  | Unparsable => st
  | Snapshot data =>
      let l := snap_lastScannedLedger data in
      set_lastScannedLedger (Z.max 0 (if l =? 0 then 0 else l))
        (restore (snap_pools data) st)
  end.

(** ** A hydration pass *)

Definition DEFAULT_WINDOW : Z := 150000.

(** [Math.max(1, Number(x || 0))]. *)
Definition clampPos (x : Z) : Z := Z.max 1 (if x =? 0 then 0 else x).

(** The first fetch position.  [fromLedger] is [None] when the argument
    is [undefined]. *)
Definition resolve_start (fromLedger : option Z) (cursor latest : Z) : Z :=
  match fromLedger with
  | Some 0 => 1
  | Some z => clampPos z
  | None =>
      clampPos (if negb (cursor =? 0) then cursor else latest - DEFAULT_WINDOW)
  end.

(** How a promise of the RPC client settles; a rejection carries
    [String(e?.message || e)]. *)
Inductive settled (A : Type) :=
| Fulfilled (a : A)
| Rejected (message : string).
Arguments Fulfilled {A} a.
Arguments Rejected {A} message.

(** A page of [getEvents]; [nextToken] is [ev.paginationToken || ev.cursor]. *)
Record page := {
  events : list event;
  nextToken : option string
}.

Inductive reply :=
| LatestLedger (r : settled Z)     (* [getLatestLedger()]: [latest.sequence] *)
| Events (r : settled page).       (* [getEvents(..)] *)

(** The async body of [hydrateFromEvents], suspended at one of its two
    [await]s, with its live local variables. *)
Inductive pass :=
| AwaitLatest (fromLedger : option Z)
| AwaitEvents (latest start : Z) (paginationToken : option string) (processed : nat).

(** How the body of the [do ... while] loop completes. *)
Inductive body_completion :=
| Normal
| Continue        (* [continue retryFetch] *)
| Break.          (* [break] *)

(** The [catch] block around [getEvents]: the completion of the loop
    body and the new values of [start] and [paginationToken]. *)
Definition on_fetch_error (msg : string) (latest start : Z)
    (paginationToken : option string) : body_completion * Z * option string :=
  if re_must_be_positive msg then
    (Continue, clampPos (latest - DEFAULT_WINDOW), None)
  else
    match re_ledger_range msg with
    | Some (lo, hi) =>
        let min := default 0 (parse_digits lo) in
        let max := default 0 (parse_digits hi) in
        if start <? min then (Continue, min, None)
        else if max <? start then (Continue, Z.max min (max - DEFAULT_WINDOW), None)
        else (Break, start, paginationToken)
    | None => (Break, start, paginationToken)
    end.

(** [while (paginationToken)]. *)
Definition loop_test (paginationToken : option string) : bool :=
  match paginationToken with
  | Some t => negb (String.eqb t "")
  | None => false
  end.

(** What [console.error] receives when a pass fails. *)
Inductive logged_error :=
| FetchError (message : string)
| Exception (e : js_error).

(** How the [try] block of the body completes: it runs to its end,
    possibly after the [catch] around [getEvents] has logged an error and
    left the loop, or it throws. *)
Inductive try_completion :=
| Returned (logged : option logged_error)
| Thrown (e : logged_error).

Inductive progress :=
| Suspended (k : pass)             (* at the next [await] *)
| Stopped (c : try_completion).    (* the [try] block is done *)

(** After the loop: [if (processed > 0) saveState()]. *)
Definition after_loop (now : string) (st : state) (disk : file) (processed : nat) : file :=
  if (0 <? processed)%nat then saveState now st disk else disk.

(** After the loop body: a [break] leaves the loop; a normal completion
    and a [continue] both go to the loop test. *)
Definition end_of_body (now : string) (st : state) (disk : file)
    (c : body_completion) (latest start : Z) (paginationToken : option string)
    (processed : nat) (err : option logged_error) : state * file * progress :=
  match c with
  | Break => (st, after_loop now st disk processed, Stopped (Returned err))
  | Normal | Continue =>
      if loop_test paginationToken
      then (st, disk, Suspended (AwaitEvents latest start paginationToken processed))
      else (st, after_loop now st disk processed, Stopped (Returned err))
  end.

(** Resume the pass with the reply to its pending call.  [None]: the
    reply does not answer that call. *)
Definition resume (now : string) (st : state) (disk : file) (k : pass) (r : reply)
  : option (state * file * progress) :=
  match k, r with
  | AwaitLatest fromLedger, LatestLedger (Fulfilled latest) =>
      let start := resolve_start fromLedger (lastScannedLedger st) latest in
      Some (st, disk, Suspended (AwaitEvents latest start None 0))
  | AwaitLatest _, LatestLedger (Rejected msg) =>
      Some (st, disk, Stopped (Thrown (FetchError msg)))
  | AwaitEvents latest start token processed, Events (Rejected msg) =>
      let '(c, start', token') := on_fetch_error msg latest start token in
      Some (end_of_body now st disk c latest start' token' processed
              (match c with Break => Some (FetchError msg) | _ => None end))
  | AwaitEvents latest start token processed, Events (Fulfilled ev) =>
      match process_events st processed (events ev) with
      | (st', Return processed') =>
          Some (end_of_body now st' disk Normal latest start (nextToken ev)
                  processed' None)
      | (st', Throw e) => Some (st', disk, Stopped (Thrown (Exception e)))
      end
  | _, _ => None
  end.

(** ** HTTP handlers on the registry *)

(** [now > Number(p.deadline)]. *)
Definition expired (now : Z) (p : obj) : bool :=
  number_gtb (Num now) (js_Number (obj_get p "deadline")).

(** The status derived when pools are listed; [now] is the current time
    in seconds. *)
Definition pool_status (now : Z) (p : obj) : completion string :=
  if truthy (obj_get p "finalized") then Return "finalized"
  else if expired now p then Return "expired"
  else
    raised ← js_BigInt (obj_get p "raised");
    goal ← js_BigInt (obj_get p "goal");
    Return (if goal <=? raised then "funded" else "active").

(** [{ ...p, status: ... }]. *)
Definition with_status (now : Z) (p : obj) : completion obj :=
  s ← pool_status now p;
  Return (obj_literal p [("status", JString s)]).

(** The predicate of the "actionable" filter. *)
Definition actionable (now : Z) (p : obj) : completion bool :=
  raised ← js_BigInt (obj_get p "raised");
  goal ← js_BigInt (obj_get p "goal");
  let finalized := truthy (obj_get p "finalized") in
  let funded := goal <=? raised in
  Return (if negb finalized && negb (expired now p) then true
          else if negb finalized && expired now p && (raised <? goal) then true
          else if negb finalized && funded then true
          else false).

Fixpoint filterM {A} (f : A -> completion bool) (l : list A) : completion (list A) :=
  match l with
  | [] => Return []
  | a :: l' =>
      b ← f a;
      r ← filterM f l';
      Return (if (b : bool) then a :: r else r)
  end.

(** The query parameters the listing reads; [JUndefined] when absent. *)
Record query := {
  q_resync : jsval;
  q_retried : jsval;
  q_all : jsval;
  q_filter : jsval
}.

(** [String(v) === '1']. *)
Definition is1 (v : jsval) : bool := String.eqb (js_String v) "1".

(** [String(e)] of an engine error; only its class is kept. *)
Definition error_name (e : js_error) : string :=
  match e with
  | TypeError => "TypeError"
  | RangeError => "RangeError"
  | SyntaxError => "SyntaxError"
  end.

(** An answer: its status and its body as it is sent, that is, as a
    client parses it. *)
Record response := {
  status : Z;
  body : jsval
}.

(** [res.status(status).json(v)]: the body is serialised before anything
    is sent, and [JSON.stringify] throws on a [bigint]. *)
Definition res_json (status : Z) (v : jsval) : completion response :=
  sent ← toJSON v;
  Return {| status := status; body := sent |}.

Definition pools_json (l : list obj) : jsval :=
  JObject [("pools", JArray (map JObject l))].

(** [try { ... } catch (e) { res.status(500).json({ error: String(e) }) }]. *)
Definition or_500 (c : completion response) : response :=
  match c with
  | Return r => r
  | Throw e => {| status := 500; body := JObject [("error", JString (error_name e))] |}
  end.

(** [GET /api/pools] before it awaits the pass: the cursor reset of
    [?resync=1] and the argument given to [hydrateFromEvents]. *)
Definition api_pools_begin (q : query) (st : state) : state * option Z :=
  (if is1 (q_resync q) then set_lastScannedLedger 0 st else st,
   if is1 (q_resync q) then Some 0 else None).

(** The end of the handler, from the "actionable" filter on. *)
Definition api_pools_send (q : query) (now : Z) (list : list obj) : completion response :=
  let mode := toLowerCase (js_String (js_or (q_filter q) (JString ""))) in
  let showAll := is1 (q_all q) || String.eqb mode "simple" in
  keep ← filterM (actionable now) list;
  res_json 200 (pools_json (if showAll then list else keep)).

Inductive handler :=
| Respond (r : response)
| AwaitSecondPass.      (* [await hydrateFromEvents(0)] on an empty list *)

(** [GET /api/pools] once the first pass has settled. *)
Definition api_pools_listing (q : query) (now : Z) (st : state) : handler :=
  match mapM (with_status now) (pool_values st) with
  | Throw e => Respond (or_500 (Throw e))
  | Return list =>
      if (length list =? 0)%nat && negb (is1 (q_retried q)) then AwaitSecondPass
      else Respond (or_500 (api_pools_send q now list))
  end.

(** [GET /api/pools] once the forced second pass has settled; the first
    list was empty. *)
Definition api_pools_retry (q : query) (now : Z) (st : state) : response :=
  or_500 (
    retry ← mapM (with_status now) (pool_values st);
    if (0 <? length retry)%nat then
      keep ← filterM (actionable now) retry;
      res_json 200 (pools_json (if is1 (q_all q) then retry else keep))
    else api_pools_send q now []).

(** [POST /api/pools/register]; [body] is [req.body]. *)
Definition register_pool (now : string) (body : jsval) (st : state) (disk : file)
  : state * file * response :=
  let pool := get_prop (js_or body (JObject [])) "pool" in
  if negb (truthy pool) then
    (st, disk, {| status := 400; body := JObject [("error", JString "missing pool")] |})
  else
    let id := js_String (coalesce (get_prop pool "id")
                           (coalesce (get_prop pool "pool_id") (get_prop pool "poolId"))) in
    if String.eqb id "" then
      (st, disk, {| status := 400; body := JObject [("error", JString "missing pool.id")] |})
    else
      let normalized :=
        obj_literal (spread pool)
          [ ("id", JNumber (js_Number (JString id)));
            ("goal", JString (js_String (get_prop pool "goal")));
            ("raised", JString (js_String
                         (coalesce (get_prop pool "raised") (JNumber (Num 0)))));
            ("deadline", JNumber (js_Number (get_prop pool "deadline")));
            ("finalized", js_Boolean (get_prop pool "finalized")) ] in
      let st' := pools_set (js_String (obj_get normalized "id")) normalized st in
      (st', saveState now st' disk,
       {| status := 200; body := JObject [("ok", JBool true)] |}).

(** One turn of the loop of [POST /api/pools/register-batch].  Reading
    [pool.id] throws when [pool] is [null] or [undefined]. *)
Definition register_batch_item (st : state) (pool : jsval) : completion (option state) :=
  if nullish pool then Throw TypeError
  else
    let id := js_String (coalesce (get_prop pool "id")
                           (coalesce (get_prop pool "pool_id") (get_prop pool "poolId"))) in
    if String.eqb id "" then Return None
    else
      Return (Some (pools_set id
        (obj_literal (spread pool)
           [ ("id", JNumber (js_Number (JString id)));
             ("goal", JString (js_String
                        (coalesce (get_prop pool "goal") (JString "0"))));
             ("raised", JString (js_String
                          (coalesce (get_prop pool "raised") (JString "0"))));
             ("deadline", JNumber (js_Number
                            (coalesce (get_prop pool "deadline") (JNumber (Num 0)))));
             ("finalized", js_Boolean (get_prop pool "finalized")) ]) st)).

Fixpoint register_batch_loop (st : state) (count : Z) (arr : list jsval)
  : state * completion Z :=
  match arr with
  | [] => (st, Return count)
  | pool :: arr' =>
      match register_batch_item st pool with
      | Return None => register_batch_loop st count arr'
      | Return (Some st') => register_batch_loop st' (count + 1) arr'
      | Throw e => (st, Throw e)
      end
  end.

(** [POST /api/pools/register-batch]; [body] is [req.body]. *)
Definition register_batch (now : string) (body : jsval) (st : state) (disk : file)
  : state * file * response :=
  match get_prop (js_or body (JObject [])) "pools" with
  | JArray arr =>
      match register_batch_loop st 0 arr with
      | (st', Return count) =>
          (st', saveState now st' disk,
           {| status := 200;
              body := JObject [("ok", JBool true); ("count", JNumber (Num count))] |})
      | (st', Throw e) => (st', disk, or_500 (Throw e))
      end
  | _ => (st, disk, {| status := 400; body := JObject [("error", JString "missing pools[]")] |})
  end.

(** ** The single-flight gate *)

(** How the promise of a pass settles. *)
Inductive outcome :=
| PassFulfilled
| PassRejected (e : logged_error).

(** The process between two turns of the event loop.  [hydratingPromise]
    holds the promise of the running pass (a number) and the point where
    that pass is suspended; [started] counts the passes started and names
    the next promise; [outcomes] lists the promises that have settled. *)
Record server := {
  app : state;
  disk : file;
  hydratingPromise : option (nat * pass);
  started : nat;
  outcomes : list (nat * outcome);
  console_errors : list logged_error
}.

(** [hydrateFromEvents(fromLedger)]: the new process state and the
    promise the caller waits on.  (The promise an [async] function hands
    out follows the one it returns, so a caller is identified with the
    promise of the pass.)  A new pass runs up to its first [await] before
    the call returns. *)
Definition hydrateFromEvents (fromLedger : option Z) (s : server) : server * nat :=
  match hydratingPromise s with
  | Some (p, _) => (s, p)
  | None =>
      let p := started s in
      ({| app := app s; disk := disk s;
          hydratingPromise := Some (p, AwaitLatest fromLedger);
          started := S (started s);
          outcomes := outcomes s;
          console_errors := console_errors s |}, p)
  end.

(** [try { ... } catch (e) { console.error(..) } finally { hydratingPromise
    = null }] once the [try] block is done: what [console.error] has
    received, and how the promise settles.  The [catch] logs and does not
    rethrow, so the promise is fulfilled either way. *)
Definition try_catch_finally (c : try_completion) : list logged_error * outcome :=
  match c with
  | Returned (Some e) => ([e], PassFulfilled)
  | Returned None => ([], PassFulfilled)
  | Thrown e => ([e], PassFulfilled)
  end.

(** The pending RPC call of the running pass settles. *)
Definition rpc_settles (now : string) (r : reply) (s : server) : server :=
  match hydratingPromise s with
  | None => s
  | Some (p, k) =>
      match resume now (app s) (disk s) k r with
      | None => s
      | Some (st', disk', Suspended k') =>
          {| app := st'; disk := disk';
             hydratingPromise := Some (p, k');
             started := started s;
             outcomes := outcomes s;
             console_errors := console_errors s |}
      | Some (st', disk', Stopped c) =>
          let '(logged, o) := try_catch_finally c in
          let released :=
            {| app := st'; disk := disk';
               hydratingPromise := None;
               started := started s;
               outcomes := outcomes s;
               console_errors := console_errors s ++ logged |} in
          {| app := app released; disk := disk released;
             hydratingPromise := hydratingPromise released;
             started := started released;
             outcomes := outcomes released ++ [(p, o)];
             console_errors := console_errors released |}
      end
  end.

(** What can happen in one turn of the event loop. *)
Inductive input :=
| CallHydrate (fromLedger : option Z)
| RpcSettles (now : string) (r : reply)
| CursorReset                                  (* [?resync=1] *)
| RegisterPool (now : string) (body : jsval)
| SaveTimer (now : string).

Definition step (s : server) (i : input) : server :=
  match i with
  | CallHydrate fromLedger => (hydrateFromEvents fromLedger s).1
  | RpcSettles now r => rpc_settles now r s
  | CursorReset =>
      {| app := set_lastScannedLedger 0 (app s); disk := disk s;
         hydratingPromise := hydratingPromise s; started := started s;
         outcomes := outcomes s; console_errors := console_errors s |}
  | RegisterPool now body =>
      let '(st', disk', _) := register_pool now body (app s) (disk s) in
      {| app := st'; disk := disk';
         hydratingPromise := hydratingPromise s; started := started s;
         outcomes := outcomes s; console_errors := console_errors s |}
  | SaveTimer now =>
      {| app := app s; disk := saveState now (app s) (disk s);
         hydratingPromise := hydratingPromise s; started := started s;
         outcomes := outcomes s; console_errors := console_errors s |}
  end.

Definition run (s : server) (inputs : list input) : server := fold_left step inputs s.

Fixpoint outcome_of (p : nat) (l : list (nat * outcome)) : option outcome :=
  match l with
  | [] => None
  | (p', o) :: l' => if (p' =? p)%nat then Some o else outcome_of p l'
  end.

(** What a caller holding promise [p] observes: [None] while the promise
    is pending, then how it settled. *)
Definition observed (s : server) (p : nat) : option outcome :=
  outcome_of p (outcomes s).

(** ** Vocabulary of the properties *)

#[global] Instance branch_eq_dec : EqDecision branch.
Proof. solve_decision. Defined.

(** The registry key of the pool an event is about, when one resolves. *)
Definition event_key (e : event) : option string :=
  if truthy (event_pid e) then Some (js_String (event_pid e)) else None.

(** The branch that handles an event. *)
Definition event_branch (e : event) : option branch :=
  match normalise_tag (event_tag e) with
  | Return tagNorm => Some (dispatch tagNorm)
  | Throw _ => None
  end.

(** The state once the loop body is done with an event, however it
    completes. *)
Definition after_event (st : state) (e : event) : state := (process_event st e).1.

Definition after_events (st : state) (es : list event) : state :=
  fold_left after_event es st.

(** [e] is a contribution event for the pool stored under [key]. *)
Definition contributes_to (key : string) (e : event) : bool :=
  bool_decide (event_key e = Some key)
  && bool_decide (event_branch e = Some Contributed).

(** [e] is a creation event for the pool stored under [key]. *)
Definition creates (key : string) (e : event) : bool :=
  bool_decide (event_key e = Some key)
  && bool_decide (event_branch e = Some PoolCreated).

(** The delta a contribution event carries. *)
Definition delta (e : event) : Z := extractAmount (event_native e).

(** The sum of the deltas of the contribution events for [key] in [es]. *)
Definition sum_deltas (key : string) (es : list event) : Z :=
  fold_right (fun e acc => if contributes_to key e then delta e + acc else acc) 0 es.

(** Every event of [es] about the pool under [key] is a contribution. *)
Definition only_contributions (key : string) (es : list event) : bool :=
  forallb (fun e => negb (bool_decide (event_key e = Some key))
                    || contributes_to key e) es.

(** The payload has no [raised] field, or one that is zero. *)
Definition raised_absent_or_zero (native : jsval) : bool :=
  match get_prop native "raised" with
  | JUndefined | JNull => true
  | JNumber (Num z) | JBigInt z => z =? 0
  | JString s => String.eqb s "0"
  | _ => false
  end.

(** What the creation branch reads as the [raised] of the payload. *)
Definition payload_raised (native : jsval) : completion Z :=
  js_BigInt (JString (js_String (coalesce (get_prop native "raised") (JNumber (Num 0))))).

(** A value that is a positive integer, as a number. *)
Definition positive_integer (v : jsval) : option number :=
  match v with
  | JNumber (Num z) | JBigInt z => if 0 <? z then Some (Num z) else None
  | _ => None
  end.

(** A value that [Number(..)] converts to a finite number above zero,
    as that number. *)
Definition numeric_id (v : jsval) : option number :=
  let n := js_Number v in
  if isFinite n && number_gtb n (Num 0) then Some n else None.

Fixpoint first_some {A B} (f : A -> option B) (l : list A) : option B :=
  match l with
  | [] => None
  | a :: l' =>
      match f a with
      | Some b => Some b
      | None => first_some f l'
      end
  end.

(** Pool-id resolution in the order: id fields of the payload, second
    topic, all topics; [ok] says which values count as an id. *)
Definition resolve_id (ok : jsval -> option number) (native : jsval)
    (topics : list scv) : option number :=
  match first_some (fun k => ok (get_prop native k)) id_fields with
  | Some n => Some n
  | None =>
      match topics !! 1%nat ≫= (fun t => ok (scvToNativeSafe t)) with
      | Some n => Some n
      | None => first_some (fun t => ok (scvToNativeSafe t)) topics
      end
  end.

Definition id_value (r : option number) : jsval :=
  match r with
  | Some n => JNumber n
  | None => JNull
  end.

(** Values that survive [JSON.stringify] followed by [JSON.parse]
    unchanged: no [undefined], [NaN], infinity or [bigint] anywhere. *)
Fixpoint json_plain (v : jsval) : bool :=
  match v with
  | JUndefined => false
  | JNull => true
  | JBool _ => true
  | JNumber (NaN | Inf _) => false
  | JNumber _ => true
  | JBigInt _ => false
  | JString _ => true
  | JArray items => forallb json_plain items
  | JObject props =>
      (fix each (l : obj) : bool :=
         match l with
         | [] => true
         | (_, x) :: l' => json_plain x && each l'
         end) props
  end.

(** Every pool is stored under the key [String(p.id)] and holds only
    values that JSON represents. *)
Definition restorable (st : state) : bool :=
  forallb (fun kp : string * obj =>
             String.eqb (js_String (obj_get kp.2 "id")) kp.1
             && json_plain (JObject kp.2))
    (map_to_list (pools st)).

(** Induction on values, with the elements of arrays and the fields of
    objects as premises. *)
Definition jsval_nested_ind (P : jsval -> Prop)
    (Hundefined : P JUndefined) (Hnull : P JNull)
    (Hbool : ∀ b, P (JBool b)) (Hnumber : ∀ n, P (JNumber n))
    (Hbigint : ∀ z, P (JBigInt z)) (Hstring : ∀ s, P (JString s))
    (Harray : ∀ items, Forall P items → P (JArray items))
    (Hobject : ∀ props, Forall (fun kv => P kv.2) props → P (JObject props))
  : ∀ v, P v :=
  fix go (v : jsval) : P v :=
    match v with
    | JUndefined => Hundefined
    | JNull => Hnull
    | JBool b => Hbool b
    | JNumber n => Hnumber n
    | JBigInt z => Hbigint z
    | JString s => Hstring s
    | JArray items =>
        Harray items
          ((fix all (l : list jsval) : Forall P l :=
              match l with
              | [] => Forall_nil_2 P
              | x :: l' => Forall_cons_2 P x l' (go x) (all l')
              end) items)
    | JObject props =>
        Hobject props
          ((fix all (l : obj) : Forall (fun kv => P kv.2) l :=
              match l with
              | [] => Forall_nil_2 _
              | kv :: l' => Forall_cons_2 _ kv l' (go kv.2) (all l')
              end) props)
    end.


(** The range [min - max] a fetch error reports: [Number(m[1])] and
    [Number(m[2])] of the match. *)
Definition reported_range (msg : string) : option (Z * Z) :=
  '(lo, hi) ← re_ledger_range msg;
  Some (default 0 (parse_digits lo), default 0 (parse_digits hi)).

(** The process right after start-up, with the registry restored from
    disk and no pass running. *)
Definition started_with (st : state) (d : file) : server :=
  {| app := st; disk := d; hydratingPromise := None;
     started := 0; outcomes := []; console_errors := [] |}.

Definition reachable (s : server) : Prop :=
  ∃ st d inputs, s = run (started_with st d) inputs.

(** The promise of the running pass. *)
Definition gate (s : server) : option nat := fst <$> hydratingPromise s.

(** What holds between the gate, the pass counter and the settled
    promises in every state the process can reach: a settled promise
    belongs to a pass that was started; a started pass whose promise is
    pending is the one holding the gate; the pass holding the gate is
    pending. *)
Definition gate_invariant (s : server) : Prop :=
  (∀ q, is_Some (observed s q) → (q < started s)%nat)
  ∧ (∀ q, (q < started s)%nat → observed s q = None →
       ∃ k, hydratingPromise s = Some (q, k))
  ∧ (∀ q k, hydratingPromise s = Some (q, k) →
       (q < started s)%nat ∧ observed s q = None).

(** ** Sample events and requests *)

(** An event as the contract publishes it: the topics are the tag and
    the pool id, the payload is the data. *)
Definition sample_event (tag : string) (pid : Z) (payload : jsval) (l : Z) : event :=
  {| value := ScvOf payload;
     topics := [ScvOf (JString tag); ScvOf (JNumber (Num pid))];
     ledger := Some l;
     ledgerSequence := None |}.

(** A contribution whose topics carry no pool id. *)
Definition anonymous_event (l : Z) : event :=
  {| value := ScvOf (JBigInt 5);
     topics := [ScvOf (JString "ctr")];
     ledger := Some l;
     ledgerSequence := None |}.

Definition sample_creation : event :=
  sample_event "pool_created" 1
    (JObject [("goal", JBigInt 1000); ("deadline", JBigInt 2000000000)]) 12.

(** Goal 1000, then contributions of 600 and of 400. *)
Definition funded_story : list event :=
  [ sample_creation;
    sample_event "ctr" 1 (JBigInt 600) 13;
    sample_event "ctr" 1 (JBigInt 400) 14 ].

(** A batch registration of one record, whose id is written "007". *)
Definition batch_007 : jsval :=
  JObject [("pools", JArray [JObject [("id", JString "007")]])].

(** A process in which a first pass has fetched the tip and waits for
    its first page. *)
Definition waiting_for_page : server :=
  run (started_with initial_state NoFile)
    [ CallHydrate None; RpcSettles "t0" (LatestLedger (Fulfilled 200000)) ].

(** ** Vocabulary of the further properties *)

(** The first entry of a list of amounts that is not zero, or zero. *)
Fixpoint first_nonzero (l : list Z) : Z :=
  match l with
  | [] => 0
  | z :: l' => if negb (z =? 0) then z else first_nonzero l'
  end.

(** [e] is a finalize event for the pool stored under [key]. *)
Definition finalizes (key : string) (e : event) : bool :=
  bool_decide (event_key e = Some key)
  && bool_decide (event_branch e = Some Finalized).

(** [e] is an event with an unrecognised tag for the pool stored under
    [key]. *)
Definition falls_back (key : string) (e : event) : bool :=
  bool_decide (event_key e = Some key)
  && bool_decide (event_branch e = Some Fallback).

(** What the contribution branch reads as the [raised] of a stored pool:
    [BigInt(p.raised ?? '0')]. *)
Definition stored_raised (p : obj) : completion Z :=
  js_BigInt (coalesce (obj_get p "raised") (JString "0")).

(** Every pool of the registry is stored under [String(pool.id)]. *)
Definition keyed (st : state) : Prop :=
  ∀ k p, pools st !! k = Some p → js_String (obj_get p "id") = k.

(** [e] is an event for which a pool id resolves. *)
Definition resolved (e : event) : bool := truthy (event_pid e).

(** The [startLedger] of the [getEvents] call the running pass waits
    on, if it waits on one. *)
Definition pending_start (s : server) : option Z :=
  match hydratingPromise s with
  | Some (_, AwaitEvents _ start _ _) => Some start
  | _ => None
  end.



(** A [bigint] occurs somewhere in the value. *)
Fixpoint has_bigint (v : jsval) : bool :=
  match v with
  | JBigInt _ => true
  | JArray items => existsb has_bigint items
  | JObject props =>
      (fix each (l : obj) : bool :=
         match l with
         | [] => false
         | (_, x) :: l' => has_bigint x || each l'
         end) props
  | _ => false
  end.

(** Every pool of the registry is stored under [String(pool.id)] and
    holds only values JSON represents. *)
Definition plain_and_keyed (st : state) : Prop :=
  ∀ k p, pools st !! k = Some p →
         js_String (obj_get p "id") = k ∧ json_plain (JObject p) = true.

(** [BigInt(p.raised)] and [BigInt(p.goal)] both succeed. *)
Definition amounts_parse (p : obj) : Prop :=
  ∃ r g, js_BigInt (obj_get p "raised") = Return r
         ∧ js_BigInt (obj_get p "goal") = Return g.

(** [!p.finalized]. *)
Definition unfinalized (p : obj) : bool := negb (truthy (obj_get p "finalized")).

(** The [showAll] of [GET /api/pools]: [?all=1] or [?filter=simple]. *)
Definition shows_all (q : query) : bool :=
  is1 (q_all q)
  || String.eqb (toLowerCase (js_String (js_or (q_filter q) (JString "")))) "simple".

(** ** Further handlers *)

(** [GET /api/pools/:id] once the pass it awaits has settled; [id] is
    [req.params.id].  The pool is looked up under [String(Number(id))].
    [res.json(p)] serialises the pool and throws on a [bigint], which the
    [catch] answers with 500; the body of a 200 answer is what is sent. *)
Definition api_pool_by_id (id : string) (st : state) : response :=
  let poolId := number_to_string (StringToNumber id) in
  or_500 (
    match pools st !! poolId with
    | None =>
        Return {| status := 404; body := JObject [("error", JString "Pool not found")] |}
    | Some p =>
        res_json 200 (JObject p)
    end).

(** The id [POST /api/pools/register] and [register-batch] read from a
    record: [String(pool.id ?? pool.pool_id ?? pool.poolId)]. *)
Definition record_id (pool : jsval) : string :=
  js_String (coalesce (get_prop pool "id")
               (coalesce (get_prop pool "pool_id") (get_prop pool "poolId"))).

(** The record has an id: [String(pool.id ?? ...)] is not empty. *)
Definition has_id (pool : jsval) : bool := negb (String.eqb (record_id pool) "").

(** The content of [tx_log.json]. *)
Inductive txlog :=
| TxAbsent                 (* the file does not exist *)
| TxUnparsable             (* reading or parsing it throws *)
| TxJson (data : jsval).   (* what [JSON.parse] returns *)

(** [appendTxLog(entry)]: the new content of the file.  A failure to
    read the file is swallowed and the log starts afresh; [arr.push] on
    parsed content that is not an array throws, and so does
    [JSON.stringify] on a [bigint]. *)
Definition appendTxLog (entry : jsval) (log : txlog) : completion txlog :=
  arr ← match log with
        | TxAbsent | TxUnparsable => Return []
        | TxJson (JArray items) => Return items
        | TxJson _ => Throw TypeError
        end;
  written ← toJSON (JArray (arr ++ [entry])%list);
  Return (TxJson written).

(** [{ timestamp, operation, details, status, error: error || null }]. *)
Definition tx_entry (timestamp : string) (body : jsval) : jsval :=
  JObject [ ("timestamp", JString timestamp);
            ("operation", get_prop body "operation");
            ("details", get_prop body "details");
            ("status", get_prop body "status");
            ("error", js_or (get_prop body "error") JNull) ].

(** [POST /api/log-transaction]; [body] is [req.body] and [timestamp] is
    [new Date().toISOString()].  Destructuring a body that is [null] or
    [undefined] throws; the handler has no [try]. *)
Definition api_log_transaction (timestamp : string) (body : jsval) (log : txlog)
  : completion (txlog * response) :=
  if nullish body then Throw TypeError
  else
    log' ← appendTxLog (tx_entry timestamp body) log;
    Return (log', {| status := 200;
                     body := JObject [("success", JBool true); ("logged", JBool true)] |}).

(** * Properties *)

(** ** Objects *)

Lemma obj_get_set_eq k v (o : obj) : obj_get (obj_set k v o) k = v.
Proof.
  induction o as [|[k' v'] o IH]; simpl.
  - by rewrite String.eqb_refl.
  - destruct (String.eqb k' k) eqn:E; simpl.
    + by rewrite String.eqb_refl.
    + by rewrite E.
Qed.

Lemma obj_get_set_ne k k' v (o : obj) :
  k ≠ k' → obj_get (obj_set k' v o) k = obj_get o k.
Proof.
  intros Hne. induction o as [|[k'' v''] o IH]; simpl.
  - destruct (String.eqb_spec k' k); [congruence | done].
  - destruct (String.eqb_spec k'' k') as [->|Hk]; simpl.
    + destruct (String.eqb_spec k' k); [congruence | done].
    + destruct (String.eqb_spec k'' k); [done | apply IH].
Qed.

(** ** Decimal numerals *)

Lemma string_of_uint_no_space d :
  Forall (fun c => is_space c = false) (list_ascii_of_string (NilEmpty.string_of_uint d)).
Proof. induction d; simpl; constructor; done. Qed.

Lemma string_of_Z_no_space z :
  Forall (fun c => is_space c = false) (list_ascii_of_string (string_of_Z z)).
Proof.
  unfold string_of_Z.
  destruct (Z.to_int z) as [d|d]; simpl.
  - destruct d; try apply (string_of_uint_no_space (_ _)). by repeat constructor.
  - constructor; [done|].
    destruct d; try apply (string_of_uint_no_space (_ _)). by repeat constructor.
Qed.

Lemma skip_spaces_id s :
  Forall (fun c => is_space c = false) (list_ascii_of_string s) → skip_spaces s = s.
Proof. destruct s as [|c s]; [done|]. simpl. intros [-> _]%Forall_cons. done. Qed.

Lemma trim_id s :
  Forall (fun c => is_space c = false) (list_ascii_of_string s) → trim s = s.
Proof.
  intros H. unfold trim, string_rev.
  rewrite (skip_spaces_id s H), skip_spaces_id.
  - by rewrite list_ascii_of_string_of_list_ascii, rev_involutive,
      string_of_list_ascii_of_string.
  - rewrite list_ascii_of_string_of_list_ascii. by apply Forall_rev.
Qed.

Lemma parse_digits_to_uint p :
  parse_digits (NilEmpty.string_of_uint (Pos.to_uint p)) = Some (Z.pos p).
Proof.
  unfold parse_digits.
  pose proof (DecimalPos.Unsigned.to_uint_nonnil p) as Hn.
  pose proof (NilZero.usu _ Hn) as H.
  unfold NilZero.string_of_uint in H.
  destruct (Pos.to_uint p) eqn:E; [done|..]; rewrite H; simpl;
    unfold Z.of_uint; rewrite <- E, DecimalPos.Unsigned.of_to; done.
Qed.

Lemma parse_signed_string_of_Z z : parse_signed (string_of_Z z) = Some z.
Proof.
  unfold string_of_Z. destruct z as [|p|p]; [done|..]; simpl.
  - pose proof (parse_digits_to_uint p) as H.
    pose proof (DecimalPos.Unsigned.to_uint_nonnil p) as Hn.
    destruct (Pos.to_uint p); [done|..]; exact H.
  - pose proof (parse_digits_to_uint p) as H.
    pose proof (DecimalPos.Unsigned.to_uint_nonnil p) as Hn.
    destruct (Pos.to_uint p); [done|..]; simpl in *; by rewrite H.
Qed.

Lemma string_of_Z_nonempty z : string_of_Z z ≠ "".
Proof.
  intros H. pose proof (parse_signed_string_of_Z z) as Hp. by rewrite H in Hp.
Qed.

(** Reading back the decimal numeral of an integer gives the integer. *)
Lemma js_BigInt_string_of_Z z : js_BigInt (JString (string_of_Z z)) = Return z.
Proof.
  simpl. unfold StringToBigInt.
  rewrite (trim_id _ (string_of_Z_no_space z)), parse_signed_string_of_Z.
  pose proof (string_of_Z_nonempty z) as H%String.eqb_neq. by rewrite H.
Qed.

(** ** The scan cursor *)

Ltac inv_completion :=
  repeat match goal with
  | H : Return _ = Return _ |- _ => injection H as H; subst
  | H : Throw _ = Return _ |- _ => discriminate H
  | H : Return _ = Throw _ |- _ => discriminate H
  | H : mbind _ ?c = Return _ |- _ =>
      let E := fresh "E" in destruct c eqn:E; simpl in H
  end.

(** Every path through the dispatch. *)
Ltac reconcile_cases st pid :=
  unfold reconcile;
  destruct (dispatch _);
  [ destruct (pendingRaised st !! js_String pid) as [?buff|];
    [ destruct (negb (_ =? 0)); [destruct (js_BigInt _)|] |]
  | destruct (pools st !! js_String pid); [destruct (js_BigInt _)|]
  | destruct (pools st !! js_String pid)
  | ];
  simpl.

Lemma reconcile_cursor st tagNorm pid native :
  lastScannedLedger (reconcile st tagNorm pid native).1 = lastScannedLedger st.
Proof. reconcile_cases st pid; done. Qed.

(** The loop body, for an event whose id resolves and whose tag is a
    string. *)
Lemma process_event_dispatch st e t :
  truthy (event_pid e) = true →
  normalise_tag (event_tag e) = Return t →
  process_event st e
  = match reconcile st t (event_pid e) (event_native e) with
    | (st', Return _) =>
        (set_lastScannedLedger (Z.max (lastScannedLedger st) (event_ledger e)) st',
         Return true)
    | (st', Throw err) => (st', Throw err)
    end.
Proof.
  intros Hp Ht. unfold process_event. rewrite Hp, Ht. simpl.
  pose proof (reconcile_cursor st t (event_pid e) (event_native e)) as Hc.
  destruct (reconcile st t (event_pid e) (event_native e)) as [st' [u|err]]; [|done].
  simpl in Hc. by rewrite Hc.
Qed.

(** What the loop body leaves, field by field: either nothing has
    changed, or the dispatch has run. *)
Lemma after_event_cases st e :
  after_event st e = st
  ∨ ∃ t, truthy (event_pid e) = true
         ∧ normalise_tag (event_tag e) = Return t
         ∧ pools (after_event st e)
           = pools (reconcile st t (event_pid e) (event_native e)).1
         ∧ order (after_event st e)
           = order (reconcile st t (event_pid e) (event_native e)).1
         ∧ pendingRaised (after_event st e)
           = pendingRaised (reconcile st t (event_pid e) (event_native e)).1.
Proof.
  unfold after_event.
  destruct (truthy (event_pid e)) eqn:Hp.
  2:{ left. unfold process_event. by rewrite Hp. }
  destruct (normalise_tag (event_tag e)) as [t|err] eqn:Ht.
  2:{ left. unfold process_event. by rewrite Hp, Ht. }
  right. exists t. rewrite (process_event_dispatch _ _ _ Hp Ht).
  by destruct (reconcile st t (event_pid e) (event_native e)) as [st' [u|err]].
Qed.

Lemma process_event_cursor st e st' :
  process_event st e = (st', Return true) →
  lastScannedLedger st' = Z.max (lastScannedLedger st) (event_ledger e).
Proof.
  unfold process_event.
  destruct (negb (truthy (event_pid e))); [done|].
  destruct (normalise_tag (event_tag e)) as [t|]; [|done].
  pose proof (reconcile_cursor st t (event_pid e) (event_native e)) as Hc.
  destruct (reconcile st t (event_pid e) (event_native e)) as [st1 [u|err]]; [|done].
  intros [= <-]. simpl in *. by rewrite Hc.
Qed.

Lemma process_event_throws_cursor st e st' err :
  process_event st e = (st', Throw err) →
  lastScannedLedger st' = lastScannedLedger st.
Proof.
  unfold process_event.
  destruct (negb (truthy (event_pid e))); [done|].
  destruct (normalise_tag (event_tag e)) as [t|]; [|by intros [= <- _]].
  pose proof (reconcile_cursor st t (event_pid e) (event_native e)) as Hc.
  destruct (reconcile st t (event_pid e) (event_native e)) as [st1 [u|err1]]; [done|].
  by intros [= <- _].
Qed.

Lemma process_event_skips st e st' :
  process_event st e = (st', Return false) → st' = st ∧ truthy (event_pid e) = false.
Proof.
  unfold process_event.
  destruct (truthy (event_pid e)); simpl; [|by intros [= <-]].
  destruct (normalise_tag (event_tag e)) as [t|]; [|done].
  by destruct (reconcile st t (event_pid e) (event_native e)) as [st1 [u|err1]].
Qed.

Lemma after_event_cursor st e :
  lastScannedLedger st ≤ lastScannedLedger (after_event st e).
Proof.
  unfold after_event.
  destruct (process_event st e) as [st' [[|]|err]] eqn:E; simpl.
  - apply process_event_cursor in E. lia.
  - apply process_event_skips in E as [-> _]. lia.
  - apply process_event_throws_cursor in E. lia.
Qed.

Lemma process_events_cursor es : ∀ st n,
  lastScannedLedger st ≤ lastScannedLedger (process_events st n es).1.
Proof.
  induction es as [|e es IH]; intros st n; simpl; [lia|].
  pose proof (after_event_cursor st e) as He. unfold after_event in He.
  destruct (process_event st e) as [st' [[|]|err]]; simpl in *; [| |lia].
  - specialize (IH st' (S n)). lia.
  - specialize (IH st' n). lia.
Qed.

Lemma resume_cursor now st d k r st' d' pr :
  resume now st d k r = Some (st', d', pr) →
  lastScannedLedger st ≤ lastScannedLedger st'.
Proof.
  unfold resume, end_of_body. intros H.
  destruct k as [fromLedger|latest start token processed], r as [[a|msg]|[ev|msg]];
    simplify_eq; try lia.
  - pose proof (process_events_cursor (events ev) st processed) as Hle.
    destruct (process_events st processed (events ev)) as [st1 [n|err]];
      repeat case_match; simplify_eq; simpl in *; lia.
  - destruct (on_fetch_error msg latest start token) as [[c start'] token'].
    repeat case_match; simplify_eq; lia.
Qed.

(** ** Events about other pools *)

Lemma reconcile_other st tagNorm pid native k :
  k ≠ js_String pid →
  pools (reconcile st tagNorm pid native).1 !! k = pools st !! k
  ∧ pendingRaised (reconcile st tagNorm pid native).1 !! k = pendingRaised st !! k.
Proof.
  intros Hne. reconcile_cases st pid;
    rewrite ?lookup_insert_ne, ?lookup_delete_ne by done; done.
Qed.

Lemma event_key_None st e :
  event_key e = None → process_event st e = (st, Return false).
Proof.
  unfold event_key, process_event. by destruct (truthy (event_pid e)).
Qed.

Lemma after_event_other st e k :
  event_key e ≠ Some k →
  pools (after_event st e) !! k = pools st !! k
  ∧ pendingRaised (after_event st e) !! k = pendingRaised st !! k.
Proof.
  intros Hk.
  destruct (after_event_cases st e) as [->|(t & Hp & _ & -> & _ & ->)]; [done|].
  apply reconcile_other. unfold event_key in Hk. rewrite Hp in Hk. congruence.
Qed.

Lemma after_events_other es : ∀ st k,
  Forall (fun e => event_key e ≠ Some k) es →
  pools (after_events st es) !! k = pools st !! k
  ∧ pendingRaised (after_events st es) !! k = pendingRaised st !! k.
Proof.
  induction es as [|e es IH]; intros st k Hes; [done|].
  apply Forall_cons in Hes as [He Hes].
  change (after_events st (e :: es)) with (after_events (after_event st e) es).
  destruct (IH (after_event st e) k Hes) as [-> ->].
  by apply after_event_other.
Qed.

(** ** Orphan contributions *)

(** The dispatch of an event of a given kind for the pool under [key]. *)
Lemma after_event_branch st e key b :
  event_key e = Some key →
  event_branch e = Some b →
  ∃ t, dispatch t = b
       ∧ js_String (event_pid e) = key
       ∧ process_event st e
         = match reconcile st t (event_pid e) (event_native e) with
           | (st', Return _) =>
               (set_lastScannedLedger (Z.max (lastScannedLedger st) (event_ledger e)) st',
                Return true)
           | (st', Throw err) => (st', Throw err)
           end.
Proof.
  unfold event_key, event_branch. intros Hk Hb.
  destruct (truthy (event_pid e)) eqn:Hp; [simplify_eq|done].
  destruct (normalise_tag (event_tag e)) as [t|] eqn:Ht; [simplify_eq|done].
  exists t. split; [done|]. split; [done|]. by apply process_event_dispatch.
Qed.

Section orphans.
Context (key : string).

(** A contribution for a pool that is not in the registry is added to
    its entry of the orphan buffer. *)
Lemma contribution_buffered st e :
  contributes_to key e = true →
  pools st !! key = None →
  pools (after_event st e) !! key = None
  ∧ pendingRaised (after_event st e) !! key
    = Some (default 0 (pendingRaised st !! key) + delta e).
Proof.
  intros [Hk Hb]%andb_prop Hp.
  apply bool_decide_eq_true in Hk, Hb.
  destruct (after_event_branch st e key _ Hk Hb) as (t & Hd & Hkey & Hpe).
  unfold after_event. rewrite Hpe. unfold reconcile. rewrite Hd, Hkey, Hp. simpl.
  by rewrite lookup_insert_eq.
Qed.

Lemma orphans_accumulate es : ∀ st,
  pools st !! key = None →
  forallb (fun e => negb (bool_decide (event_key e = Some key))
                    || contributes_to key e) es = true →
  pools (after_events st es) !! key = None
  ∧ default 0 (pendingRaised (after_events st es) !! key)
    = default 0 (pendingRaised st !! key) + sum_deltas key es.
Proof.
  induction es as [|e es IH]; intros st Hp Hes; simpl in *.
  - split; [done | lia].
  - apply andb_prop in Hes as [He Hes].
    destruct (contributes_to key e) eqn:Hc.
    + destruct (contribution_buffered st e Hc Hp) as [Hp' Hb'].
      destruct (IH _ Hp' Hes) as [-> ->]. rewrite Hb'. simpl. split; [done | lia].
    + rewrite orb_false_r in He. apply negb_true_iff, bool_decide_eq_false in He.
      destruct (after_event_other st e key He) as [Hp' Hb'].
      rewrite <- Hp' in Hp. destruct (IH _ Hp Hes) as [-> ->].
      by rewrite Hb'.
Qed.

End orphans.

Lemma created_pool_raised pid native :
  obj_get (created_pool pid native) "raised"
  = JString (js_String (coalesce (get_prop native "raised") (JNumber (Num 0)))).
Proof.
  unfold created_pool, obj_literal. simpl.
  rewrite !(obj_get_set_ne "raised") by done.
  apply obj_get_set_eq.
Qed.

Lemma raised_absent_or_zero_string native :
  raised_absent_or_zero native = true →
  js_String (coalesce (get_prop native "raised") (JNumber (Num 0))) = "0".
Proof.
  unfold raised_absent_or_zero.
  destruct (get_prop native "raised") as [| |b|[|z|m k|neg]|z|s|l|o]; try done; simpl.
  - by intros ->%Z.eqb_eq.
  - by intros ->%Z.eqb_eq.
  - by intros ->%String.eqb_eq.
Qed.

(** What the creation branch leaves in the registry and in the orphan
    buffer, by the state of the buffer.  The pool is stored before the
    log line that may throw, so this holds however the branch completes;
    when the payload's [raised] cannot be added to a buffered amount,
    nothing has been written. *)
Lemma creation_applied st c key :
  creates key c = true →
  let o := created_pool (event_pid c) (event_native c) in
  match pendingRaised st !! key with
  | Some buff =>
      if negb (buff =? 0) then
        match js_BigInt (coalesce (obj_get o "raised") (JString "0")) with
        | Return r =>
            pools (after_event st c)
            = <[key := obj_set "raised" (JString (string_of_Z (r + buff))) o]> (pools st)
            ∧ pendingRaised (after_event st c) = delete key (pendingRaised st)
        | Throw err => process_event st c = (st, Throw err)
        end
      else pools (after_event st c) = <[key := o]> (pools st)
           ∧ pendingRaised (after_event st c) = pendingRaised st
  | None => pools (after_event st c) = <[key := o]> (pools st)
            ∧ pendingRaised (after_event st c) = pendingRaised st
  end.
Proof.
  intros [Hk Hb]%andb_prop o.
  apply bool_decide_eq_true in Hk, Hb.
  destruct (after_event_branch st c key _ Hk Hb) as (t & Hd & Hkey & Hpe).
  unfold after_event. rewrite Hpe. unfold reconcile. rewrite Hd, Hkey. fold o.
  destruct (pendingRaised st !! key) as [buff|].
  - destruct (negb (buff =? 0)).
    + destruct (js_BigInt _) as [r|err]; [|done].
      by destruct (log_created _).
    + by destruct (log_created _).
  - by destruct (log_created _).
Qed.

(** C1. Contributions that arrive before their pool are summed in the
    orphan buffer, and the creation event (with no [raised] of its own, or
    zero) stores exactly that sum, whatever the signs of the deltas.
    Events about other pools may be interleaved. *)
Theorem C1_orphan_convergence (st : state) (key : string) (es : list event) (c : event) :
  pools st !! key = None →
  pendingRaised st !! key = None →
  only_contributions key es = true →
  creates key c = true →
  raised_absent_or_zero (event_native c) = true →
  ∃ p, pools (after_event (after_events st es) c) !! key = Some p
       ∧ obj_get p "raised" = JString (string_of_Z (sum_deltas key es))
       ∧ js_BigInt (obj_get p "raised") = Return (sum_deltas key es).
Proof.
  intros Hp Hb Hes Hc Hz.
  cut (∃ p, pools (after_event (after_events st es) c) !! key = Some p
            ∧ obj_get p "raised" = JString (string_of_Z (sum_deltas key es))).
  { intros (p & Hk & Hr). exists p. split; [done|]. split; [done|].
    rewrite Hr. apply js_BigInt_string_of_Z. }
  destruct (orphans_accumulate key es st Hp Hes) as [_ Hsum].
  rewrite Hb in Hsum. simpl in Hsum. rewrite Z.add_0_l in Hsum.
  pose proof (creation_applied (after_events st es) c key Hc) as Happ.
  simpl in Happ.
  rewrite created_pool_raised, (raised_absent_or_zero_string _ Hz) in Happ.
  change (js_BigInt (coalesce (JString "0") (JString "0"))) with (@Return Z 0) in Happ.
  destruct (pendingRaised (after_events st es) !! key) as [buff|] eqn:E;
    simpl in Hsum; subst.
  - destruct (Z.eqb_spec (sum_deltas key es) 0) as [Hz0|Hnz]; simpl in Happ;
      destruct Happ as [-> _]; rewrite lookup_insert_eq.
    + rewrite Hz0. eexists; split; [done|].
      rewrite created_pool_raised, (raised_absent_or_zero_string _ Hz). done.
    + eexists; split; [done|]. by rewrite obj_get_set_eq.
  - destruct Happ as [-> _]. rewrite lookup_insert_eq. eexists; split; [done|].
    rewrite created_pool_raised, (raised_absent_or_zero_string _ Hz).
    by rewrite <- Hsum.
Qed.

Lemma C1_orphan_convergence_witness :
  let es := [ sample_event "ctr" 1 (JBigInt 600) 10;
              sample_event "ctr" 2 (JBigInt 7) 10;
              sample_event "contributed" 1 (JObject [("amount", JBigInt (-100))]) 11 ] in
  ∃ p, pools (after_event (after_events initial_state es) sample_creation) !! "1" = Some p
       ∧ obj_get p "raised" = JString (string_of_Z (sum_deltas "1" es))
       ∧ js_BigInt (obj_get p "raised") = Return (sum_deltas "1" es).
Proof.
  intros es.
  apply (C1_orphan_convergence initial_state "1" es sample_creation);
    vm_compute; reflexivity.
Defined.

(** C3, as stated, fails when the buffered deltas cancel out: after
    +5 and -5 the entry holds zero, and the creation event leaves it in
    the buffer. *)
Lemma C3_zero_entry_stays :
  let st := after_events initial_state
              [ sample_event "ctr" 1 (JBigInt 5) 10;
                sample_event "ctr" 1 (JBigInt (-5)) 11 ] in
  pendingRaised st !! "1" = Some 0
  ∧ creates "1" sample_creation = true
  ∧ pendingRaised (after_event st sample_creation) !! "1" = Some 0.
Proof. vm_compute. done. Qed.

(** It also fails when the entry is not zero and the [raised] of the
    creation payload is not an integer: the addition throws before the
    entry is deleted and before the pool is stored. *)
Lemma orphan_entry_kept_on_throw :
  let st := after_events initial_state [sample_event "ctr" 1 (JBigInt 5) 10] in
  let c := sample_event "pool_created" 1 (JObject [("raised", JString "n/a")]) 12 in
  pendingRaised st !! "1" = Some 5
  ∧ creates "1" c = true
  ∧ process_event st c = (st, Throw SyntaxError)
  ∧ pendingRaised (after_event st c) !! "1" = Some 5
  ∧ pools (after_event st c) !! "1" = None.
Proof. vm_compute. done. Qed.

(** C3, amended. What the creation event does to the orphan entry of its
    pool.  An entry that is not zero is consumed when the payload's
    [raised] reads as an integer: it is added to that [raised], the pool
    is stored and the entry is removed from the buffer.  When the
    payload's [raised] does not read as an integer the addition throws:
    the entry stays in the buffer, no pool is stored and the event is
    not completed.  An entry that is zero stays in the buffer and the
    pool is stored as built. *)
Theorem C3_orphan_entry_consumed (st : state) (key : string) (c : event) (buff : Z) :
  pendingRaised st !! key = Some buff →
  creates key c = true →
  (buff ≠ 0 →
     match payload_raised (event_native c) with
     | Return r =>
         pendingRaised (after_event st c) !! key = None
         ∧ ∃ p, pools (after_event st c) !! key = Some p
                ∧ obj_get p "raised" = JString (string_of_Z (r + buff))
     | Throw err =>
         process_event st c = (st, Throw err)
         ∧ after_event st c = st
     end)
  ∧ (buff = 0 →
     pendingRaised (after_event st c) !! key = Some 0
     ∧ pools (after_event st c) !! key
       = Some (created_pool (event_pid c) (event_native c))).
Proof.
  intros Hb Hc.
  pose proof (creation_applied st c key Hc) as Happ. simpl in Happ.
  rewrite Hb, created_pool_raised in Happ.
  change (coalesce (JString ?s) (JString "0")) with (JString s) in Happ.
  fold (payload_raised (event_native c)) in Happ.
  split.
  - intros Hnz. apply Z.eqb_neq in Hnz. rewrite Hnz in Happ. simpl in Happ.
    destruct (payload_raised (event_native c)) as [r|err].
    + destruct Happ as [-> ->].
      rewrite lookup_delete_eq, lookup_insert_eq. split; [done|].
      eexists; split; [done|]. by rewrite obj_get_set_eq.
    + split; [done|]. unfold after_event. by rewrite Happ.
  - intros ->. simpl in Happ. destruct Happ as [-> ->].
    by rewrite lookup_insert_eq.
Qed.

Lemma C3_orphan_entry_consumed_witness :
  let st := after_events initial_state [sample_event "ctr" 1 (JBigInt 5) 10] in
  let st0 := after_events initial_state
               [ sample_event "ctr" 1 (JBigInt 5) 10;
                 sample_event "ctr" 1 (JBigInt (-5)) 11 ] in
  (pendingRaised (after_event st sample_creation) !! "1" = None
   ∧ ∃ p, pools (after_event st sample_creation) !! "1" = Some p
          ∧ obj_get p "raised" = JString (string_of_Z (0 + 5)))
  ∧ (pendingRaised (after_event st0 sample_creation) !! "1" = Some 0
     ∧ pools (after_event st0 sample_creation) !! "1"
       = Some (created_pool (event_pid sample_creation) (event_native sample_creation))).
Proof.
  intros st st0. split.
  - refine (proj1 (C3_orphan_entry_consumed st "1" sample_creation 5 _ _) _);
      [vm_compute; reflexivity | vm_compute; reflexivity | lia].
  - refine (proj2 (C3_orphan_entry_consumed st0 "1" sample_creation 0 _ _) _);
      vm_compute; reflexivity.
Defined.

(** C4, as stated, fails for an event whose pool id does not resolve:
    the loop skips it before the cursor is advanced.  It also fails for an
    event that a branch handles but cannot complete: a contribution to a
    pool whose stored [raised] is not an integer throws, and the cursor
    stays where it was. *)
Lemma C4_skipped_event_keeps_cursor :
  (process_event initial_state (anonymous_event 10) = (initial_state, Return false)
   ∧ lastScannedLedger (after_event initial_state (anonymous_event 10)) = 0
   ∧ Z.max (lastScannedLedger initial_state) (event_ledger (anonymous_event 10)) = 10)
  ∧ (let st := after_event initial_state
                 (sample_event "pool_created" 1 (JObject [("raised", JString "n/a")]) 5) in
     let e := sample_event "ctr" 1 (JBigInt 5) 9 in
     event_branch e = Some Contributed
     ∧ process_event st e = (st, Throw SyntaxError)
     ∧ lastScannedLedger (after_event st e) = 5
     ∧ Z.max (lastScannedLedger st) (event_ledger e) = 9).
Proof. vm_compute. done. Qed.

(** The same happens to a creation event whose payload leaves a
    [bigint] in the pool: the pool is stored, then the log line that
    serialises it throws, and the cursor is not advanced. *)
Lemma creation_log_throws :
  let e := sample_event "pool_created" 1 (JObject [("target", JBigInt 1000)]) 12 in
  event_branch e = Some PoolCreated
  ∧ (process_event initial_state e).2 = Throw TypeError
  ∧ is_Some (pools (after_event initial_state e) !! "1")
  ∧ lastScannedLedger (after_event initial_state e) = 0
  ∧ Z.max (lastScannedLedger initial_state) (event_ledger e) = 12.
Proof. vm_compute. eauto 10. Qed.

(** C4, amended. The cursor never decreases: not by an event, not by a
    page, not by a step of a pass.  An event whose pool id resolves and
    whose handling completes moves the cursor to the maximum of its value
    and the ledger of the event, whichever branch handled it.  An event
    that is skipped changes nothing, and an event whose handling throws
    leaves the cursor where it was. *)
Theorem C4_cursor_monotone :
  (∀ st e, lastScannedLedger st ≤ lastScannedLedger (after_event st e))
  ∧ (∀ st n es, lastScannedLedger st ≤ lastScannedLedger (process_events st n es).1)
  ∧ (∀ now st d k r st' d' pr,
       resume now st d k r = Some (st', d', pr) →
       lastScannedLedger st ≤ lastScannedLedger st')
  ∧ (∀ st e st',
       process_event st e = (st', Return true) →
       lastScannedLedger st' = Z.max (lastScannedLedger st) (event_ledger e))
  ∧ (∀ st e, event_key e = None → after_event st e = st)
  ∧ (∀ st e st' err,
       process_event st e = (st', Throw err) →
       lastScannedLedger st' = lastScannedLedger st).
Proof.
  split; [apply after_event_cursor|].
  split; [intros; apply process_events_cursor|].
  split; [apply resume_cursor|].
  split; [apply process_event_cursor|].
  split; [|apply process_event_throws_cursor].
  intros st e H. unfold after_event. by rewrite event_key_None.
Qed.

Lemma C4_cursor_monotone_witness :
  lastScannedLedger (after_event initial_state sample_creation)
  = Z.max (lastScannedLedger initial_state) (event_ledger sample_creation)
  ∧ after_event initial_state (anonymous_event 10) = initial_state
  ∧ (∃ st' d' pr,
      resume "t" initial_state NoFile (AwaitEvents 200000 50000 None 0)
        (Events (Fulfilled {| events := [sample_creation]; nextToken := None |}))
      = Some (st', d', pr)
      ∧ lastScannedLedger initial_state ≤ lastScannedLedger st')
  ∧ lastScannedLedger
      (after_event initial_state
         (sample_event "pool_created" 1 (JObject [("target", JBigInt 1000)]) 12))
    = lastScannedLedger initial_state.
Proof.
  destruct C4_cursor_monotone as (_ & _ & Hresume & Hmax & Hskip & Hthrow).
  split; [|split; [|split]].
  - apply (Hmax initial_state sample_creation). vm_compute. reflexivity.
  - apply Hskip. vm_compute. reflexivity.
  - eexists _, _, _. split; [vm_compute; reflexivity|].
    eapply (Hresume "t" initial_state NoFile (AwaitEvents 200000 50000 None 0)
              (Events (Fulfilled {| events := [sample_creation]; nextToken := None |}))).
    vm_compute. reflexivity.
  - apply (Hthrow initial_state
             (sample_event "pool_created" 1 (JObject [("target", JBigInt 1000)]) 12)
             _ TypeError).
    vm_compute. reflexivity.
Defined.

(** ** Pool-id extraction *)

Lemma accepted_id (v : jsval) :
  Number_isFinite (JNumber (js_Number v)) && gt0 (JNumber (js_Number v))
  = bool_decide (is_Some (numeric_id v)).
Proof.
  unfold numeric_id, gt0. cbn [Number_isFinite js_Number].
  destruct (isFinite (js_Number v) && number_gtb (js_Number v) (Num 0)) eqn:E.
  - symmetry. apply bool_decide_eq_true. eauto.
  - symmetry. apply bool_decide_eq_false. by intros [? ?].
Qed.

Lemma numeric_id_value (v : jsval) n :
  numeric_id v = Some n → js_Number v = n.
Proof. unfold numeric_id. case_match; naive_solver. Qed.

Lemma id_of_fields_spec native ks :
  id_of_fields native ks
  = JNumber <$> first_some (fun k => numeric_id (get_prop native k)) ks.
Proof.
  induction ks as [|k ks IH]; [done|].
  cbn -[Number_isFinite gt0 numeric_id js_Number].
  rewrite accepted_id.
  destruct (numeric_id (get_prop native k)) as [n|] eqn:E; simpl; [|done].
  by rewrite (numeric_id_value _ _ E).
Qed.

Lemma topicNum_accepted t :
  (if Number_isFinite (topicNum t) && gt0 (topicNum t) then Some (topicNum t) else None)
  = JNumber <$> numeric_id (scvToNativeSafe t).
Proof.
  unfold topicNum, numeric_id, gt0.
  destruct (isFinite (js_Number (scvToNativeSafe t))) eqn:Ef; simpl; [|done].
  rewrite Ef. simpl. by destruct (number_gtb _ _).
Qed.

Lemma id_of_topics_spec topics :
  id_of_topics topics
  = JNumber <$> first_some (fun t => numeric_id (scvToNativeSafe t)) topics.
Proof.
  induction topics as [|t topics IH]; [done|].
  cbn -[Number_isFinite gt0 numeric_id topicNum].
  pose proof (topicNum_accepted t) as H.
  destruct (Number_isFinite (topicNum t) && gt0 (topicNum t));
    destruct (numeric_id (scvToNativeSafe t)); simplify_eq/=; congruence.
Qed.

Lemma id_of_topic1_spec topics :
  id_of_topic1 topics
  = JNumber <$> (topics !! 1%nat ≫= fun t => numeric_id (scvToNativeSafe t)).
Proof.
  unfold id_of_topic1. destruct (topics !! 1%nat) as [t|]; simpl; [|done].
  destruct t as [| |v]; simpl; try done.
  apply (topicNum_accepted (ScvOf v)).
Qed.

Lemma id_of_fields_undefined native ks :
  (∀ k, get_prop native k = JUndefined) → id_of_fields native ks = None.
Proof.
  intros H. induction ks as [|k ks IH]; [done|].
  cbn -[Number_isFinite gt0 js_Number]. by rewrite H.
Qed.

(** The guard of step 1 only leaves out payloads that have no fields. *)
Lemma id_of_fields_guard native ks :
  (if truthy native && String.eqb (typeof native) "object"
   then id_of_fields native ks else None)
  = id_of_fields native ks.
Proof.
  destruct (truthy native && String.eqb (typeof native) "object") eqn:E; [done|].
  symmetry. apply id_of_fields_undefined. intros k.
  by destruct native.
Qed.

Lemma extractPoolId_spec native topics :
  extractPoolId native topics = id_value (resolve_id numeric_id native topics).
Proof.
  unfold extractPoolId, resolve_id.
  rewrite id_of_fields_guard, id_of_fields_spec, id_of_topic1_spec, id_of_topics_spec.
  destruct (first_some _ id_fields); simpl; [done|].
  destruct (topics !! 1%nat ≫= _); simpl; [done|].
  by destruct (first_some _ topics).
Qed.

Lemma first_some_holds {A B} (P : B → Prop) (f : A → option B) l b :
  (∀ a y, f a = Some y → P y) → first_some f l = Some b → P b.
Proof.
  intros Hf. induction l as [|a l IH]; simpl; [done|].
  destruct (f a) eqn:E; [intros [= <-]; eauto | done].
Qed.

Lemma numeric_id_positive v n :
  numeric_id v = Some n → isFinite n = true ∧ number_gtb n (Num 0) = true.
Proof.
  unfold numeric_id.
  destruct (isFinite (js_Number v) && number_gtb (js_Number v) (Num 0)) eqn:E; [|done].
  intros [= <-]. by apply andb_prop in E.
Qed.

Lemma resolve_id_positive native topics n :
  resolve_id numeric_id native topics = Some n →
  isFinite n = true ∧ number_gtb n (Num 0) = true.
Proof.
  pose proof (fun A (f : A → option number) (Hf : ∀ a y, f a = Some y → _) l b =>
                first_some_holds
                  (fun n => isFinite n = true ∧ number_gtb n (Num 0) = true)
                  f l b Hf) as Hfirst.
  unfold resolve_id.
  destruct (first_some _ id_fields) eqn:E1.
  { intros [= <-]. eapply Hfirst; [|exact E1].
    intros ??; apply numeric_id_positive. }
  destruct (topics !! 1%nat) as [t|]; simpl.
  - destruct (numeric_id (scvToNativeSafe t)) eqn:E2.
    + intros [= <-]. by eapply numeric_id_positive.
    + apply Hfirst. intros ??; apply numeric_id_positive.
  - apply Hfirst. intros ??; apply numeric_id_positive.
Qed.

(** C7, as stated, fails on a payload whose id field is not a positive
    integer but converts to one: [{ id: true }] resolves to pool 1. *)
Lemma C7_boolean_id_resolves :
  extractPoolId (JObject [("id", JBool true)]) [] = JNumber (Num 1)
  ∧ resolve_id positive_integer (JObject [("id", JBool true)]) [] = None.
Proof. vm_compute. done. Qed.

(** Nor is a resolved id always an integer: every spelling [Number(..)]
    reads counts, so "1e3" is pool 1000, "0x10" pool 16, "7.0" pool 7 and
    "7.5" the pool stored under "7.5". *)
Lemma spelled_ids_resolve :
  extractPoolId (JObject [("id", JString "1e3")]) [] = JNumber (Num 1000)
  ∧ extractPoolId (JObject [("id", JString "0x10")]) [] = JNumber (Num 16)
  ∧ extractPoolId (JObject [("id", JString "7.0")]) [] = JNumber (Num 7)
  ∧ extractPoolId (JObject [("id", JString "7.5")]) [] = JNumber (Dec 75 1)
  ∧ js_String (extractPoolId (JObject [("id", JString "7.5")]) []) = "7.5"
  ∧ extractPoolId (JObject [("id", JString "-3")]) [ScvOf (JString "pc")] = JNull.
Proof. vm_compute. done. Qed.

(** The id is a double: a numeral, or a [bigint], beyond [2^53] resolves
    to the double nearest to it, which prints with the shortest digits
    that read back as that double; what overflows to an infinity or
    underflows to zero does not resolve. *)
Lemma ids_round_to_doubles :
  extractPoolId (JObject [("id", JString "9007199254740993")]) []
  = JNumber (Num 9007199254740992)
  ∧ extractPoolId (JObject [("id", JBigInt 18446744073709551617)]) []
    = JNumber (Num 18446744073709551616)
  ∧ js_String (JNumber (Num 18446744073709551616)) = "18446744073709552000"
  ∧ js_String (JNumber (StringToNumber "0.1")) = "0.1"
  ∧ js_String (JNumber (StringToNumber "1e21")) = "1e+21"
  ∧ js_String (JNumber (StringToNumber "123456789012345678901234567890"))
    = "1.2345678901234568e+29"
  ∧ extractPoolId (JObject [("id", JString "1e400")]) [] = JNull
  ∧ extractPoolId (JObject [("id", JString "1e-400")]) [] = JNull.
Proof. vm_compute. done. Qed.

(** C7, amended. The id is the first of: the first id field of the
    payload that [Number(..)] converts to a finite number above zero; the
    second topic if it decodes to such a value; the first topic that does.
    The id is that number.  Nothing else resolves, so a resolved id is
    always finite and above zero.  An event with no id is skipped: the
    page loop goes on with the next event and the state is unchanged. *)
Theorem C7_pool_id_resolution :
  (∀ native topics,
     extractPoolId native topics = id_value (resolve_id numeric_id native topics))
  ∧ (∀ native topics,
       extractPoolId native topics = JNull
       ∨ ∃ n, isFinite n = true ∧ number_gtb n (Num 0) = true
              ∧ extractPoolId native topics = JNumber n)
  ∧ (∀ st e,
       event_pid e = JNull →
       process_event st e = (st, Return false)
       ∧ after_event st e = st
       ∧ ∀ n es, process_events st n (e :: es) = process_events st n es).
Proof.
  split; [apply extractPoolId_spec|]. split.
  - intros native topics. rewrite extractPoolId_spec.
    destruct (resolve_id numeric_id native topics) as [n|] eqn:E; [right|by left].
    exists n. destruct (resolve_id_positive _ _ _ E). done.
  - intros st e H.
    assert (process_event st e = (st, Return false)) as Hskip.
    { apply event_key_None. unfold event_key. by rewrite H. }
    split; [done|]. split.
    + unfold after_event. by rewrite Hskip.
    + intros n es. simpl. by rewrite Hskip.
Qed.

Lemma C7_pool_id_resolution_witness :
  process_event initial_state (anonymous_event 10) = (initial_state, Return false)
  ∧ after_event initial_state (anonymous_event 10) = initial_state
  ∧ ∀ n es, process_events initial_state n (anonymous_event 10 :: es)
            = process_events initial_state n es.
Proof.
  apply (proj2 (proj2 C7_pool_id_resolution) initial_state (anonymous_event 10)).
  vm_compute. reflexivity.
Defined.

(** ** Derived status *)

(** C8. A pool that is not finalized, whose deadline has not passed and
    whose [raised] has reached [goal] is [funded], as is the pool created
    with goal 1000 after contributions of 600 and 400; a pool that is not
    finalized, past its deadline and short of its goal is [expired]; a
    finalized pool is [finalized]. *)
Theorem C8_derived_status :
  (∀ now p r g d,
     obj_get p "finalized" = JBool false →
     js_BigInt (obj_get p "raised") = Return r →
     js_BigInt (obj_get p "goal") = Return g →
     js_Number (obj_get p "deadline") = Num d →
     g ≤ r → now ≤ d →
     pool_status now p = Return "funded")
  ∧ (∀ now p r g d,
       obj_get p "finalized" = JBool false →
       js_BigInt (obj_get p "raised") = Return r →
       js_BigInt (obj_get p "goal") = Return g →
       js_Number (obj_get p "deadline") = Num d →
       r < g → d < now →
       pool_status now p = Return "expired")
  ∧ (∀ now p, obj_get p "finalized" = JBool true →
       pool_status now p = Return "finalized")
  ∧ (∀ now, now ≤ 2000000000 →
       ∃ p, pools (after_events initial_state funded_story) !! "1" = Some p
            ∧ obj_get p "goal" = JString "1000"
            ∧ obj_get p "raised" = JString "1000"
            ∧ pool_status now p = Return "funded").
Proof.
  assert (∀ now p r g d,
     obj_get p "finalized" = JBool false →
     js_BigInt (obj_get p "raised") = Return r →
     js_BigInt (obj_get p "goal") = Return g →
     js_Number (obj_get p "deadline") = Num d →
     g ≤ r → now ≤ d →
     pool_status now p = Return "funded") as Hfunded.
  { intros now p r g d Hf Hr Hg Hd Hle Hnow.
    unfold pool_status, expired. rewrite Hf, Hd, Hr, Hg. simpl.
    destruct (Z.ltb_spec d now); [lia|]. simpl.
    destruct (Z.leb_spec g r); [done | lia]. }
  split; [exact Hfunded|]. split; [|split].
  - intros now p r g d Hf Hr Hg Hd Hlt Hnow.
    unfold pool_status, expired. rewrite Hf, Hd. simpl.
    destruct (Z.ltb_spec d now); [done | lia].
  - intros now p Hf. unfold pool_status. by rewrite Hf.
  - intros now Hnow. eexists. split; [vm_compute; reflexivity|].
    split; [reflexivity|]. split; [reflexivity|].
    by apply (Hfunded now _ 1000 1000 2000000000).
Qed.

Lemma C8_derived_status_witness :
  pool_status 1700000000
    [ ("id", JNumber (Num 2)); ("goal", JString "1000"); ("raised", JString "1200");
      ("deadline", JNumber (Num 1800000000)); ("finalized", JBool false) ]
  = Return "funded"
  ∧ pool_status 1700000000
      [ ("id", JNumber (Num 3)); ("goal", JString "1000"); ("raised", JString "10");
        ("deadline", JNumber (Num 1600000000)); ("finalized", JBool false) ]
    = Return "expired"
  ∧ pool_status 1700000000
      [ ("id", JNumber (Num 4)); ("goal", JString "x"); ("finalized", JBool true) ]
    = Return "finalized"
  ∧ ∃ p, pools (after_events initial_state funded_story) !! "1" = Some p
         ∧ obj_get p "goal" = JString "1000"
         ∧ obj_get p "raised" = JString "1000"
         ∧ pool_status 1700000000 p = Return "funded".
Proof.
  destruct C8_derived_status as (H1 & H2 & H3 & H4).
  split; [|split; [|split]].
  - apply (H1 _ _ 1200 1000 1800000000); (reflexivity || lia).
  - apply (H2 _ _ 10 1000 1600000000); (reflexivity || lia).
  - apply H3. reflexivity.
  - apply H4. lia.
Defined.

(** ** A pass after a failed fetch *)

Lemma on_fetch_error_token msg latest start token c start' token' :
  on_fetch_error msg latest start token = (c, start', token') →
  c = Break ∨ (c = Continue ∧ token' = None).
Proof.
  unfold on_fetch_error. intros H.
  repeat case_match; simplify_eq; auto.
Qed.

(** A rejected fetch always ends the pass: the registry is untouched and
    no further page is requested. *)
Lemma resume_rejected now st d latest start token n msg :
  ∃ err, resume now st d (AwaitEvents latest start token n) (Events (Rejected msg))
         = Some (st, after_loop now st d n, Stopped (Returned err)).
Proof.
  unfold resume.
  destruct (on_fetch_error msg latest start token) as [[c start'] token'] eqn:E.
  apply on_fetch_error_token in E as [->|[-> ->]]; simpl; eauto.
Qed.


Lemma clampPos_max x : clampPos x = Z.max 1 x.
Proof. unfold clampPos. destruct (Z.eqb_spec x 0) as [->|]; lia. Qed.

(** What the [catch] block around [getEvents] assigns on a failure the
    range negotiation recognises: after "must be positive" the start
    becomes [max(1, tip - window)] ([clampPos] keeps it at 1 or above);
    after a ledger range [min - max] it becomes [min] when it is below
    [min], and [max(min, max - window)] when it is above [max].  The page
    token is cleared and the body completes with [continue]. *)
Lemma on_fetch_error_adjusts (msg : string) (latest start : Z) (token : option string) :
  (re_must_be_positive msg = true →
     on_fetch_error msg latest start token
     = (Continue, Z.max 1 (latest - DEFAULT_WINDOW), None))
  ∧ (∀ min max,
       re_must_be_positive msg = false →
       reported_range msg = Some (min, max) →
       (start < min → on_fetch_error msg latest start token = (Continue, min, None))
       ∧ (min ≤ start → max < start →
          on_fetch_error msg latest start token
          = (Continue, Z.max min (max - DEFAULT_WINDOW), None))).
Proof.
  split.
  - intros Hp. unfold on_fetch_error. by rewrite Hp, clampPos_max.
  - intros min max Hp Hr. unfold on_fetch_error, reported_range in *. rewrite Hp.
    destruct (re_ledger_range msg) as [[lo hi]|]; simplify_eq/=.
    split.
    + intros Hlt. apply Z.ltb_lt in Hlt. by rewrite Hlt.
    + intros Hge Hgt. apply Z.ltb_ge in Hge. apply Z.ltb_lt in Hgt.
      by rewrite Hge, Hgt.
Qed.

(** C5. The code computes the start the claim names and clears the page
    token, but never makes the attempt that would use it:
    [continue retryFetch] in a [do ... while] goes to the loop test
    [while (paginationToken)], which reads the token just cleared, so the
    loop ends.  A pass started at ledger 50 whose [getEvents] is rejected
    with the range 100 - 500 sets its start to 100 and completes in that
    same turn: no call is pending, the gate is free, the promise is
    fulfilled and nothing is logged as an error.  The same happens for a
    start of 900 and after "must be positive"; whatever the message, a
    rejected [getEvents] is the last call of its pass. *)
Theorem C5_retry_is_never_issued :
  let msg := "startLedger must be within the ledger range: 100 - 500" in
  let s := run (started_with initial_state NoFile)
             [ CallHydrate (Some 50); RpcSettles "t0" (LatestLedger (Fulfilled 200000)) ] in
  let s' := step s (RpcSettles "t1" (Events (Rejected msg))) in
  pending_start s = Some 50
  ∧ on_fetch_error msg 200000 50 None = (Continue, 100, None)
  ∧ on_fetch_error msg 200000 900 None
    = (Continue, Z.max 100 (500 - DEFAULT_WINDOW), None)
  ∧ on_fetch_error "startLedger must be positive" 200000 0 None
    = (Continue, 200000 - DEFAULT_WINDOW, None)
  ∧ hydratingPromise s' = None
  ∧ pending_start s' = None
  ∧ observed s' 0 = Some PassFulfilled
  ∧ console_errors s' = console_errors s
  ∧ app s' = app s
  ∧ ∀ now st d latest start token n msg',
      ∃ err, resume now st d (AwaitEvents latest start token n) (Events (Rejected msg'))
             = Some (st, after_loop now st d n, Stopped (Returned err)).
Proof.
  repeat (split; [vm_compute; reflexivity|]).
  intros. apply resume_rejected.
Qed.

(** ** The gate *)

Lemma outcome_of_app q l p o :
  outcome_of q (l ++ [(p, o)])
  = match outcome_of q l with
    | Some x => Some x
    | None => if (p =? q)%nat then Some o else None
    end.
Proof.
  induction l as [|[p' o'] l IH]; simpl; [done|].
  by destruct (p' =? q)%nat.
Qed.

(** What a turn does to the gate, the counter and the settled promises. *)
Lemma step_cases s i :
  (hydratingPromise s = None ∧ started (step s i) = S (started s)
     ∧ outcomes (step s i) = outcomes s
     ∧ ∃ f, hydratingPromise (step s i) = Some (started s, AwaitLatest f))
  ∨ (started (step s i) = started s ∧ outcomes (step s i) = outcomes s
     ∧ fst <$> hydratingPromise (step s i) = fst <$> hydratingPromise s)
  ∨ (started (step s i) = started s ∧ hydratingPromise (step s i) = None
     ∧ ∃ p k o, hydratingPromise s = Some (p, k)
                ∧ outcomes (step s i) = (outcomes s ++ [(p, o)])%list).
Proof.
  destruct i as [f|now r| |now b|now]; simpl.
  - unfold hydrateFromEvents.
    destruct (hydratingPromise s) as [[p k]|] eqn:E; simpl.
    + right; left. by rewrite E.
    + left. eauto.
  - unfold rpc_settles.
    destruct (hydratingPromise s) as [[p k]|] eqn:E;
      [|by right; left; rewrite ?E].
    destruct (resume now (app s) (disk s) k r) as [[[st' d'] [k'|c]]|];
      simpl; [by right; left; rewrite ?E| |by right; left; rewrite ?E].
    destruct (try_catch_finally c) as [logged o]. simpl.
    right; right. eauto 10.
  - by right; left.
  - destruct (register_pool now b (app s) (disk s)) as [[st' d'] resp].
    by right; left.
  - by right; left.
Qed.

Lemma gate_invariant_step s i : gate_invariant s → gate_invariant (step s i).
Proof.
  unfold gate_invariant, observed. intros (H1 & H2 & H3).
  destruct (step_cases s i)
    as [(Hg & -> & -> & f & ->)|[(-> & -> & Hg)|(-> & -> & p & k & o & Hg & ->)]].
  - split; [|split].
    + intros q Hq. specialize (H1 q Hq). lia.
    + intros q Hq Hn. destruct (decide (q = started s)) as [->|]; [eauto|].
      destruct (H2 q) as [k Hk]; [lia|done|congruence].
    + intros q k [= <- <-]. split; [lia|].
      destruct (outcome_of (started s) (outcomes s)) eqn:E; [|done].
      specialize (H1 (started s)). rewrite E in H1.
      specialize (H1 ltac:(eauto)). lia.
  - split; [done|]. split.
    + intros q Hq Hn. destruct (H2 q Hq Hn) as [k Hk].
      rewrite Hk in Hg. destruct (hydratingPromise (step s i)) as [[q' k']|];
        simplify_eq/=. eauto.
    + intros q k Hk. rewrite Hk in Hg.
      destruct (hydratingPromise s) as [[q' k']|] eqn:E; simplify_eq/=. eauto.
  - destruct (H3 p k Hg) as [Hp Hn]. split; [|split; [|done]].
    + intros q. rewrite outcome_of_app.
      destruct (outcome_of q (outcomes s)) eqn:E.
      * intros _. apply H1. rewrite E. eauto.
      * destruct (Nat.eqb_spec p q) as [<-|]; [done|]. by intros [? [=]].
    + intros q Hq. rewrite outcome_of_app.
      destruct (outcome_of q (outcomes s)) eqn:E; [done|].
      destruct (Nat.eqb_spec p q) as [<-|Hne]; [done|]. intros _.
      destruct (H2 q Hq E) as [k' Hk']. congruence.
Qed.

Lemma gate_invariant_run inputs : ∀ s, gate_invariant s → gate_invariant (run s inputs).
Proof.
  induction inputs as [|i inputs IH]; intros s Hs; [done|].
  apply IH, gate_invariant_step, Hs.
Qed.

Lemma gate_invariant_reachable s : reachable s → gate_invariant s.
Proof.
  intros (st & d & inputs & ->). apply gate_invariant_run.
  unfold gate_invariant, observed. simpl.
  split; [by intros q [? [=]]|]. split; [lia | done].
Qed.

(** A settled promise stays settled, with the same outcome. *)
Lemma observed_step s i q o : observed s q = Some o → observed (step s i) q = Some o.
Proof.
  unfold observed. intros H.
  destruct (step_cases s i)
    as [(_ & _ & -> & _)|[(_ & -> & _)|(_ & _ & p & k & o' & _ & ->)]]; [done..|].
  by rewrite outcome_of_app, H.
Qed.

Lemma observed_run inputs : ∀ s q o,
  observed s q = Some o → observed (run s inputs) q = Some o.
Proof.
  induction inputs as [|i inputs IH]; intros s q o H; [done|].
  apply IH, observed_step, H.
Qed.

(** While the promise of the running pass is pending, that pass keeps
    the gate and no other pass is started. *)
Lemma in_flight inputs : ∀ s p k,
  hydratingPromise s = Some (p, k) →
  observed (run s inputs) p = None →
  started (run s inputs) = started s
  ∧ ∃ k', hydratingPromise (run s inputs) = Some (p, k').
Proof.
  induction inputs as [|i inputs IH]; intros s p k Hg Hn; [by eauto|].
  simpl in *.
  destruct (step_cases s i)
    as [(Hg' & _)|[(Hs & _ & Hg')|(_ & _ & p' & k' & o & Hg' & Ho)]].
  - congruence.
  - rewrite Hg in Hg'.
    destruct (hydratingPromise (step s i)) as [[q k'']|] eqn:E; simplify_eq/=.
    destruct (IH _ _ _ E Hn) as [-> ?]. by rewrite Hs.
  - assert (p' = p) as -> by congruence.
    assert (is_Some (observed (step s i) p)) as [o' Ho'].
    { unfold observed. rewrite Ho, outcome_of_app.
      destruct (outcome_of p (outcomes s)); [eauto|].
      rewrite Nat.eqb_refl. eauto. }
    apply (observed_run inputs) in Ho'. congruence.
Qed.




(** C10. A call to [hydrateFromEvents] made while the pass started by an
    earlier call is in flight starts no pass: it returns the promise of
    that pass, so one pass runs and both callers see the same outcome.
    When that promise settles the gate is already free. *)
Theorem C10_single_flight (s : server) (f1 f2 : option Z) (mid : list input) :
  reachable s →
  hydratingPromise s = None →
  let s1 := (hydrateFromEvents f1 s).1 in
  let p1 := (hydrateFromEvents f1 s).2 in
  let s2 := run s1 mid in
  observed s2 p1 = None →
  let s3 := (hydrateFromEvents f2 s2).1 in
  let p2 := (hydrateFromEvents f2 s2).2 in
  p2 = p1
  ∧ s3 = s2
  ∧ started s3 = S (started s)
  ∧ (∀ rest o, observed (run s3 rest) p1 = Some o →
       observed (run s3 rest) p2 = Some o ∧ gate (run s3 rest) ≠ Some p1)
  ∧ (∀ now r, is_Some (observed (rpc_settles now r s3) p1) →
       hydratingPromise (rpc_settles now r s3) = None).
Proof.
  intros Hs Hg s1 p1 s2 Hn s3 p2.
  assert (hydratingPromise s1 = Some (p1, AwaitLatest f1)
          ∧ started s1 = S (started s)) as [Hg1 Hst1].
  { subst s1 p1. unfold hydrateFromEvents. by rewrite Hg. }
  destruct (in_flight mid s1 p1 _ Hg1 Hn) as [Hst2 [k2 Hg2]].
  assert (s3 = s2 ∧ p2 = p1) as [Hs3 Hp2].
  { subst s3 p2. unfold hydrateFromEvents. unfold s2. by rewrite Hg2. }
  assert (reachable s2) as Hr2.
  { destruct Hs as (st & d & inputs & ->).
    exists st, d, (inputs ++ CallHydrate f1 :: mid)%list.
    subst s2 s1. unfold run. by rewrite fold_left_app. }
  rewrite Hs3, Hp2. clear Hs3 Hp2. subst s3 p2 s2.
  split; [done|]. split; [done|].
  split; [by rewrite Hst2|]. split.
  - intros rest o Ho. split; [done|].
    assert (gate_invariant (run (run s1 mid) rest)) as (_ & _ & H3).
    { apply gate_invariant_run, gate_invariant_reachable, Hr2. }
    unfold gate.
    destruct (hydratingPromise (run (run s1 mid) rest)) as [[q k]|] eqn:E; [|done].
    simpl. intros [= ->]. destruct (H3 _ _ eq_refl) as [_ Hq]. congruence.
  - intros now r [o Ho].
    destruct (step_cases (run s1 mid) (RpcSettles now r))
      as [(Hg' & _)|[(_ & Hout & _)|(_ & Hnone & _)]]; simpl in *.
    + congruence.
    + unfold observed in *. rewrite Hout in Ho. congruence.
    + done.
Qed.

Lemma C10_single_flight_witness :
  let s := started_with initial_state NoFile in
  let mid := [ RpcSettles "t0" (LatestLedger (Fulfilled 200000)) ] in
  let s1 := (hydrateFromEvents (Some 0) s).1 in
  let p1 := (hydrateFromEvents (Some 0) s).2 in
  let s2 := run s1 mid in
  let s3 := (hydrateFromEvents None s2).1 in
  let p2 := (hydrateFromEvents None s2).2 in
  p2 = p1
  ∧ s3 = s2
  ∧ started s3 = S (started s)
  ∧ (∀ rest o, observed (run s3 rest) p1 = Some o →
       observed (run s3 rest) p2 = Some o ∧ gate (run s3 rest) ≠ Some p1)
  ∧ (∀ now r, is_Some (observed (rpc_settles now r s3) p1) →
       hydratingPromise (rpc_settles now r s3) = None).
Proof.
  apply (C10_single_flight (started_with initial_state NoFile) (Some 0) None
           [ RpcSettles "t0" (LatestLedger (Fulfilled 200000)) ]).
  - exists initial_state, NoFile, []. reflexivity.
  - reflexivity.
  - vm_compute. reflexivity.
Defined.

(** ** Snapshots *)

Lemma toJSON_plain : ∀ v, json_plain v = true → toJSON v = Return v.
Proof.
  induction v as [| |b|[|z|m k|neg]|z|s|items IH|props IH] using jsval_nested_ind;
    try done.
  - intros Hp. simpl in Hp. cbn [toJSON].
    assert ((fix each (l : list jsval) : completion (list jsval) :=
               match l with
               | [] => Return []
               | x :: l' =>
                   y ← toJSON x; ys ← each l';
                   Return ((if nullish y then JNull else y) :: ys)
               end) items = Return items) as ->; [|done].
    induction IH as [|x l Hx _ IHl]; [done|].
    simpl in Hp. apply andb_prop in Hp as [Hpx Hpl].
    rewrite (Hx Hpx), (IHl Hpl). simpl. by destruct x.
  - intros Hp. simpl in Hp. cbn [toJSON].
    assert ((fix each (l : obj) : completion obj :=
               match l with
               | [] => Return []
               | (k, x) :: l' =>
                   y ← toJSON x; ys ← each l';
                   Return (match y with JUndefined => ys | _ => (k, y) :: ys end)
               end) props = Return props) as ->; [|done].
    induction IH as [|[k x] l Hx _ IHl]; [done|].
    apply andb_prop in Hp as [Hpx Hpl]. simpl in Hx.
    rewrite (Hx Hpx), (IHl Hpl). simpl. by destruct x.
Qed.

Lemma toJSON_obj_plain (o : obj) : json_plain (JObject o) = true → toJSON_obj o = Return o.
Proof. intros H. unfold toJSON_obj. by rewrite (toJSON_plain _ H). Qed.

Lemma mapM_id {A} (f : A → completion A) (l : list A) :
  Forall (fun a => f a = Return a) l → mapM f l = Return l.
Proof. induction 1 as [|a l Ha _ IH]; simpl; [done|]. by rewrite Ha, IH. Qed.

Lemma restore_pools_fold (l : list (string * obj)) : ∀ m0 : gmap string obj,
  NoDup l.*1 →
  Forall (fun kp => js_String (obj_get kp.2 "id") = kp.1) l →
  fold_left (fun m p => <[js_String (obj_get p "id") := p]> m) l.*2 m0
  = list_to_map l ∪ m0.
Proof.
  induction l as [|[k p] l IH]; intros m0 Hnd Hk; simpl.
  - by rewrite (left_id_L ∅ (∪)).
  - apply NoDup_cons in Hnd as [Hk' Hnd]. apply Forall_cons in Hk as [Hkp Hk].
    simpl in Hkp. rewrite Hkp, (IH _ Hnd Hk).
    rewrite <- insert_union_l. symmetry. apply insert_union_r.
    by apply not_elem_of_list_to_map_1.
Qed.

(** The registry as a [Map] lists it holds every pool once. *)
Lemma pool_keys_spec st k : k ∈ pool_keys st ↔ is_Some (pools st !! k).
Proof.
  unfold pool_keys. rewrite elem_of_app, !list_elem_of_filter, elem_of_remove_dups.
  split.
  - intros [[? _]|[_ Hin]]; [done|].
    apply list_elem_of_fmap in Hin as ([k' p] & -> & Hin).
    apply elem_of_map_to_list in Hin. simpl. eauto.
  - intros [p Hp]. destruct (decide (k ∈ order st)) as [Hin|Hout]; [left; eauto|].
    right. split; [done|]. apply list_elem_of_fmap. exists (k, p).
    split; [done|]. by apply elem_of_map_to_list.
Qed.

Lemma pool_keys_NoDup st : NoDup (pool_keys st).
Proof.
  unfold pool_keys. apply NoDup_app. split; [|split].
  - apply NoDup_filter, NoDup_remove_dups.
  - intros k Hin Hout.
    apply list_elem_of_filter in Hin as [_ Hin]. rewrite elem_of_remove_dups in Hin.
    apply list_elem_of_filter in Hout as [Hout _]. exact (Hout Hin).
  - apply NoDup_filter, NoDup_fst_map_to_list.
Qed.

Lemma pool_entries_fst st : (pool_entries st).*1 = pool_keys st.
Proof.
  unfold pool_entries.
  assert (∀ ks, (∀ k, k ∈ ks → is_Some (pools st !! k)) →
                (omap (fun k => (fun p => (k, p)) <$> pools st !! k) ks).*1 = ks) as H.
  { induction ks as [|k ks IH]; intros Hks; simpl; [done|].
    destruct (Hks k) as [p Hp]; [apply list_elem_of_here|]. rewrite Hp. simpl.
    f_equal. apply IH. intros k' Hk'. apply Hks. by apply list_elem_of_further. }
  apply H. intros k. apply pool_keys_spec.
Qed.

Lemma pool_entries_spec st k p : (k, p) ∈ pool_entries st ↔ pools st !! k = Some p.
Proof.
  unfold pool_entries. rewrite list_elem_of_omap. split.
  - intros (k' & _ & Hf). destruct (pools st !! k') as [p'|] eqn:E; simplify_eq/=. done.
  - intros Hp. exists k. split; [apply pool_keys_spec; eauto|]. by rewrite Hp.
Qed.

Lemma pool_entries_perm st : pool_entries st ≡ₚ map_to_list (pools st).
Proof.
  apply NoDup_Permutation.
  - apply (NoDup_fmap_1 fst). rewrite pool_entries_fst. apply pool_keys_NoDup.
  - apply NoDup_map_to_list.
  - intros [k p]. by rewrite pool_entries_spec, elem_of_map_to_list.
Qed.

Lemma pool_values_Forall (P : obj → Prop) st :
  (∀ k p, pools st !! k = Some p → P p) → Forall P (pool_values st).
Proof.
  intros H. unfold pool_values. apply Forall_fmap, Forall_forall.
  intros [k p] Hin%pool_entries_spec. simpl. eauto.
Qed.

Lemma restore_fold ps : ∀ st0,
  let st1 := fold_left (fun st p => pools_set (js_String (obj_get p "id")) p st) ps st0 in
  pools st1 = fold_left (fun m p => <[js_String (obj_get p "id") := p]> m) ps (pools st0)
  ∧ pendingRaised st1 = pendingRaised st0
  ∧ lastScannedLedger st1 = lastScannedLedger st0.
Proof.
  induction ps as [|p ps IH]; intros st0; simpl; [done|].
  apply (IH (pools_set _ p st0)).
Qed.

Lemma pools_restore ps st : pools (restore ps st) = restore_pools ps.
Proof.
  unfold restore, restore_pools.
  exact (proj1 (restore_fold ps {| pools := ∅; order := [];
                                   pendingRaised := pendingRaised st;
                                   lastScannedLedger := lastScannedLedger st |})).
Qed.

Lemma pendingRaised_restore ps st : pendingRaised (restore ps st) = pendingRaised st.
Proof.
  unfold restore.
  exact (proj1 (proj2 (restore_fold ps {| pools := ∅; order := [];
                                          pendingRaised := pendingRaised st;
                                          lastScannedLedger := lastScannedLedger st |}))).
Qed.

Lemma restorable_spec st :
  restorable st = true →
  Forall (fun kp : string * obj =>
            js_String (obj_get kp.2 "id") = kp.1 ∧ json_plain (JObject kp.2) = true)
    (map_to_list (pools st)).
Proof.
  unfold restorable. rewrite forallb_forall, Forall_forall.
  intros H kp Hin. apply list_elem_of_In, H in Hin.
  apply andb_prop in Hin as [Hk Hp]. by apply String.eqb_eq in Hk.
Qed.

(** A creation event whose payload has a [bigint] field other than the
    normalised ones leaves a pool that [JSON.stringify] rejects: no
    snapshot is written. *)
Lemma snapshot_skipped_on_bigint :
  let st := after_event initial_state
              (sample_event "pool_created" 1 (JObject [("target", JBigInt 1000)]) 12) in
  (∃ p, pools st !! "1" = Some p ∧ obj_get p "target" = JBigInt 1000)
  ∧ saveState "t" st NoFile = NoFile.
Proof. split; [eexists; split|]; vm_compute; reflexivity. Qed.

(** A pool registered without a deadline holds [NaN], which the
    snapshot writes as [null]. *)
Lemma snapshot_writes_nan_as_null :
  let body := JObject [("pool", JObject [("id", JNumber (Num 7)); ("goal", JString "5")])] in
  let st := (register_pool "t" body initial_state NoFile).1.1 in
  let st' := loadState (saveState "t" st NoFile) initial_state in
  (∃ p, pools st !! "7" = Some p ∧ obj_get p "deadline" = JNumber NaN)
  ∧ (∃ p, pools st' !! "7" = Some p ∧ obj_get p "deadline" = JNull).
Proof. split; eexists; split; vm_compute; reflexivity. Qed.

(** C6, as stated, fails for a registry in which a pool is stored under
    a key that is not [String(pool.id)], as batch registration with the id
    "007" leaves it: the snapshot holds the pool, and it comes back under
    the key "7". *)
Lemma C6_rekeyed_on_restore :
  let st := (register_batch "t" batch_007 initial_state NoFile).1.1 in
  let st' := loadState (saveState "t" st NoFile) initial_state in
  pools st !! "007" = pools st' !! "7"
  ∧ is_Some (pools st !! "007")
  ∧ pools st' !! "007" = None
  ∧ pools st' ≠ pools st.
Proof.
  split; [vm_compute; reflexivity|].
  split; [vm_compute; eauto|].
  split; [vm_compute; reflexivity|].
  intros H. apply (f_equal (fun m => m !! "007")) in H.
  vm_compute in H. discriminate H.
Qed.

(** C6, amended. For a registry in which every pool is stored under
    [String(pool.id)] and holds only values JSON represents (no [bigint],
    [undefined] or [NaN]), and a cursor that is not negative, the snapshot
    written by [saveState] and read by [loadState] into an empty registry
    gives back the same pools under the same keys and the same cursor. *)
Theorem C6_snapshot_round_trip (st : state) (now : string) (d : file) :
  restorable st = true →
  0 ≤ lastScannedLedger st →
  pools (loadState (saveState now st d) initial_state) = pools st
  ∧ lastScannedLedger (loadState (saveState now st d) initial_state)
    = lastScannedLedger st.
Proof.
  intros Hr Hc. apply restorable_spec in Hr.
  assert (∀ k p, pools st !! k = Some p →
                 js_String (obj_get p "id") = k ∧ json_plain (JObject p) = true) as Hst.
  { intros k p Hk%elem_of_map_to_list.
    by apply (proj1 (Forall_forall _ _) Hr (k, p)). }
  unfold saveState.
  rewrite mapM_id.
  2:{ apply pool_values_Forall. intros k p [_ Hp]%Hst. by apply toJSON_obj_plain. }
  simpl. split.
  - rewrite pools_restore. unfold restore_pools, pool_values.
    rewrite restore_pools_fold.
    + rewrite (right_id_L ∅ (∪)).
      rewrite (list_to_map_proper _ (map_to_list (pools st))).
      * apply list_to_map_to_list.
      * rewrite pool_entries_fst. apply pool_keys_NoDup.
      * apply pool_entries_perm.
    + rewrite pool_entries_fst. apply pool_keys_NoDup.
    + apply Forall_forall. intros [k p] Hin%pool_entries_spec. by apply Hst.
  - destruct (Z.eqb_spec (lastScannedLedger st) 0) as [->|]; lia.
Qed.

Lemma C6_snapshot_round_trip_witness :
  let st := after_events initial_state funded_story in
  pools (loadState (saveState "t" st NoFile) initial_state) = pools st
  ∧ lastScannedLedger (loadState (saveState "t" st NoFile) initial_state)
    = lastScannedLedger st.
Proof.
  apply (C6_snapshot_round_trip (after_events initial_state funded_story) "t" NoFile).
  - vm_compute. reflexivity.
  - vm_compute. discriminate.
Defined.

(** ** Listing the pools *)

Lemma mapM_elem {A B} (f : A → completion B) (l : list A) (l' : list B) (a : A) :
  mapM f l = Return l' → a ∈ l → ∃ b, b ∈ l' ∧ f a = Return b.
Proof.
  revert l'. induction l as [|x l IH]; intros l' H Hin.
  - by apply elem_of_nil in Hin.
  - simpl in H. inv_completion.
    apply elem_of_cons in Hin as [->|Hin].
    + eexists. split; [apply list_elem_of_here | done].
    + destruct (IH _ eq_refl Hin) as (b & Hb & Hf).
      exists b. split; [by apply list_elem_of_further | done].
Qed.

Lemma filterM_throws {A} (f : A → completion bool) (l : list A) (a : A) e :
  a ∈ l → f a = Throw e → ∃ e', filterM f l = Throw e'.
Proof.
  intros Hin Hf. induction l as [|x l IH].
  - by apply elem_of_nil in Hin.
  - simpl. apply elem_of_cons in Hin as [<-|Hin].
    + rewrite Hf. simpl. eauto.
    + destruct (f x); simpl; [|eauto].
      destruct (IH Hin) as [e' ->]. simpl. eauto.
Qed.

Lemma pool_values_elem st k p : pools st !! k = Some p → p ∈ pool_values st.
Proof.
  intros H. unfold pool_values. apply list_elem_of_fmap.
  exists (k, p). split; [done|]. by apply pool_entries_spec.
Qed.

(** With a goal that is not an integer literal, the "actionable" filter
    throws on the pool, with or without its derived status. *)
Lemma actionable_throws now (p : obj) s :
  obj_get p "goal" = JString "undefined" →
  ∃ e, actionable now (obj_literal p [("status", JString s)]) = Throw e.
Proof.
  intros Hg. unfold actionable, obj_literal. simpl fold_left.
  rewrite !(obj_get_set_ne _ "status") by done. rewrite Hg.
  destruct (js_BigInt (obj_get p "raised")); simpl; eauto.
Qed.

(** A stored pool whose goal is the string "undefined" makes the listing
    fail. *)
Lemma listing_fails q now st k (p : obj) :
  pools st !! k = Some p →
  obj_get p "goal" = JString "undefined" →
  ∃ b, api_pools_listing q now st = Respond {| status := 500; body := b |}.
Proof.
  intros Hk Hg. unfold api_pools_listing.
  destruct (mapM (with_status now) (pool_values st)) as [list|e] eqn:E;
    [|simpl; eauto].
  destruct (mapM_elem _ _ _ p E (pool_values_elem _ _ _ Hk)) as (b & Hb & Hs).
  unfold with_status in Hs. inv_completion.
  destruct list as [|x list]; [by apply elem_of_nil in Hb|]. simpl length.
  cbn [Nat.eqb andb].
  destruct (actionable_throws now p a Hg) as [e He].
  destruct (filterM_throws (actionable now) _ _ _ Hb He) as [e' He'].
  unfold api_pools_send. rewrite He'. simpl. eauto.
Qed.

(** C9, as stated, fails for "every subsequent" listing: the record
    stays only until something replaces it.  After a creation event for
    the same id, which the pass awaited by the listing may well apply, the
    stored pool has the goal of the event and the listing answers 200. *)
Lemma C9_listing_recovers :
  let body := JObject [("pool", JObject [("id", JNumber (Num 7))])] in
  let q := {| q_resync := JUndefined; q_retried := JUndefined;
              q_all := JUndefined; q_filter := JUndefined |} in
  let st' := (register_pool "t" body initial_state NoFile).1.1 in
  let c := sample_event "pool_created" 7
             (JObject [("goal", JBigInt 1000); ("deadline", JBigInt 2000000000)]) 12 in
  let st'' := after_event st' c in
  (∃ p, pools st' !! "7" = Some p ∧ obj_get p "goal" = JString "undefined")
  ∧ api_pools_listing q 1700000000 st'
    = Respond {| status := 500; body := JObject [("error", JString "SyntaxError")] |}
  ∧ (∃ p, pools st'' !! "7" = Some p ∧ obj_get p "goal" = JString "1000")
  ∧ ∃ b, api_pools_listing q 1700000000 st'' = Respond {| status := 200; body := b |}.
Proof.
  split; [eexists; split; vm_compute; reflexivity|].
  split; [vm_compute; reflexivity|].
  split; [eexists; split; vm_compute; reflexivity|].
  eexists. vm_compute. reflexivity.
Qed.

(** C9, amended. A pool record with an id and no [goal] is accepted with
    status 200: the registry stores, under [String(Number(id))], the
    record with its id as a number, the goal "undefined" and the other
    fields normalised, and is saved.  The listing made right after
    answers 500, and so does every listing for as long as that record is
    the one stored under its key: after any events about other pools, and
    in any state that still holds it.  For a record that is neither
    finalized nor expired it is the status derivation itself that throws,
    on [BigInt("undefined")]; otherwise the "actionable" filter does. *)
Theorem C9_register_without_goal
    (now : string) (body : jsval) (pool : obj) (st : state) (d : file) :
  get_prop (js_or body (JObject [])) "pool" = JObject pool →
  nullish (obj_get pool "id") = false →
  js_String (obj_get pool "id") ≠ "" →
  obj_get pool "goal" = JUndefined →
  let id := JNumber (js_Number (JString (js_String (obj_get pool "id")))) in
  let stored :=
    obj_literal pool
      [ ("id", id);
        ("goal", JString "undefined");
        ("raised", JString (js_String (coalesce (obj_get pool "raised") (JNumber (Num 0)))));
        ("deadline", JNumber (js_Number (obj_get pool "deadline")));
        ("finalized", js_Boolean (obj_get pool "finalized")) ] in
  let st' := pools_set (js_String id) stored st in
  register_pool now body st d
  = (st', saveState now st' d,
     {| status := 200; body := JObject [("ok", JBool true)] |})
  ∧ pools st' !! js_String id = Some stored
  ∧ obj_get stored "goal" = JString "undefined"
  ∧ (∀ q t, ∃ b, api_pools_listing q t st' = Respond {| status := 500; body := b |})
  ∧ (∀ q t es,
       Forall (fun e => event_key e ≠ Some (js_String id)) es →
       ∃ b, api_pools_listing q t (after_events st' es)
            = Respond {| status := 500; body := b |})
  ∧ (∀ q t st'',
       pools st'' !! js_String id = Some stored →
       ∃ b, api_pools_listing q t st'' = Respond {| status := 500; body := b |})
  ∧ (∀ t r, truthy (obj_get stored "finalized") = false →
       expired t stored = false →
       js_BigInt (obj_get stored "raised") = Return r →
       pool_status t stored = Throw SyntaxError).
Proof.
  intros Hpool Hid Hne Hgoal id stored st'.
  assert (obj_get stored "goal" = JString "undefined"
          ∧ obj_get stored "id" = id) as [Hg Hi].
  { unfold stored, obj_literal. simpl. split.
    - rewrite !(obj_get_set_ne "goal") by done. apply obj_get_set_eq.
    - rewrite !(obj_get_set_ne "id") by done. apply obj_get_set_eq. }
  assert (pools st' !! js_String id = Some stored) as Hk by apply lookup_insert_eq.
  split; [|split; [done|split; [done|split; [|split; [|split]]]]].
  - unfold register_pool. rewrite Hpool. cbn [truthy negb get_prop].
    assert (coalesce (obj_get pool "id")
              (coalesce (obj_get pool "pool_id") (obj_get pool "poolId"))
            = obj_get pool "id") as -> by (unfold coalesce; by rewrite Hid).
    apply String.eqb_neq in Hne. rewrite Hne. rewrite Hgoal.
    change (obj_literal (spread (JObject pool)) _) with stored.
    by rewrite Hi.
  - intros q t. by eapply listing_fails.
  - intros q t es Hes. eapply listing_fails; [|exact Hg].
    rewrite (proj1 (after_events_other es st' _ Hes)). exact Hk.
  - intros q t st'' Hk''. by eapply listing_fails.
  - intros t r Hf He Hr. unfold pool_status. rewrite Hf, He, Hr, Hg. done.
Qed.

Lemma C9_register_without_goal_witness :
  let pool := [("id", JNumber (Num 7))] in
  let body := JObject [("pool", JObject pool)] in
  let id := JNumber (js_Number (JString (js_String (obj_get pool "id")))) in
  let stored :=
    obj_literal pool
      [ ("id", id);
        ("goal", JString "undefined");
        ("raised", JString (js_String (coalesce (obj_get pool "raised") (JNumber (Num 0)))));
        ("deadline", JNumber (js_Number (obj_get pool "deadline")));
        ("finalized", js_Boolean (obj_get pool "finalized")) ] in
  let st' := pools_set (js_String id) stored initial_state in
  register_pool "t" body initial_state NoFile
  = (st', saveState "t" st' NoFile,
     {| status := 200; body := JObject [("ok", JBool true)] |})
  ∧ pools st' !! js_String id = Some stored
  ∧ obj_get stored "goal" = JString "undefined"
  ∧ (∀ q t, ∃ b, api_pools_listing q t st' = Respond {| status := 500; body := b |})
  ∧ (∀ q t es,
       Forall (fun e => event_key e ≠ Some (js_String id)) es →
       ∃ b, api_pools_listing q t (after_events st' es)
            = Respond {| status := 500; body := b |})
  ∧ (∀ q t st'',
       pools st'' !! js_String id = Some stored →
       ∃ b, api_pools_listing q t st'' = Respond {| status := 500; body := b |})
  ∧ (∀ t r, truthy (obj_get stored "finalized") = false →
       expired t stored = false →
       js_BigInt (obj_get stored "raised") = Return r →
       pool_status t stored = Throw SyntaxError).
Proof.
  apply (C9_register_without_goal "t"
           (JObject [("pool", JObject [("id", JNumber (Num 7))])])
           [("id", JNumber (Num 7))] initial_state NoFile);
    [reflexivity | reflexivity | discriminate | reflexivity].
Defined.

(** * Further properties of the code *)

(** ** Amount extraction *)

Lemma take_digits_uint d :
  take_digits (NilEmpty.string_of_uint d) = (NilEmpty.string_of_uint d, "").
Proof. induction d; simpl; [done|..]; by rewrite IHd. Qed.

Lemma re_integer_string_of_Z z : re_integer (string_of_Z z) = true.
Proof.
  unfold re_integer, string_of_Z, digits1.
  destruct z as [|p|p]; [done|..]; simpl;
    pose proof (DecimalPos.Unsigned.to_uint_nonnil p) as Hn;
    pose proof (take_digits_uint (Pos.to_uint p)) as Ht;
    destruct (Pos.to_uint p); try done; simpl in *;
    by destruct (take_digits _) as [ds r]; simplify_eq.
Qed.

(** X1. An amount that arrives as a bigint, as an integer number, or as
    the decimal string of an integer (negative ones too), is read back
    exactly. *)
Theorem extractAmount_exact (z : Z) :
  extractAmount (JBigInt z) = z
  ∧ extractAmount (JString (string_of_Z z)) = z
  ∧ extractAmount (JNumber (Num z)) = z.
Proof.
  split; [done|]. split; [|done].
  cbn [extractAmount]. rewrite re_integer_string_of_Z, js_BigInt_string_of_Z. done.
Qed.

Lemma amount_of_fields_array items ks : amount_of_fields (JArray items) ks = None.
Proof. induction ks as [|k ks IH]; [done|]. simpl. exact IH. Qed.

(** X2. In a tuple payload the amount is that of the first element that
    yields a non-zero amount; elements that carry none count as zero, and a
    tuple with no amount at all gives zero. *)
Theorem extractAmount_array (items : list jsval) :
  extractAmount (JArray items) = first_nonzero (map extractAmount items).
Proof.
  cbn [extractAmount]. rewrite amount_of_fields_array.
  induction items as [|it items IH]; [done|].
  cbn [map first_nonzero]. by rewrite <- IH.
Qed.

(** X3. In a struct payload the field names are tried in the order
    [amount], [delta], [value], [raised], [contribution], and the first one
    that is present decides alone: when it does not convert to an integer
    the amount is zero, whatever the later fields hold; when none is
    present the amount is zero. *)
Theorem extractAmount_fields (o : obj) :
  (∀ k before after,
     amount_fields = (before ++ k :: after)%list →
     Forall (fun k' => nullish (obj_get o k') = true) before →
     nullish (obj_get o k) = false →
     extractAmount (JObject o) = or_zero (js_BigInt (obj_get o k)))
  ∧ (Forall (fun k' => nullish (obj_get o k') = true) amount_fields →
     extractAmount (JObject o) = 0).
Proof.
  assert (∀ ks k before after,
            ks = (before ++ k :: after)%list →
            Forall (fun k' => nullish (obj_get o k') = true) before →
            nullish (obj_get o k) = false →
            amount_of_fields (JObject o) ks = Some (js_BigInt (obj_get o k))) as Hfirst.
  { intros ks k before. revert ks.
    induction before as [|b before IH]; intros ks after -> Hb Hk; simpl.
    - by rewrite Hk.
    - apply Forall_cons in Hb as [Hb1 Hb]. rewrite Hb1. simpl. by eapply IH. }
  assert (∀ ks, Forall (fun k' => nullish (obj_get o k') = true) ks →
                amount_of_fields (JObject o) ks = None) as Hnone.
  { induction 1 as [|k ks Hk _ IH]; [done|]. simpl. by rewrite Hk. }
  split.
  - intros k before after Hks Hb Hk. cbn [extractAmount].
    by rewrite (Hfirst _ _ _ _ Hks Hb Hk).
  - intros Hall. cbn [extractAmount]. by rewrite (Hnone _ Hall).
Qed.

Lemma extractAmount_fields_witness :
  extractAmount (JObject [("delta", JString "x"); ("value", JBigInt 5)]) = 0
  ∧ extractAmount (JObject [("memo", JString "hi")]) = 0.
Proof.
  split.
  - refine (proj1 (extractAmount_fields _) "delta" ["amount"] ["value"; "raised"; "contribution"] _ _ _);
      [reflexivity | by repeat constructor | reflexivity].
  - apply (proj2 (extractAmount_fields _)). by repeat constructor.
Defined.

(** ** The reconciler, branch by branch *)

Lemma contribution_added st e key p r :
  contributes_to key e = true →
  pools st !! key = Some p →
  stored_raised p = Return r →
  pools (after_event st e) !! key
  = Some (obj_set "raised" (JString (string_of_Z (r + delta e))) p).
Proof.
  intros [Hk Hb]%andb_prop Hp Hr. apply bool_decide_eq_true in Hk, Hb.
  destruct (after_event_branch st e key _ Hk Hb) as (t & Hd & Hkey & Hpe).
  unfold after_event. rewrite Hpe. unfold reconcile. rewrite Hd, Hkey, Hp.
  unfold stored_raised in Hr. rewrite Hr. simpl. by rewrite lookup_insert_eq.
Qed.

Lemma stored_raised_set z p :
  stored_raised (obj_set "raised" (JString (string_of_Z z)) p) = Return z.
Proof.
  unfold stored_raised. rewrite obj_get_set_eq.
  change (coalesce (JString ?s) _) with (JString s). apply js_BigInt_string_of_Z.
Qed.

(** X4. Contributions to a pool that is in the registry add up in its
    [raised], with no check that an event was seen before: the same event
    applied twice counts twice.  The other fields of the pool are left as
    they were, and events about other pools may be interleaved. *)
Theorem contributions_accumulate (key : string) (es : list event) :
  ∀ st p r,
    pools st !! key = Some p →
    stored_raised p = Return r →
    only_contributions key es = true →
    ∃ p', pools (after_events st es) !! key = Some p'
          ∧ stored_raised p' = Return (r + sum_deltas key es)
          ∧ ∀ k, k ≠ "raised" → obj_get p' k = obj_get p k.
Proof.
  induction es as [|e es IH]; intros st p r Hp Hr Hes; simpl in *.
  - exists p. rewrite Z.add_0_r. done.
  - apply andb_prop in Hes as [He Hes].
    destruct (contributes_to key e) eqn:Hc.
    + pose proof (contribution_added st e key p r Hc Hp Hr) as Hp'.
      destruct (IH _ _ _ Hp' (stored_raised_set _ _) Hes) as (p' & Hk & Hr' & Hother).
      exists p'. split; [done|]. split.
      * rewrite Hr'. f_equal. lia.
      * intros k Hne. rewrite (Hother k Hne). by apply obj_get_set_ne.
    + rewrite orb_false_r in He. apply negb_true_iff, bool_decide_eq_false in He.
      destruct (after_event_other st e key He) as [Hp' _].
      rewrite <- Hp' in Hp. by apply (IH _ _ _ Hp Hr Hes).
Qed.

Lemma contributions_accumulate_witness :
  let st := after_event initial_state sample_creation in
  let e := sample_event "ctr" 1 (JBigInt 600) 13 in
  ∃ p', pools (after_events st [e; e]) !! "1" = Some p'
        ∧ stored_raised p' = Return (0 + sum_deltas "1" [e; e])
        ∧ ∀ k, k ≠ "raised"
               → obj_get p' k
                 = obj_get (created_pool (event_pid sample_creation)
                              (event_native sample_creation)) k.
Proof.
  intros st e.
  apply (contributions_accumulate "1" [e; e] st
           (created_pool (event_pid sample_creation) (event_native sample_creation)) 0);
    vm_compute; reflexivity.
Defined.

(** X5. A creation event replaces whatever is stored for its pool (last
    write wins): when the orphan buffer holds nothing for the pool, or
    zero, the stored pool is the one built from the payload alone, so
    contributions merged into an earlier record are gone. *)
Theorem creation_overwrites (st : state) (key : string) (c : event) :
  creates key c = true →
  default 0 (pendingRaised st !! key) = 0 →
  pools (after_event st c) !! key
  = Some (created_pool (event_pid c) (event_native c))
  ∧ pendingRaised (after_event st c) = pendingRaised st.
Proof.
  intros Hc Hb. pose proof (creation_applied st c key Hc) as H. simpl in H.
  destruct (pendingRaised st !! key) as [buff|]; simpl in *; subst; simpl in H;
    destruct H as [-> ->]; by rewrite lookup_insert_eq.
Qed.

Lemma creation_overwrites_witness :
  let st := after_events initial_state funded_story in
  pools (after_event st sample_creation) !! "1"
  = Some (created_pool (event_pid sample_creation) (event_native sample_creation))
  ∧ pendingRaised (after_event st sample_creation) = pendingRaised st.
Proof.
  apply (creation_overwrites (after_events initial_state funded_story) "1" sample_creation);
    vm_compute; reflexivity.
Defined.

Lemma obj_set_twice k v (o : obj) : obj_set k v (obj_set k v o) = obj_set k v o.
Proof.
  induction o as [|[k' v'] o IH]; simpl.
  - by rewrite String.eqb_refl.
  - destruct (String.eqb k' k) eqn:E; simpl.
    + by rewrite String.eqb_refl.
    + by rewrite E, IH.
Qed.

Lemma finalize_applied st e key :
  finalizes key e = true →
  after_event st e
  = set_lastScannedLedger (Z.max (lastScannedLedger st) (event_ledger e))
      match pools st !! key with
      | Some p => pools_set key (obj_set "finalized" (JBool true) p) st
      | None => st
      end.
Proof.
  intros [Hk Hb]%andb_prop. apply bool_decide_eq_true in Hk, Hb.
  destruct (after_event_branch st e key _ Hk Hb) as (t & Hd & Hkey & Hpe).
  unfold after_event. rewrite Hpe. unfold reconcile. rewrite Hd, Hkey.
  by destruct (pools st !! key).
Qed.

(** X6. A finalize event marks a stored pool as finalized, changes no
    other field of it, and makes its derived status [finalized] at any
    time; applying it again changes nothing more.  For a pool that is not
    in the registry it is dropped: neither the registry nor the orphan
    buffer changes. *)
Theorem finalize_event (st : state) (key : string) (e : event) :
  finalizes key e = true →
  (∀ p, pools st !! key = Some p →
     pools (after_event st e) !! key = Some (obj_set "finalized" (JBool true) p)
     ∧ (∀ k, k ≠ "finalized" →
          obj_get (obj_set "finalized" (JBool true) p) k = obj_get p k)
     ∧ (∀ now, pool_status now (obj_set "finalized" (JBool true) p) = Return "finalized")
     ∧ pools (after_event (after_event st e) e) = pools (after_event st e))
  ∧ (pools st !! key = None →
     pools (after_event st e) = pools st
     ∧ pendingRaised (after_event st e) = pendingRaised st).
Proof.
  intros Hf. split.
  - intros p Hp. rewrite !(finalize_applied _ e key Hf), Hp. simpl.
    rewrite lookup_insert_eq. split; [done|]. split.
    { intros k Hne. by apply obj_get_set_ne. }
    split.
    { intros now. unfold pool_status. by rewrite obj_get_set_eq. }
    simpl. by rewrite insert_insert_eq, obj_set_twice.
  - intros Hp. by rewrite (finalize_applied _ e key Hf), Hp.
Qed.

Lemma finalize_event_witness :
  let st := after_event initial_state sample_creation in
  let e := sample_event "fn" 1 JNull 20 in
  let p := created_pool (event_pid sample_creation) (event_native sample_creation) in
  (pools (after_event st e) !! "1" = Some (obj_set "finalized" (JBool true) p)
   ∧ (∀ k, k ≠ "finalized" →
        obj_get (obj_set "finalized" (JBool true) p) k = obj_get p k)
   ∧ (∀ now, pool_status now (obj_set "finalized" (JBool true) p) = Return "finalized")
   ∧ pools (after_event (after_event st e) e) = pools (after_event st e))
  ∧ (pools (after_event initial_state e) = pools initial_state
     ∧ pendingRaised (after_event initial_state e) = pendingRaised initial_state).
Proof.
  intros st e p. split.
  - apply (proj1 (finalize_event st "1" e ltac:(vm_compute; reflexivity)) p).
    vm_compute. reflexivity.
  - apply (proj2 (finalize_event initial_state "1" e ltac:(vm_compute; reflexivity))).
    vm_compute. reflexivity.
Defined.

Lemma created_pool_finalized pid native :
  obj_get (created_pool pid native) "finalized" = js_Boolean (get_prop native "finalized").
Proof. unfold created_pool, obj_literal. simpl. apply obj_get_set_eq. Qed.

Lemma created_pool_fields pid native :
  obj_get (created_pool pid native) "id" = pid
  ∧ obj_get (created_pool pid native) "goal"
    = JString (js_String (coalesce (get_prop native "goal")
                            (coalesce (get_prop native "target") (JNumber (Num 0)))))
  ∧ obj_get (created_pool pid native) "deadline"
    = JNumber (js_Number (coalesce (get_prop native "deadline") (JNumber (Num 0)))).
Proof.
  unfold created_pool, obj_literal. simpl.
  split; [|split].
  - rewrite !(obj_get_set_ne "id") by done. apply obj_get_set_eq.
  - rewrite !(obj_get_set_ne "goal") by done. apply obj_get_set_eq.
  - rewrite !(obj_get_set_ne "deadline") by done. apply obj_get_set_eq.
Qed.

(** X7. The pool a creation event stores takes every normalised field
    from the payload alone, except that the orphan buffer is added to
    [raised]: the id is the resolved one, [goal] is the string of the
    payload's [goal] (else [target], else 0), [deadline] its number,
    [finalized] its truth value.  Nothing of an earlier record survives,
    so a finalize event seen before the creation event (dropped if the
    pool was absent, applied if it was stored) is lost. *)
Theorem creation_decides_fields (st : state) (key : string) (c : event) (r : Z) :
  creates key c = true →
  payload_raised (event_native c) = Return r →
  let native := event_native c in
  ∃ p, pools (after_event st c) !! key = Some p
       ∧ obj_get p "id" = event_pid c
       ∧ obj_get p "goal"
         = JString (js_String (coalesce (get_prop native "goal")
                                 (coalesce (get_prop native "target") (JNumber (Num 0)))))
       ∧ stored_raised p = Return (r + default 0 (pendingRaised st !! key))
       ∧ obj_get p "deadline"
         = JNumber (js_Number (coalesce (get_prop native "deadline") (JNumber (Num 0))))
       ∧ obj_get p "finalized" = JBool (truthy (get_prop native "finalized")).
Proof.
  intros Hc Hr native.
  destruct (created_pool_fields (event_pid c) native) as (Hid & Hgoal & Hdl).
  pose proof (created_pool_finalized (event_pid c) native) as Hfin.
  pose proof (created_pool_raised (event_pid c) native) as Hraised.
  assert (stored_raised (created_pool (event_pid c) native) = Return r) as Hsr.
  { unfold stored_raised. rewrite Hraised. exact Hr. }
  pose proof (creation_applied st c key Hc) as H. simpl in H.
  fold native in H. unfold stored_raised in Hsr.
  destruct (pendingRaised st !! key) as [buff|]; simpl.
  - destruct (buff =? 0) eqn:Hz; simpl in H.
    + apply Z.eqb_eq in Hz as ->.
      destruct H as [-> _]. rewrite lookup_insert_eq. eexists. split; [done|].
      rewrite Z.add_0_r. done.
    + rewrite Hsr in H. destruct H as [-> _].
      rewrite lookup_insert_eq. eexists. split; [done|].
      rewrite !obj_get_set_ne by done. rewrite stored_raised_set. done.
  - destruct H as [-> _]. rewrite lookup_insert_eq. eexists. split; [done|].
    rewrite Z.add_0_r. done.
Qed.

Lemma creation_decides_fields_witness :
  let st := after_events initial_state
              [ sample_event "ctr" 1 (JBigInt 5) 2; sample_event "fn" 1 JNull 3 ] in
  let native := event_native sample_creation in
  ∃ p, pools (after_event st sample_creation) !! "1" = Some p
       ∧ obj_get p "id" = event_pid sample_creation
       ∧ obj_get p "goal"
         = JString (js_String (coalesce (get_prop native "goal")
                                 (coalesce (get_prop native "target") (JNumber (Num 0)))))
       ∧ stored_raised p = Return (0 + default 0 (pendingRaised st !! "1"))
       ∧ obj_get p "deadline"
         = JNumber (js_Number (coalesce (get_prop native "deadline") (JNumber (Num 0))))
       ∧ obj_get p "finalized" = JBool (truthy (get_prop native "finalized")).
Proof.
  intros st native.
  apply (creation_decides_fields st "1" sample_creation 0); vm_compute; reflexivity.
Defined.

Lemma fallback_applied st e key :
  falls_back key e = true →
  let native := event_native e in
  let p := default (default_pool (event_pid e)) (pools st !! key) in
  after_event st e
  = set_lastScannedLedger (Z.max (lastScannedLedger st) (event_ledger e))
      (pools_set key
         (if truthy native && String.eqb (typeof native) "object" then
            overlay native "finalized" js_Boolean
              (overlay native "deadline" (fun v => JNumber (js_Number v))
                 (overlay native "raised" (fun v => JString (js_String v))
                    (overlay native "goal" (fun v => JString (js_String v)) p)))
          else p) st).
Proof.
  intros [Hk Hb]%andb_prop. apply bool_decide_eq_true in Hk, Hb.
  destruct (after_event_branch st e key _ Hk Hb) as (t & Hd & Hkey & Hpe).
  unfold after_event. rewrite Hpe. unfold reconcile. by rewrite Hd, Hkey.
Qed.

Lemma overlay_get native k conv (p : obj) k' :
  obj_get (overlay native k conv p) k'
  = if String.eqb k k' && negb (nullish (get_prop native k))
    then conv (get_prop native k) else obj_get p k'.
Proof.
  unfold overlay. destruct (nullish (get_prop native k)); simpl.
  - by rewrite andb_false_r.
  - rewrite andb_true_r. destruct (String.eqb_spec k k') as [<-|Hne].
    + apply obj_get_set_eq.
    + apply obj_get_set_ne. congruence.
Qed.

(** X8. An event with an unrecognised tag and a resolvable id always
    leaves a pool in the registry for that id: the stored one, or a new
    one with goal and raised "0", deadline 0 and not finalized.  Each of
    [goal], [raised], [deadline], [finalized] that the payload carries
    replaces the stored value; the id is kept.  The orphan buffer is not
    read and not changed, so buffered contributions are not merged into a
    pool that comes to exist this way. *)
Theorem fallback_event (st : state) (key : string) (e : event) :
  falls_back key e = true →
  let before := default (default_pool (event_pid e)) (pools st !! key) in
  ∃ p, pools (after_event st e) !! key = Some p
       ∧ pendingRaised (after_event st e) = pendingRaised st
       ∧ obj_get p "id" = obj_get before "id"
       ∧ (nullish (get_prop (event_native e) "goal") = true →
          obj_get p "goal" = obj_get before "goal")
       ∧ (nullish (get_prop (event_native e) "goal") = false →
          obj_get p "goal" = JString (js_String (get_prop (event_native e) "goal")))
       ∧ (nullish (get_prop (event_native e) "raised") = true →
          obj_get p "raised" = obj_get before "raised")
       ∧ (nullish (get_prop (event_native e) "raised") = false →
          obj_get p "raised" = JString (js_String (get_prop (event_native e) "raised"))).
Proof.
  intros Hf before. rewrite (fallback_applied _ e key Hf). simpl.
  rewrite lookup_insert_eq. eexists. split; [done|]. split; [done|].
  fold before.
  destruct (truthy (event_native e) && String.eqb (typeof (event_native e)) "object") eqn:Hobj.
  - rewrite !overlay_get. simpl.
    repeat split; try done; intros ->; done.
  - assert (∀ k, get_prop (event_native e) k = JUndefined) as Hundef.
    { intros k. by destruct (event_native e). }
    rewrite !Hundef. simpl. repeat split; done.
Qed.

Lemma fallback_event_witness :
  let e := sample_event "refund_opened" 4 (JObject [("goal", JBigInt 70)]) 8 in
  let st := after_event initial_state (sample_event "ctr" 4 (JBigInt 9) 7) in
  let before := default (default_pool (event_pid e)) (pools st !! "4") in
  ∃ p, pools (after_event st e) !! "4" = Some p
       ∧ pendingRaised (after_event st e) = pendingRaised st
       ∧ obj_get p "id" = obj_get before "id"
       ∧ (nullish (get_prop (event_native e) "goal") = true →
          obj_get p "goal" = obj_get before "goal")
       ∧ (nullish (get_prop (event_native e) "goal") = false →
          obj_get p "goal" = JString (js_String (get_prop (event_native e) "goal")))
       ∧ (nullish (get_prop (event_native e) "raised") = true →
          obj_get p "raised" = obj_get before "raised")
       ∧ (nullish (get_prop (event_native e) "raised") = false →
          obj_get p "raised" = JString (js_String (get_prop (event_native e) "raised"))).
Proof.
  intros e st.
  apply (fallback_event st "4" e). vm_compute. reflexivity.
Defined.

(** ** Invariants of the registry *)

Lemma keyed_insert st key (o : obj) :
  keyed st → js_String (obj_get o "id") = key → keyed (pools_set key o st).
Proof.
  intros Hst Ho k p. simpl. rewrite lookup_insert.
  case_decide; [intros [= <-]; congruence | apply Hst].
Qed.

Lemma reconcile_keyed st tagNorm pid native :
  keyed st → keyed (reconcile st tagNorm pid native).1.
Proof.
  intros Hst. unfold reconcile.
  destruct (created_pool_fields pid native) as (Hid & _ & _).
  destruct (dispatch tagNorm).
  - destruct (pendingRaised st !! js_String pid) as [buff|];
      [destruct (negb (buff =? 0)); [destruct (js_BigInt _); [|done]|]|]; simpl.
    + apply (keyed_insert (set_pendingRaised _ st)); [exact Hst|].
      rewrite obj_get_set_ne by done. by rewrite Hid.
    + apply keyed_insert; [done | by rewrite Hid].
    + apply keyed_insert; [done | by rewrite Hid].
  - destruct (pools st !! js_String pid) as [p|] eqn:Hp;
      [destruct (js_BigInt _); [|done]|]; simpl.
    + apply keyed_insert; [done|]. rewrite obj_get_set_ne by done. by apply Hst.
    + exact Hst.
  - destruct (pools st !! js_String pid) as [p|] eqn:Hp; simpl.
    + apply keyed_insert; [done|]. rewrite obj_get_set_ne by done. by apply Hst.
    + exact Hst.
  - simpl. apply keyed_insert; [done|].
    assert (js_String (obj_get (default (default_pool pid) (pools st !! js_String pid)) "id")
            = js_String pid) as Hdef.
    { destruct (pools st !! js_String pid) as [p|] eqn:Hp; simpl; [by apply Hst | done]. }
    destruct (truthy native && String.eqb (typeof native) "object"); [|done].
    by rewrite !overlay_get.
Qed.

Lemma after_event_keyed st e : keyed st → keyed (after_event st e).
Proof.
  intros Hst.
  destruct (after_event_cases st e) as [->|(t & _ & _ & Hp & _)]; [done|].
  intros k p. rewrite Hp. by apply reconcile_keyed.
Qed.

(** What every event keeps, a page keeps, and so does a step of a pass. *)
Lemma process_events_preserves (P : state → Prop) :
  (∀ st e, P st → P (after_event st e)) →
  ∀ es st n, P st → P (process_events st n es).1.
Proof.
  intros HP. induction es as [|e es IH]; intros st n Hst; simpl; [done|].
  specialize (HP st e Hst). unfold after_event in HP.
  destruct (process_event st e) as [st' [[|]|err]]; simpl in *; auto.
Qed.

Lemma resume_preserves (P : state → Prop) now st d k r st' d' pr :
  (∀ st e, P st → P (after_event st e)) →
  P st → resume now st d k r = Some (st', d', pr) → P st'.
Proof.
  intros HP Hst. unfold resume, end_of_body.
  destruct k as [f|latest start token n], r as [[a|msg]|[ev|msg]]; try done.
  - by intros [= <- _ _].
  - by intros [= <- _ _].
  - pose proof (process_events_preserves P HP (events ev) st n Hst) as H.
    destruct (process_events st n (events ev)) as [st1 [m|err]];
      repeat case_match; intros; simplify_eq; done.
  - destruct (on_fetch_error msg latest start token) as [[c start'] token'].
    repeat case_match; intros; simplify_eq; done.
Qed.

Lemma step_preserves (P : state → Prop) s i :
  (∀ st e, P st → P (after_event st e)) →
  (∀ st, P st → P (set_lastScannedLedger 0 st)) →
  (∀ now body st d, P st → P (register_pool now body st d).1.1) →
  P (app s) → P (app (step s i)).
Proof.
  intros Hev Hreset Hreg Hs.
  destruct i as [f|now r| |now b|now]; simpl.
  - unfold hydrateFromEvents. by destruct (hydratingPromise s) as [[p k]|].
  - unfold rpc_settles. destruct (hydratingPromise s) as [[p k]|]; [|done].
    destruct (resume now (app s) (disk s) k r) as [[[st' d'] pr]|] eqn:E; [|done].
    apply (resume_preserves P _ _ _ _ _ _ _ _ Hev Hs) in E.
    destruct pr as [k'|c]; [done|]. by destruct (try_catch_finally c).
  - by apply Hreset.
  - specialize (Hreg now b (app s) (disk s) Hs).
    by destruct (register_pool now b (app s) (disk s)) as [[st' d'] resp].
  - done.
Qed.

Lemma run_preserves (P : state → Prop) inputs :
  (∀ st e, P st → P (after_event st e)) →
  (∀ st, P st → P (set_lastScannedLedger 0 st)) →
  (∀ now body st d, P st → P (register_pool now body st d).1.1) →
  ∀ s, P (app s) → P (app (run s inputs)).
Proof.
  intros Hev Hreset Hreg. induction inputs as [|i inputs IH]; intros s Hs; [done|].
  apply IH. by apply step_preserves.
Qed.

Lemma register_pool_keyed now body st d :
  keyed st → keyed (register_pool now body st d).1.1.
Proof.
  intros Hst. unfold register_pool.
  repeat case_match; simpl; try done. by apply keyed_insert.
Qed.

Lemma restore_pools_keyed ps k p :
  restore_pools ps !! k = Some p → js_String (obj_get p "id") = k.
Proof.
  unfold restore_pools.
  assert (∀ m : gmap string obj,
            (∀ k p, m !! k = Some p → js_String (obj_get p "id") = k) →
            ∀ k p, fold_left (fun m p => <[js_String (obj_get p "id") := p]> m) ps m !! k
                   = Some p → js_String (obj_get p "id") = k) as H.
  { induction ps as [|q ps IH]; intros m Hm; simpl; [done|].
    apply IH. intros k' p'. rewrite lookup_insert.
    case_decide; [by intros [= <-] | apply Hm]. }
  apply H. intros k' p'. by rewrite lookup_empty.
Qed.

(** X9. Hydration and single registration store every pool under the
    key [String(pool.id)]: if that holds of the registry, it holds after
    any event, after [POST /api/pools/register] and after any number of
    turns of the server; and it holds of any registry restored from a
    snapshot. *)
Theorem pools_stored_under_their_id :
  (∀ st e, keyed st → keyed (after_event st e))
  ∧ (∀ now body st d, keyed st → keyed (register_pool now body st d).1.1)
  ∧ (∀ data st, keyed (loadState (Snapshot data) st))
  ∧ (∀ s inputs, keyed (app s) → keyed (app (run s inputs))).
Proof.
  split; [apply after_event_keyed|]. split; [apply register_pool_keyed|]. split.
  - intros data st k p. unfold loadState. cbn [pools set_lastScannedLedger].
    rewrite pools_restore. apply restore_pools_keyed.
  - intros s inputs. apply run_preserves;
      [apply after_event_keyed | done | apply register_pool_keyed].
Qed.

Lemma pools_stored_under_their_id_witness :
  keyed (after_event initial_state sample_creation)
  ∧ keyed (app (run (started_with initial_state NoFile)
                  [ CallHydrate None; RpcSettles "t0" (LatestLedger (Fulfilled 200000));
                    RpcSettles "t1" (Events (Fulfilled
                      {| events := funded_story; nextToken := None |})) ])).
Proof.
  destruct pools_stored_under_their_id as (Hev & _ & _ & Hrun).
  split.
  - apply Hev. intros k p H. vm_compute in H. discriminate H.
  - apply Hrun. intros k p H. vm_compute in H. discriminate H.
Defined.

Lemma reconcile_keeps st tagNorm pid native k :
  is_Some (pools st !! k) → is_Some (pools (reconcile st tagNorm pid native).1 !! k).
Proof.
  intros Hk. rewrite <- elem_of_dom in *.
  reconcile_cases st pid; rewrite ?dom_insert_L; set_solver.
Qed.

(** X10. No pool is ever removed: a pool that is in the registry is
    still there after any event, and after any number of turns of the
    running server (passes, single registrations, cursor resets, timer
    saves). *)
Theorem pools_are_never_removed :
  (∀ st e k, is_Some (pools st !! k) → is_Some (pools (after_event st e) !! k))
  ∧ (∀ s inputs k,
       is_Some (pools (app s) !! k) → is_Some (pools (app (run s inputs)) !! k)).
Proof.
  assert (∀ st e k, is_Some (pools st !! k) → is_Some (pools (after_event st e) !! k))
    as Hev.
  { intros st e k Hk.
    destruct (after_event_cases st e) as [->|(t & _ & _ & -> & _)]; [done|].
    by apply reconcile_keeps. }
  split; [exact Hev|].
  intros s inputs k. apply (run_preserves (fun st => is_Some (pools st !! k))).
  - intros st e. apply Hev.
  - done.
  - intros now body st d Hk. unfold register_pool.
    repeat case_match; simpl; try done.
    rewrite lookup_insert. case_decide; [eauto | done].
Qed.

Lemma pools_are_never_removed_witness :
  let st := after_event initial_state sample_creation in
  is_Some (pools (after_event st (sample_event "fn" 1 JNull 20)) !! "1").
Proof.
  apply (proj1 pools_are_never_removed). vm_compute. eauto.
Defined.

Lemma string_of_Z_inj a b : string_of_Z a = string_of_Z b → a = b.
Proof.
  intros H. pose proof (parse_signed_string_of_Z a) as Ha.
  rewrite H, parse_signed_string_of_Z in Ha. congruence.
Qed.

(** An integer up to [2^53] in absolute value prints as its decimal
    numeral. *)
Lemma number_to_string_small z :
  Z.abs z ≤ 2 ^ 53 → number_to_string (Num z) = string_of_Z z.
Proof.
  intros Hz. unfold number_to_string.
  by destruct (Z.leb_spec (Z.abs z) safe_integer) as [_|Hgt]; [|unfold safe_integer in Hgt; lia].
Qed.

(** Beyond [2^53] the key of an id is not its decimal numeral: the pool
    id [2^64] is stored under "18446744073709552000", the numeral of
    another integer, which as a number is the same double. *)
Lemma big_ids_share_a_key :
  let a := 18446744073709551616 in
  let b := 18446744073709552000 in
  let e := sample_event "ctr" a (JBigInt 9) 30 in
  event_pid e = JNumber (Num a)
  ∧ a ≠ b
  ∧ js_Number (JString (string_of_Z b)) = Num a
  ∧ pendingRaised initial_state !! string_of_Z b = None
  ∧ pendingRaised (after_event initial_state e) !! string_of_Z b = Some 9.
Proof. vm_compute. repeat split; done. Qed.

(** X11. Pools do not interfere: an event whose id resolves to the
    integer [a], up to [2^53] in absolute value, changes neither the pool
    nor the orphan entry of any other id [b].  (Beyond [2^53] two integers
    can be the same double, and then they are the same id.) *)
Theorem other_pools_untouched (st : state) (e : event) (a b : Z) :
  event_pid e = JNumber (Num a) →
  Z.abs a ≤ 2 ^ 53 →
  a ≠ b →
  pools (after_event st e) !! string_of_Z b = pools st !! string_of_Z b
  ∧ pendingRaised (after_event st e) !! string_of_Z b
    = pendingRaised st !! string_of_Z b.
Proof.
  intros Hpid Ha Hne. apply after_event_other.
  unfold event_key. rewrite Hpid. cbn [truthy js_String].
  destruct (negb (a =? 0)); [|done].
  rewrite (number_to_string_small _ Ha).
  intros [= H%string_of_Z_inj]. done.
Qed.

Lemma other_pools_untouched_witness :
  let st := after_event initial_state sample_creation in
  let e := sample_event "ctr" 2 (JBigInt 9) 30 in
  pools (after_event st e) !! string_of_Z 1 = pools st !! string_of_Z 1
  ∧ pendingRaised (after_event st e) !! string_of_Z 1
    = pendingRaised st !! string_of_Z 1.
Proof.
  intros st e. apply (other_pools_untouched st e 2 1); [reflexivity | lia | lia].
Defined.

(** ** A page of events *)

Lemma process_event_resolved st e :
  match process_event st e with
  | (st', Return false) => resolved e = false ∧ st' = st
  | (st', Return true) =>
      resolved e = true
      ∧ lastScannedLedger st' = Z.max (lastScannedLedger st) (event_ledger e)
  | (_, Throw _) => resolved e = true
  end.
Proof.
  destruct (process_event st e) as [st' [[|]|err]] eqn:E.
  - split; [|by apply process_event_cursor].
    unfold process_event, resolved in *.
    by destruct (truthy (event_pid e)); simpl in E.
  - by apply process_event_skips in E as [-> H].
  - unfold process_event, resolved in *.
    by destruct (truthy (event_pid e)); simpl in E.
Qed.

Lemma process_events_returns es : ∀ st n st' m,
  process_events st n es = (st', Return m) →
  st' = after_events st es
  ∧ m = (n + length (filter resolved es))%nat
  ∧ lastScannedLedger st'
    = fold_left Z.max (map event_ledger (filter resolved es)) (lastScannedLedger st).
Proof.
  induction es as [|e es IH]; intros st n st' m H.
  - simpl in H. simplify_eq. split; [done|]. split; [simpl; lia|done].
  - cbn [process_events] in H.
    change (after_events st (e :: es)) with (after_events (after_event st e) es).
    pose proof (process_event_resolved st e) as Hr. unfold after_event.
    destruct (process_event st e) as [st1 [[|]|err]]; [| |done].
    + destruct Hr as [Hr Hc]. rewrite filter_cons_True by by rewrite Hr.
      destruct (IH _ _ _ _ H) as (-> & -> & ->). simpl. rewrite Hc.
      split; [done|]. split; [lia|done].
    + destruct Hr as [Hr ->]. rewrite filter_cons_False by (rewrite Hr; exact id).
      apply (IH _ _ _ _ H).
Qed.

Lemma process_events_throws es : ∀ st n st' err,
  process_events st n es = (st', Throw err) →
  ∃ es1 e es2 m,
    es = (es1 ++ e :: es2)%list
    ∧ process_events st n es1 = (after_events st es1, Return m)
    ∧ process_event (after_events st es1) e = (st', Throw err).
Proof.
  induction es as [|e es IH]; intros st n st' err H; [done|].
  cbn [process_events] in H.
  destruct (process_event st e) as [st1 [[|]|err1]] eqn:E.
  - destruct (IH _ _ _ _ H) as (es1 & e' & es2 & m & -> & H1 & He).
    exists (e :: es1), e', es2, m.
    change (after_events st (e :: es1)) with (after_events (after_event st e) es1).
    unfold after_event. cbn [process_events]. by rewrite E.
  - destruct (IH _ _ _ _ H) as (es1 & e' & es2 & m & -> & H1 & He).
    exists (e :: es1), e', es2, m.
    change (after_events st (e :: es1)) with (after_events (after_event st e) es1).
    unfold after_event. cbn [process_events]. by rewrite E.
  - simplify_eq. by exists [], e, es, n.
Qed.

(** X12. The loop over a page applies its events in order.  If no event
    throws, the registry is what the events leave one after the other, the
    count of processed events has grown by the number of events with a
    pool id, and the cursor is the maximum of its old value and the
    ledgers of those events.  If an event throws, the loop stops there:
    the events before it were applied without a throw, the state is the
    one the throwing event leaves (a creation event that throws on its
    log line has stored its pool by then), and the events after it are
    never looked at. *)
Theorem page_in_order (st : state) (n : nat) (es : list event) :
  match process_events st n es with
  | (st', Return m) =>
      st' = after_events st es
      ∧ m = (n + length (filter resolved es))%nat
      ∧ lastScannedLedger st'
        = fold_left Z.max (map event_ledger (filter resolved es)) (lastScannedLedger st)
  | (st', Throw err) =>
      ∃ es1 e es2 m,
        es = (es1 ++ e :: es2)%list
        ∧ process_events st n es1 = (after_events st es1, Return m)
        ∧ process_event (after_events st es1) e = (st', Throw err)
        ∧ st' = after_events st (es1 ++ [e])
  end.
Proof.
  destruct (process_events st n es) as [st' [m|err]] eqn:E.
  - by apply process_events_returns in E.
  - apply process_events_throws in E as (es1 & e & es2 & m & -> & H1 & He).
    exists es1, e, es2, m. split; [done|]. split; [done|]. split; [done|].
    unfold after_events. rewrite fold_left_app. simpl.
    fold (after_events st es1). unfold after_event at 1. by rewrite He.
Qed.

(** ** The calls a pass makes *)

Lemma resolve_start_positive fromLedger cursor latest :
  1 ≤ resolve_start fromLedger cursor latest.
Proof.
  unfold resolve_start, clampPos. destruct fromLedger as [z|]; [destruct z|]; lia.
Qed.

(** The next call of a pass that goes on after a reply. *)
Lemma resume_next_call now st d k r st' d' latest' start' token' n' :
  resume now st d k r = Some (st', d', Suspended (AwaitEvents latest' start' token' n')) →
  match k with
  | AwaitLatest fromLedger =>
      start' = resolve_start fromLedger (lastScannedLedger st) latest'
  | AwaitEvents latest start _ _ =>
      latest' = latest ∧ start' = start ∧ ∃ pg, r = Events (Fulfilled pg)
  end.
Proof.
  destruct k as [f|latest start token n], r as [[a|msg]|[ev|msg]]; try done.
  - by intros [= _ _ <- <- _ _].
  - unfold resume, end_of_body.
    destruct (process_events st n (events ev)) as [st1 [m|err]]; [|done].
    destruct (loop_test (nextToken ev)); [|done].
    intros [= _ _ <- <- _ _]. eauto.
  - destruct (resume_rejected now st d latest start token n msg) as [err ->]. done.
Qed.

Lemma pending_start_step s i a b :
  pending_start s = Some a → pending_start (step s i) = Some b → a = b.
Proof.
  unfold pending_start.
  destruct i as [f|now r| |now body|now]; simpl.
  - unfold hydrateFromEvents.
    destruct (hydratingPromise s) as [[p k]|] eqn:E; simpl; rewrite ?E;
      [congruence|done].
  - unfold rpc_settles.
    destruct (hydratingPromise s) as [[p [f|latest start token n]]|] eqn:E; try done.
    intros [= ->].
    destruct (resume now (app s) (disk s) (AwaitEvents latest a token n) r)
      as [[[st' d'] [[f'|latest' start' token' n']|c]]|] eqn:R; simpl; rewrite ?E; try done.
    + apply resume_next_call in R as (_ & -> & _). congruence.
    + by destruct (try_catch_finally c).
    + congruence.
  - congruence.
  - destruct (register_pool now body (app s) (disk s)) as [[st' d'] resp]. simpl.
    congruence.
  - congruence.
Qed.

Lemma pending_start_positive_step s i :
  (∀ a, pending_start s = Some a → 1 ≤ a) →
  ∀ b, pending_start (step s i) = Some b → 1 ≤ b.
Proof.
  intros Hs b Hb.
  destruct (pending_start s) as [a|] eqn:Ha.
  { rewrite <- (pending_start_step s i a b Ha Hb). by apply Hs. }
  unfold pending_start in *.
  destruct i as [f|now r| |now body|now]; simpl in Hb.
  - unfold hydrateFromEvents in Hb.
    destruct (hydratingPromise s) as [[p k]|] eqn:E; simpl in Hb;
      rewrite ?E in Hb; [by rewrite Hb in Ha|done].
  - unfold rpc_settles in Hb.
    destruct (hydratingPromise s) as [[p [f|latest start token n]]|] eqn:E;
      [|done|by rewrite E in Hb].
    destruct (resume now (app s) (disk s) (AwaitLatest f) r)
      as [[[st' d'] [[f'|latest' start' token' n']|c]]|] eqn:R; simpl in Hb;
      rewrite ?E in Hb; try done.
    + apply resume_next_call in R. simplify_eq. apply resolve_start_positive.
    + by destruct (try_catch_finally c).
  - by rewrite Hb in Ha.
  - destruct (register_pool now body (app s) (disk s)) as [[st' d'] resp].
    simpl in Hb. by rewrite Hb in Ha.
  - by rewrite Hb in Ha.
Qed.

(** X13. A pass never asks for events from a ledger below 1, whatever
    argument it was started with and whatever the cursor holds; and the
    calls of one pass all carry the same [startLedger]: a turn of the
    process that leaves a call pending after a call was pending has not
    changed it. *)
Theorem start_ledger_positive (s : server) (start : Z) :
  reachable s →
  pending_start s = Some start →
  1 ≤ start ∧ ∀ i b, pending_start (step s i) = Some b → b = start.
Proof.
  intros (st & d & inputs & ->) Hs. split.
  - revert start Hs. unfold run. induction inputs as [|i inputs IH] using rev_ind.
    + done.
    + rewrite fold_left_app. simpl. apply pending_start_positive_step, IH.
  - intros i b Hb. symmetry. by eapply pending_start_step.
Qed.

Lemma start_ledger_positive_witness :
  1 ≤ 50000
  ∧ ∀ i b, pending_start (step waiting_for_page i) = Some b → b = 50000.
Proof.
  apply (start_ledger_positive waiting_for_page 50000).
  - exists initial_state, NoFile,
      [ CallHydrate None; RpcSettles "t0" (LatestLedger (Fulfilled 200000)) ].
    reflexivity.
  - vm_compute. reflexivity.
Defined.

Lemma try_catch_finally_fulfilled c : (try_catch_finally c).2 = PassFulfilled.
Proof. by destruct c as [[e|]|e]. Qed.

Lemma outcomes_step s i :
  outcomes (step s i) = outcomes s
  ∨ ∃ p, outcomes (step s i) = (outcomes s ++ [(p, PassFulfilled)])%list.
Proof.
  destruct i as [f|now r| |now body|now]; simpl; [| |by left| |by left].
  - unfold hydrateFromEvents. left. by destruct (hydratingPromise s) as [[p k]|].
  - unfold rpc_settles. destruct (hydratingPromise s) as [[p k]|]; [|by left].
    destruct (resume now (app s) (disk s) k r) as [[[st' d'] [k'|c]]|];
      [by left| |by left].
    pose proof (try_catch_finally_fulfilled c) as Hc.
    destruct (try_catch_finally c) as [logged o]. simpl in *. subst o. eauto.
  - left. by destruct (register_pool now body (app s) (disk s)) as [[st' d'] resp].
Qed.

(** X14. No pass is ever rejected: whatever the RPC server replies and
    whatever the events hold, the promise [hydrateFromEvents] hands out is
    fulfilled when it settles, so the [catch] blocks of its callers never
    see an error from it. *)
Theorem pass_never_rejects (s : server) (p : nat) :
  reachable s →
  observed s p = None ∨ observed s p = Some PassFulfilled.
Proof.
  intros (st & d & inputs & ->). unfold observed.
  assert (Forall (fun po => po.2 = PassFulfilled)
            (outcomes (run (started_with st d) inputs))) as H.
  { unfold run. induction inputs as [|i inputs IH] using rev_ind; [by constructor|].
    rewrite fold_left_app. simpl.
    destruct (outcomes_step (fold_left step inputs (started_with st d)) i)
      as [->|[q ->]]; [done|].
    apply Forall_app. split; [done|]. by repeat constructor. }
  induction H as [|[q o'] l Hq _ IH]; simpl; [by left|].
  destruct (q =? p)%nat; [|done]. simpl in Hq. subst o'. by right.
Qed.

Lemma pass_never_rejects_witness :
  let s := rpc_settles "t1" (Events (Rejected "connection refused")) waiting_for_page in
  observed s 0 = None ∨ observed s 0 = Some PassFulfilled.
Proof.
  intros s. apply (pass_never_rejects s 0).
  exists initial_state, NoFile,
    [ CallHydrate None; RpcSettles "t0" (LatestLedger (Fulfilled 200000));
      RpcSettles "t1" (Events (Rejected "connection refused")) ].
  reflexivity.
Defined.

(** ** A pass over several pages *)





(** ** What a snapshot holds *)

(** [JSON.stringify] fails exactly on a value that holds a [bigint];
    what it writes otherwise reads back as a value JSON represents
    (nothing at all for [undefined]). *)
Lemma toJSON_cases : ∀ v,
  if has_bigint v then toJSON v = Throw TypeError
  else ∃ w, toJSON v = Return w ∧ (w = JUndefined ∨ json_plain w = true).
Proof.
  induction v as [| |b|[|z|m k|neg]|z|s|items IH|props IH] using jsval_nested_ind;
    try (simpl; eauto; fail).
  - cbn [has_bigint toJSON].
    set (each := fix each (l : list jsval) : completion (list jsval) :=
               match l with
               | [] => Return []
               | x :: l' =>
                   y ← toJSON x; ys ← each l';
                   Return ((if nullish y then JNull else y) :: ys)
               end).
    assert (if existsb has_bigint items then each items = Throw TypeError
            else ∃ ws, each items = Return ws ∧ forallb json_plain ws = true) as H.
    { induction IH as [|x l Hx _ IHl]; simpl; [eauto|].
      destruct (has_bigint x); simpl; [by rewrite Hx|].
      destruct Hx as (w & -> & Hw). simpl.
      destruct (existsb has_bigint l); [by rewrite IHl|].
      destruct IHl as (ws & -> & Hws). simpl. eexists. split; [done|].
      simpl. rewrite Hws, andb_true_r.
      destruct Hw as [->|Hw]; [done|]. by destruct w. }
    destruct (existsb has_bigint items); [by rewrite H|].
    destruct H as (ws & -> & Hws). simpl. eauto.
  - cbn [has_bigint toJSON].
    set (each := fix each (l : obj) : completion obj :=
               match l with
               | [] => Return []
               | (k, x) :: l' =>
                   y ← toJSON x; ys ← each l';
                   Return (match y with JUndefined => ys | _ => (k, y) :: ys end)
               end).
    set (any := fix each (l : obj) : bool :=
               match l with
               | [] => false
               | (_, x) :: l' => has_bigint x || each l'
               end).
    assert (if any props then each props = Throw TypeError
            else ∃ ws, each props = Return ws ∧ json_plain (JObject ws) = true) as H.
    { induction IH as [|[k x] l Hx _ IHl]; simpl; [eauto|]. simpl in Hx.
      destruct (has_bigint x); simpl; [by rewrite Hx|].
      destruct Hx as (w & -> & Hw). simpl.
      destruct (any l); [by rewrite IHl|].
      destruct IHl as (ws & -> & Hws). simpl. eexists. split; [done|].
      destruct Hw as [->|Hw]; [done|].
      destruct w; simpl in *; try done; by rewrite ?Hw, ?Hws. }
    destruct (any props); [by rewrite H|].
    destruct H as (ws & -> & Hws). simpl. eauto.
Qed.

Lemma toJSON_obj_cases (o : obj) :
  if has_bigint (JObject o) then toJSON_obj o = Throw TypeError
  else ∃ o', toJSON_obj o = Return o' ∧ json_plain (JObject o') = true.
Proof.
  unfold toJSON_obj. pose proof (toJSON_cases (JObject o)) as H.
  destruct (has_bigint (JObject o)); [by rewrite H|].
  destruct H as (w & Hw & Hp). rewrite Hw. simpl.
  cbn [toJSON] in Hw. inv_completion. simpl. eexists. split; [done|].
  by destruct Hp.
Qed.

Lemma mapM_toJSON_obj (l : list obj) :
  if existsb (fun p => has_bigint (JObject p)) l
  then ∃ e, mapM toJSON_obj l = Throw e
  else ∃ ps, mapM toJSON_obj l = Return ps
             ∧ length ps = length l
             ∧ Forall (fun p => json_plain (JObject p) = true) ps.
Proof.
  induction l as [|p l IH]; cbn [existsb mapM]; [by exists []|].
  pose proof (toJSON_obj_cases p) as Hp.
  destruct (has_bigint (JObject p)); [rewrite Hp; simpl; eauto|].
  destruct Hp as (p' & -> & Hp'). cbn.
  destruct (existsb _ l).
  - destruct IH as [e ->]. simpl. eauto.
  - destruct IH as (ps & -> & Hlen & Hps). simpl.
    exists (p' :: ps). split; [done|]. split; [simpl; lia|]. by constructor.
Qed.

(** X16. [saveState] writes a snapshot exactly when no pool of the
    registry holds a [bigint] anywhere.  The snapshot then holds the
    cursor and one record per pool, each restricted to what JSON
    represents.  When some pool holds a [bigint], nothing is written and
    the file stays as it was. *)
Theorem snapshot_written_iff_no_bigint (now : string) (st : state) (d : file) :
  if existsb (fun p => has_bigint (JObject p)) (pool_values st)
  then saveState now st d = d
  else ∃ ps,
         saveState now st d
         = Snapshot {| snap_lastScannedLedger := lastScannedLedger st;
                       snap_pools := ps;
                       savedAt := now |}
         ∧ length ps = size (pools st)
         ∧ Forall (fun p => json_plain (JObject p) = true) ps.
Proof.
  unfold saveState. pose proof (mapM_toJSON_obj (pool_values st)) as H.
  destruct (existsb _ (pool_values st)).
  - destruct H as [e ->]. done.
  - destruct H as (ps & -> & Hlen & Hps). exists ps. split; [done|]. split; [|done].
    rewrite Hlen. unfold pool_values.
    rewrite length_fmap, (Permutation_length (pool_entries_perm st)).
    apply length_map_to_list.
Qed.

Lemma restore_pools_elem ps k p : restore_pools ps !! k = Some p → p ∈ ps.
Proof.
  unfold restore_pools.
  assert (∀ (m : gmap string obj) k p,
            fold_left (fun m p => <[js_String (obj_get p "id") := p]> m) ps m !! k
            = Some p → p ∈ ps ∨ m !! k = Some p) as H.
  { induction ps as [|q ps IH]; intros m k' p'; simpl; [auto|].
    intros [Hin|Hm]%IH.
    - left. by apply list_elem_of_further.
    - rewrite lookup_insert in Hm. case_decide; [|by right].
      injection Hm as ->. left. apply list_elem_of_here. }
  intros Hk. destruct (H ∅ k p Hk) as [?|He]; [done|].
  by rewrite lookup_empty in He.
Qed.

Lemma round_trip_of_plain_and_keyed now st d st0 :
  plain_and_keyed st →
  pools (loadState (saveState now st d) st0) = pools st
  ∧ lastScannedLedger (loadState (saveState now st d) st0)
    = Z.max 0 (lastScannedLedger st).
Proof.
  intros Hst. unfold saveState.
  rewrite mapM_id.
  2:{ apply pool_values_Forall. intros k p [_ Hp]%Hst. by apply toJSON_obj_plain. }
  simpl. split.
  - rewrite pools_restore. unfold restore_pools, pool_values.
    rewrite restore_pools_fold.
    + rewrite (right_id_L ∅ (∪)).
      rewrite (list_to_map_proper _ (map_to_list (pools st))).
      * apply list_to_map_to_list.
      * rewrite pool_entries_fst. apply pool_keys_NoDup.
      * apply pool_entries_perm.
    + rewrite pool_entries_fst. apply pool_keys_NoDup.
    + apply Forall_forall. intros [k p] Hin%pool_entries_spec. by apply Hst.
  - destruct (Z.eqb_spec (lastScannedLedger st) 0) as [->|]; lia.
Qed.

(** X17. Writing a snapshot and reading it back normalises the registry
    once and for all.  When the snapshot can be written (no pool holds a
    [bigint]), the registry read back has every pool under
    [String(pool.id)], holds only values JSON represents, and has a cursor
    that is not negative; writing and reading it again, any number of
    times, gives the same pools and the same cursor. *)
Theorem restored_registry_is_stable (now : string) (st st0 : state) (d : file) :
  existsb (fun p => has_bigint (JObject p)) (pool_values st) = false →
  let st1 := loadState (saveState now st d) st0 in
  plain_and_keyed st1
  ∧ 0 ≤ lastScannedLedger st1
  ∧ ∀ now' d' st2,
      pools (loadState (saveState now' st1 d') st2) = pools st1
      ∧ lastScannedLedger (loadState (saveState now' st1 d') st2)
        = lastScannedLedger st1.
Proof.
  intros Hb st1.
  pose proof (mapM_toJSON_obj (pool_values st)) as H.
  rewrite Hb in H. destruct H as (ps & Hm & _ & Hps).
  assert (saveState now st d
          = Snapshot {| snap_lastScannedLedger := lastScannedLedger st;
                        snap_pools := ps;
                        savedAt := now |}) as Hsave.
  { unfold saveState. by rewrite Hm. }
  assert (plain_and_keyed st1 ∧ 0 ≤ lastScannedLedger st1) as [Hpk Hc].
  { subst st1. rewrite Hsave. simpl. split; [|lia].
    intros k p Hk. simpl in Hk. rewrite pools_restore in Hk.
    split; [by apply restore_pools_keyed in Hk|].
    apply restore_pools_elem in Hk. by eapply (proj1 (Forall_forall _ _) Hps). }
  split; [done|]. split; [done|].
  intros now' d' st2.
  destruct (round_trip_of_plain_and_keyed now' st1 d' st2 Hpk) as [-> ->].
  split; [done|]. lia.
Qed.

Lemma restored_registry_is_stable_witness :
  let body := JObject [("pool", JObject [("id", JNumber (Num 7)); ("goal", JString "5")])] in
  let st := (register_pool "t" body initial_state NoFile).1.1 in
  let st1 := loadState (saveState "t" st NoFile) initial_state in
  plain_and_keyed st1
  ∧ 0 ≤ lastScannedLedger st1
  ∧ ∀ now' d' st2,
      pools (loadState (saveState now' st1 d') st2) = pools st1
      ∧ lastScannedLedger (loadState (saveState now' st1 d') st2)
        = lastScannedLedger st1.
Proof.
  intros body st.
  apply (restored_registry_is_stable "t" st initial_state NoFile).
  vm_compute. reflexivity.
Defined.

(** ** The "actionable" filter *)

(** The three cases of the filter together keep every pool that is not
    finalized, and no other. *)
Lemma actionable_unfinalized now (p : obj) :
  actionable now p
  = (raised ← js_BigInt (obj_get p "raised");
     goal ← js_BigInt (obj_get p "goal");
     Return (unfinalized p)).
Proof.
  unfold actionable, unfinalized.
  destruct (js_BigInt (obj_get p "raised")) as [r|]; simpl; [|done].
  destruct (js_BigInt (obj_get p "goal")) as [g|]; simpl; [|done].
  f_equal.
  destruct (truthy (obj_get p "finalized")), (expired now p); simpl; try done.
  destruct (Z.ltb_spec r g), (Z.leb_spec g r); try done; lia.
Qed.

Lemma filterM_actionable now (l : list obj) :
  Forall amounts_parse l →
  filterM (actionable now) l = Return (filter unfinalized l).
Proof.
  induction 1 as [|p l (r & g & Hr & Hg) _ IH]; simpl; [done|].
  rewrite actionable_unfinalized, Hr, Hg, IH. simpl.
  destruct (unfinalized p) eqn:E.
  - by rewrite filter_cons_True by by rewrite E.
  - by rewrite filter_cons_False by (rewrite E; exact id).
Qed.

Lemma with_status_returns now (l : list obj) :
  Forall amounts_parse l →
  ∃ l', mapM (with_status now) l = Return l'
        ∧ Forall2 (fun p p' => ∃ s, pool_status now p = Return s
                                   ∧ p' = obj_set "status" (JString s) p) l l'.
Proof.
  induction 1 as [|p l (r & g & Hr & Hg) _ (l' & IH & Hl')]; [by exists []|].
  assert (∃ s, pool_status now p = Return s) as [s Hs].
  { unfold pool_status. rewrite Hr, Hg. simpl. repeat case_match; eauto. }
  cbn [mapM]. rewrite IH. unfold with_status. rewrite Hs. simpl.
  eexists. split; [done|]. constructor; [|done]. by exists s.
Qed.

(** The body of a listing as it is sent: each record as JSON represents
    it. *)
Lemma toJSON_pools_json (l : list obj) :
  toJSON (pools_json l) = (out ← mapM toJSON_obj l; Return (pools_json out)).
Proof.
  unfold pools_json. cbn [toJSON].
  set (each := fix each (l : list jsval) : completion (list jsval) :=
             match l with
             | [] => Return []
             | x :: l' =>
                 y ← toJSON x; ys ← each l';
                 Return ((if nullish y then JNull else y) :: ys)
             end).
  assert (each (map JObject l)
          = (out ← mapM toJSON_obj l; Return (map JObject out))) as ->.
  { induction l as [|p l IH]; [done|].
    cbn [map each mapM]. rewrite IH. unfold toJSON_obj. cbn [toJSON].
    destruct ((fix each (l : obj) : completion obj := _) p) as [p'|err]; [|done].
    simpl. by destruct (mapM _ l). }
  by destruct (mapM toJSON_obj l).
Qed.

Lemma has_bigint_with_status (p : obj) s :
  has_bigint (JObject p) = false →
  has_bigint (JObject (obj_set "status" (JString s) p)) = false.
Proof.
  intros Hp. induction p as [|[k v] p IH]; simpl in *; [done|].
  apply orb_false_iff in Hp as [Hv Hp].
  destruct (String.eqb k "status"); simpl; [done|]. by rewrite Hv, (IH Hp).
Qed.

(** X18. When the registry is not empty, the [raised] and [goal] of
    every pool read as integers and no pool holds a [bigint],
    [GET /api/pools] answers 200 with the pools, in the order in which
    their ids were first stored, each with its derived status and
    serialised as JSON represents it.  Unless [?all=1] or [?filter=simple]
    is given, the three-case "actionable" filter keeps exactly the pools
    that are not finalized: an expired and a funded pool are both
    listed. *)
Theorem listing_keeps_unfinalized (q : query) (now : Z) (st : state) :
  pool_values st ≠ [] →
  Forall amounts_parse (pool_values st) →
  Forall (fun p => has_bigint (JObject p) = false) (pool_values st) →
  ∃ list sent,
    Forall2 (fun p p' => ∃ s, pool_status now p = Return s
                             ∧ p' = obj_set "status" (JString s) p)
      (pool_values st) list
    ∧ mapM toJSON_obj (if shows_all q then list else filter unfinalized list)
      = Return sent
    ∧ api_pools_listing q now st
      = Respond {| status := 200; body := pools_json sent |}.
Proof.
  intros Hne Hparse Hbig.
  destruct (with_status_returns now _ Hparse) as (list & Hmap & Hlist).
  assert (Forall (fun p => has_bigint (JObject p) = false) list) as Hbig'.
  { clear -Hlist Hbig. induction Hlist as [|p p' l l' (s & _ & ->) _ IH]; [done|].
    apply Forall_cons in Hbig as [Hp Hbig].
    constructor; [by apply has_bigint_with_status | by apply IH]. }
  assert (Forall amounts_parse list) as Hparse'.
  { clear -Hlist Hparse. induction Hlist as [|p p' l l' (s & _ & ->) _ IH]; [done|].
    apply Forall_cons in Hparse as [(r & g & Hr & Hg) Hparse].
    constructor; [|by apply IH].
    exists r, g. by rewrite !(obj_get_set_ne _ "status") by done. }
  set (out := if shows_all q then list else filter unfinalized list).
  assert (Forall (fun p => has_bigint (JObject p) = false) out) as Hout.
  { unfold out. destruct (shows_all q); [done|].
    apply Forall_forall. intros p [_ Hin]%list_elem_of_filter.
    by apply (proj1 (Forall_forall _ _) Hbig'). }
  pose proof (mapM_toJSON_obj out) as Hsent.
  assert (existsb (fun p => has_bigint (JObject p)) out = false) as Hnone.
  { clear -Hout. induction Hout as [|p l Hp _ IH]; [done|].
    cbn [existsb]. by rewrite Hp, IH. }
  rewrite Hnone in Hsent. destruct Hsent as (sent & Hsent & _).
  exists list, sent. split; [done|]. split; [done|].
  unfold api_pools_listing. rewrite Hmap.
  assert (length list ≠ 0%nat) as Hlen.
  { rewrite <- (Forall2_length _ _ _ Hlist). by destruct (pool_values st). }
  destruct (length list =? 0)%nat eqn:E; [by apply Nat.eqb_eq in E|]. simpl.
  unfold api_pools_send. rewrite (filterM_actionable _ _ Hparse'). simpl.
  unfold res_json. fold (shows_all q). fold out.
  by rewrite toJSON_pools_json, Hsent.
Qed.

Lemma listing_keeps_unfinalized_witness :
  let st := after_events initial_state funded_story in
  let q := {| q_resync := JUndefined; q_retried := JUndefined;
              q_all := JUndefined; q_filter := JUndefined |} in
  ∃ list sent,
    Forall2 (fun p p' => ∃ s, pool_status 1700000000 p = Return s
                             ∧ p' = obj_set "status" (JString s) p)
      (pool_values st) list
    ∧ mapM toJSON_obj (if shows_all q then list else filter unfinalized list)
      = Return sent
    ∧ api_pools_listing q 1700000000 st
      = Respond {| status := 200; body := pools_json sent |}.
Proof.
  intros st q. apply (listing_keeps_unfinalized q 1700000000 st).
  - vm_compute. discriminate.
  - let l := eval vm_compute in (pool_values st) in change (pool_values st) with l.
    constructor; [|constructor]. exists 1000, 1000. split; reflexivity.
  - let l := eval vm_compute in (pool_values st) in change (pool_values st) with l.
    constructor; [reflexivity|constructor].
Defined.

(** The listing follows the order in which the ids were first stored,
    not the order of the keys: pool 10 registered before pool 9 is listed
    before it. *)
Lemma listing_in_insertion_order :
  let reg id st :=
    (register_pool "t" (JObject [("pool", JObject [("id", JNumber (Num id));
                                                    ("goal", JString "5")])])
       st NoFile).1.1 in
  let st := reg 9 (reg 10 initial_state) in
  map (fun p => obj_get p "id") (pool_values st) = [JNumber (Num 10); JNumber (Num 9)]
  ∧ map (fun p => obj_get p "id") (pool_values (reg 10 st))
    = [JNumber (Num 10); JNumber (Num 9)].
Proof. split; vm_compute; reflexivity. Qed.

(** ** Looking a pool up by its id *)

Lemma StringToNumber_string_of_Z z :
  StringToNumber (string_of_Z z) = decimal z 0.
Proof.
  unfold StringToNumber.
  rewrite (trim_id _ (string_of_Z_no_space z)), parse_signed_string_of_Z.
  destruct (String.eqb_spec (string_of_Z z) ""); [|done].
  by destruct (string_of_Z_nonempty z).
Qed.

(** An integer up to [2^53] in absolute value is a double. *)
Lemma decimal_small z : Z.abs z ≤ 2 ^ 53 → decimal z 0 = Num z.
Proof.
  intros Hz. unfold decimal. destruct (Z.eqb_spec z 0) as [->|Hnz]; [done|].
  cbn [Z.eqb andb].
  by destruct (Z.leb_spec (Z.abs z) safe_integer) as [_|Hgt]; [|unfold safe_integer in Hgt; lia].
Qed.


(** A field that JSON represents is sent as it is stored. *)
Lemma toJSON_obj_get (o : obj) w k :
  toJSON (JObject o) = Return w →
  json_plain (obj_get o k) = true →
  get_prop w k = obj_get o k.
Proof.
  cbn [toJSON].
  set (each := fix each (l : obj) : completion obj :=
             match l with
             | [] => Return []
             | (k, x) :: l' =>
                 y ← toJSON x; ys ← each l';
                 Return (match y with JUndefined => ys | _ => (k, y) :: ys end)
             end).
  intros H Hp. destruct (each o) as [o'|] eqn:E; [|done].
  simpl in H. injection H as <-. simpl.
  revert o' E. induction o as [|[k' x] o IH]; intros o' E; simpl in *.
  - by injection E as <-.
  - destruct (toJSON x) as [y|] eqn:Ex; [|done]. simpl in E.
    destruct (each o) as [ys|]; [|done]. simpl in E. injection E as <-.
    destruct (String.eqb k' k) eqn:Ek.
    + rewrite (toJSON_plain _ Hp) in Ex. injection Ex as <-.
      destruct x; simpl in *; rewrite ?Ek; done.
    + specialize (IH Hp ys eq_refl).
      destruct y; simpl; rewrite ?Ek; done.
Qed.



(** A record whose id is spelled as the number prints is found, also
    when that is not a decimal numeral: "1e+21" is the key of the
    number [10^21]. *)
Lemma exponent_spelling_is_found :
  let pool := JObject [("id", JString "1e+21")] in
  ∃ st', register_batch_item initial_state pool = Return (Some st')
         ∧ StringToNumber (record_id pool) = Num (10 ^ 21)
         ∧ record_id pool ≠ string_of_Z (10 ^ 21)
         ∧ record_id pool = js_String (JNumber (Num (10 ^ 21)))
         ∧ status (api_pool_by_id "1e21" initial_state) = 404
         ∧ status (api_pool_by_id "1e21" st') = 200.
Proof. eexists. vm_compute. repeat split; done. Qed.

(** X20. Batch registration stores a record under the id as it is
    spelled, but writes the number into the record.  A record whose id
    reads as the integer [z] and is spelled otherwise than [String(z)]
    ("007", " 7", "+7", "1e3") is therefore stored where
    [GET /api/pools/:id] does not look for it: a lookup with a parameter
    that reads as [z], and one with a parameter that reads as any integer
    up to [2^53] in absolute value, answer what they answered before the
    registration. *)
Theorem batch_spelling_hides_pool (st st' : state) (pool : jsval) (z : Z) :
  register_batch_item st pool = Return (Some st') →
  StringToNumber (record_id pool) = Num z →
  record_id pool ≠ js_String (JNumber (Num z)) →
  (∃ stored, pools st' !! record_id pool = Some stored
             ∧ obj_get stored "id" = JNumber (Num z))
  ∧ (∀ param, StringToNumber param = Num z →
              api_pool_by_id param st' = api_pool_by_id param st)
  ∧ (∀ param z', StringToNumber param = Num z' → Z.abs z' ≤ 2 ^ 53 →
                 api_pool_by_id param st' = api_pool_by_id param st).
Proof.
  unfold register_batch_item. fold (record_id pool).
  intros H Hz Hne.
  destruct (nullish pool); [done|].
  destruct (String.eqb (record_id pool) ""); [done|].
  injection H as <-. split; [|split].
  - eexists. split; [apply lookup_insert_eq|].
    unfold obj_literal. simpl. rewrite !(obj_get_set_ne "id") by done.
    by rewrite obj_get_set_eq, Hz.
  - intros param Hp. unfold api_pool_by_id. rewrite Hp. cbn [pools pools_set].
    by rewrite lookup_insert_ne.
  - intros param z' Hp Hz'. unfold api_pool_by_id. rewrite Hp. cbn [pools pools_set].
    rewrite lookup_insert_ne; [done|].
    rewrite (number_to_string_small _ Hz'). intros Heq. apply Hne.
    rewrite Heq, StringToNumber_string_of_Z, (decimal_small _ Hz') in Hz.
    injection Hz as <-. cbn [js_String]. by rewrite (number_to_string_small _ Hz').
Qed.

Lemma batch_spelling_hides_pool_witness :
  let pool := JObject [("id", JString "007")] in
  let st' := pools_set "007"
               (obj_literal (spread pool)
                  [ ("id", JNumber (Num 7)); ("goal", JString "0");
                    ("raised", JString "0"); ("deadline", JNumber (Num 0));
                    ("finalized", JBool false) ]) initial_state in
  (∃ stored, pools st' !! record_id pool = Some stored
             ∧ obj_get stored "id" = JNumber (Num 7))
  ∧ (∀ param, StringToNumber param = Num 7 →
              api_pool_by_id param st' = api_pool_by_id param initial_state)
  ∧ (∀ param z', StringToNumber param = Num z' → Z.abs z' ≤ 2 ^ 53 →
                 api_pool_by_id param st' = api_pool_by_id param initial_state).
Proof.
  intros pool st'.
  apply (batch_spelling_hides_pool initial_state st' pool 7).
  - reflexivity.
  - reflexivity.
  - vm_compute. discriminate.
Defined.

(** ** Batch registration *)

Lemma register_batch_item_cases st pool :
  nullish pool = false →
  if has_id pool
  then ∃ st', register_batch_item st pool = Return (Some st')
              ∧ ∀ k, is_Some (pools st !! k) → is_Some (pools st' !! k)
  else register_batch_item st pool = Return None.
Proof.
  intros Hn. unfold register_batch_item, has_id. rewrite Hn.
  fold (record_id pool). destruct (String.eqb (record_id pool) ""); simpl; [done|].
  eexists. split; [done|]. intros k Hk. simpl.
  rewrite lookup_insert. by case_decide.
Qed.

Lemma register_batch_loop_returns arr : ∀ st count,
  Forall (fun v => nullish v = false) arr →
  ∃ st', register_batch_loop st count arr
         = (st', Return (count + Z.of_nat (length (filter has_id arr))))
         ∧ ∀ k, is_Some (pools st !! k) → is_Some (pools st' !! k).
Proof.
  induction arr as [|pool arr IH]; intros st count Hall; simpl.
  - exists st. split; [by rewrite Z.add_0_r|done].
  - apply Forall_cons in Hall as [Hn Hall].
    pose proof (register_batch_item_cases st pool Hn) as Hi.
    destruct (has_id pool) eqn:E.
    + destruct Hi as (st1 & -> & H1).
      destruct (IH st1 (count + 1) Hall) as (st' & -> & H').
      rewrite filter_cons_True by by rewrite E.
      exists st'. split; [f_equal; f_equal; simpl; lia|]. auto.
    + rewrite Hi. rewrite filter_cons_False by (rewrite E; exact id).
      apply (IH st count Hall).
Qed.

Lemma register_batch_loop_throws l1 x l2 : ∀ st count,
  Forall (fun v => nullish v = false) l1 →
  nullish x = true →
  register_batch_loop st count (l1 ++ x :: l2)
  = ((register_batch_loop st count l1).1, Throw TypeError).
Proof.
  induction l1 as [|pool l1 IH]; intros st count Hall Hx; simpl.
  - unfold register_batch_item. by rewrite Hx.
  - apply Forall_cons in Hall as [Hn Hall].
    pose proof (register_batch_item_cases st pool Hn) as Hi.
    destruct (has_id pool).
    + destruct Hi as (st1 & -> & _). by apply IH.
    + rewrite Hi. by apply IH.
Qed.

(** X21. [POST /api/pools/register-batch] with an array of records, none
    of them [null] or [undefined], answers 200 with the number of records
    that have an id; records without one are skipped.  The registry is
    then saved, and no pool that was in it has been removed. *)
Theorem batch_counts_records_with_id
    (now : string) (body : jsval) (arr : list jsval) (st : state) (d : file) :
  get_prop (js_or body (JObject [])) "pools" = JArray arr →
  Forall (fun v => nullish v = false) arr →
  ∃ st',
    register_batch now body st d
    = (st', saveState now st' d,
       {| status := 200;
          body := JObject [("ok", JBool true);
                           ("count", JNumber (Num (Z.of_nat (length (filter has_id arr)))))] |})
    ∧ ∀ k, is_Some (pools st !! k) → is_Some (pools st' !! k).
Proof.
  intros Hb Hall. unfold register_batch. rewrite Hb.
  destruct (register_batch_loop_returns arr st 0 Hall) as (st' & -> & Hk).
  exists st'. by rewrite Z.add_0_l.
Qed.

Lemma batch_counts_records_with_id_witness :
  let arr := [JObject [("id", JString "007")]; JObject [("id", JString "")];
              JObject [("poolId", JNumber (Num 3))]] in
  ∃ st',
    register_batch "t" (JObject [("pools", JArray arr)]) initial_state NoFile
    = (st', saveState "t" st' NoFile,
       {| status := 200;
          body := JObject [("ok", JBool true);
                           ("count", JNumber (Num (Z.of_nat (length (filter has_id arr)))))] |})
    ∧ ∀ k, is_Some (pools initial_state !! k) → is_Some (pools st' !! k).
Proof.
  intros arr.
  apply (batch_counts_records_with_id "t" (JObject [("pools", JArray arr)]) arr
           initial_state NoFile).
  - reflexivity.
  - repeat constructor.
Defined.

(** X22. A [null] or [undefined] element stops a batch registration
    half way: the request answers 500, the records before that element
    stay registered in memory, the records after it are not looked at,
    and nothing is saved. *)
Theorem batch_stops_at_null
    (now : string) (body : jsval) (l1 l2 : list jsval) (x : jsval)
    (st : state) (d : file) :
  get_prop (js_or body (JObject [])) "pools" = JArray (l1 ++ x :: l2) →
  Forall (fun v => nullish v = false) l1 →
  nullish x = true →
  register_batch now body st d
  = ((register_batch_loop st 0 l1).1, d,
     {| status := 500; body := JObject [("error", JString "TypeError")] |}).
Proof.
  intros Hb Hall Hx. unfold register_batch. rewrite Hb.
  by rewrite (register_batch_loop_throws l1 x l2 st 0 Hall Hx).
Qed.

Lemma batch_stops_at_null_witness :
  let l1 := [JObject [("id", JNumber (Num 1))]] in
  let l2 := [JObject [("id", JNumber (Num 2))]] in
  register_batch "t" (JObject [("pools", JArray (l1 ++ JNull :: l2))]) initial_state NoFile
  = ((register_batch_loop initial_state 0 l1).1, NoFile,
     {| status := 500; body := JObject [("error", JString "TypeError")] |}).
Proof.
  intros l1 l2.
  apply (batch_stops_at_null "t" (JObject [("pools", JArray (l1 ++ JNull :: l2))])
           l1 l2 JNull initial_state NoFile).
  - reflexivity.
  - repeat constructor.
  - reflexivity.
Defined.

(** ** The transaction log *)

Lemma has_bigint_obj_get (o : obj) k :
  has_bigint (JObject o) = false → has_bigint (obj_get o k) = false.
Proof.
  induction o as [|[k' v] o IH]; simpl; [done|].
  intros [Hv Ho]%orb_false_iff. destruct (String.eqb k' k); auto.
Qed.

Lemma has_bigint_get_prop v k :
  has_bigint v = false → has_bigint (get_prop v k) = false.
Proof. destruct v; try done. apply has_bigint_obj_get. Qed.

(** Serialising an array whose elements JSON represents, with one more
    element at its end. *)
Lemma toJSON_snoc (items : list jsval) (x y : jsval) :
  json_plain (JArray items) = true →
  toJSON x = Return y →
  toJSON (JArray (items ++ [x])%list)
  = Return (JArray (items ++ [if nullish y then JNull else y])%list).
Proof.
  intros Hp Hx. cbn [toJSON].
  set (each := fix each (l : list jsval) : completion (list jsval) :=
             match l with
             | [] => Return []
             | x :: l' =>
                 y ← toJSON x; ys ← each l';
                 Return ((if nullish y then JNull else y) :: ys)
             end).
  assert (each (items ++ [x])%list = Return (items ++ [if nullish y then JNull else y])%list)
    as ->; [|done].
  simpl in Hp. induction items as [|a items IH]; simpl.
  - by rewrite Hx.
  - apply andb_prop in Hp as [Ha Hp].
    rewrite (toJSON_plain _ Ha), (IH Hp). simpl. by destruct a.
Qed.

Lemma bind_Return {A B} (a : A) (f : A → completion B) : (Return a ≫= f) = f a.
Proof. done. Qed.

Lemma appendTxLog_entry (entry y : jsval) :
  toJSON entry = Return y →
  (∀ items, json_plain (JArray items) = true →
     appendTxLog entry (TxJson (JArray items))
     = Return (TxJson (JArray (items ++ [if nullish y then JNull else y])%list)))
  ∧ appendTxLog entry TxAbsent
    = Return (TxJson (JArray [if nullish y then JNull else y]))
  ∧ appendTxLog entry TxUnparsable
    = Return (TxJson (JArray [if nullish y then JNull else y])).
Proof.
  intros Hy. unfold appendTxLog. split; [|split].
  - intros items Hp. rewrite bind_Return. cbv beta.
    by rewrite (toJSON_snoc items _ _ Hp Hy).
  - rewrite bind_Return. cbv beta. by rewrite (toJSON_snoc [] _ _ eq_refl Hy).
  - rewrite bind_Return. cbv beta. by rewrite (toJSON_snoc [] _ _ eq_refl Hy).
Qed.

(** X23. [POST /api/log-transaction] adds exactly one entry at the end
    of the transaction log and keeps the entries that were there, in
    their order.  A log file that is missing starts with that entry; so
    does one that cannot be parsed, whose content is thereby lost.  The
    entry carries the time stamp of the request, and [null] as its error
    when the request names none.  (The request body holds no [bigint],
    being parsed from JSON, and the log holds what [JSON.parse]
    returned.) *)
Theorem transaction_log_appends
    (timestamp : string) (body : jsval) (items : list jsval) :
  nullish body = false →
  has_bigint body = false →
  json_plain (JArray items) = true →
  ∃ entry resp,
    api_log_transaction timestamp body (TxJson (JArray items))
    = Return (TxJson (JArray (items ++ [JObject entry])%list), resp)
    ∧ api_log_transaction timestamp body TxAbsent
      = Return (TxJson (JArray [JObject entry]), resp)
    ∧ api_log_transaction timestamp body TxUnparsable
      = Return (TxJson (JArray [JObject entry]), resp)
    ∧ status resp = 200
    ∧ obj_get entry "timestamp" = JString timestamp
    ∧ (truthy (get_prop body "error") = false → obj_get entry "error" = JNull).
Proof.
  intros Hn Hb Hp.
  assert (has_bigint (tx_entry timestamp body) = false) as He.
  { unfold tx_entry. cbn [has_bigint].
    rewrite !(has_bigint_get_prop body) by done.
    unfold js_or. destruct (truthy (get_prop body "error")); [|done].
    by rewrite (has_bigint_get_prop body). }
  pose proof (toJSON_cases (tx_entry timestamp body)) as Hj. rewrite He in Hj.
  destruct Hj as (w & Hw & _).
  assert (∃ entry, w = JObject entry) as [entry ->].
  { unfold tx_entry in Hw. cbn [toJSON] in Hw. inv_completion. eauto. }
  exists entry. eexists.
  destruct (appendTxLog_entry _ _ Hw) as (Harr & Habsent & Hunp).
  unfold api_log_transaction. rewrite Hn, (Harr items Hp), Habsent, Hunp.
  rewrite !bind_Return. cbn [nullish].
  split; [|split; [|split; [|split; [|split]]]].
  - reflexivity.
  - reflexivity.
  - reflexivity.
  - done.
  - by apply (toJSON_obj_get _ (JObject entry) "timestamp" Hw).
  - intros Hf.
    assert (obj_get (spread (tx_entry timestamp body)) "error" = JNull) as Hnull.
    { simpl. unfold js_or. by rewrite Hf. }
    rewrite <- Hnull.
    apply (toJSON_obj_get _ (JObject entry) "error" Hw). simpl in Hnull.
    simpl. unfold js_or. by rewrite Hf.
Qed.

Lemma transaction_log_appends_witness :
  let body := JObject [("operation", JString "contribute"); ("status", JString "success")] in
  let items := [JObject [("operation", JString "create_pool")]] in
  ∃ entry resp,
    api_log_transaction "t" body (TxJson (JArray items))
    = Return (TxJson (JArray (items ++ [JObject entry])%list), resp)
    ∧ api_log_transaction "t" body TxAbsent
      = Return (TxJson (JArray [JObject entry]), resp)
    ∧ api_log_transaction "t" body TxUnparsable
      = Return (TxJson (JArray [JObject entry]), resp)
    ∧ status resp = 200
    ∧ obj_get entry "timestamp" = JString "t"
    ∧ (truthy (get_prop body "error") = false → obj_get entry "error" = JNull).
Proof.
  intros body items.
  apply (transaction_log_appends "t" body items); reflexivity.
Defined.

(** ** The cursor of a running server *)

Lemma register_pool_cursor now body st d :
  lastScannedLedger (register_pool now body st d).1.1 = lastScannedLedger st.
Proof. unfold register_pool. by repeat case_match. Qed.

(** X24. In a server that has started from the state file, whatever it
    holds, the cursor is never negative: not after a pass, a single
    registration, a cursor reset or a save. *)
Theorem cursor_never_negative (d : file) (inputs : list input) :
  0 ≤ lastScannedLedger (app (run (started_with (loadState d initial_state) d) inputs)).
Proof.
  apply (run_preserves (fun st => 0 ≤ lastScannedLedger st)).
  - intros st e H. pose proof (after_event_cursor st e). lia.
  - done.
  - intros now body st d' H. by rewrite register_pool_cursor.
  - destruct d as [| |data]; simpl; [done..|]. lia.
Qed.
